(** * The TOON encoder of [toonConverter.ts]

    A shallow embedding of the value normaliser and of the text encoder
    ([normalize], [encodeString], [encodeNumberCanonical], [encodeArray],
    [encodeObjectField], [encodeObject], [encodeListItem], [encodeToon]),
    followed by the properties the specification states about them and
    by further properties of the normaliser, the tokens, the renderer and
    the rows.

    Conventions of the embedding:
    - a JavaScript string is the list of its UTF-16 code units;
    - a number is given by the decimal digits and the decimal exponent that
      ECMA-262 [Number::toString] prints it from;
    - an object is the list of its own enumerable string-keyed properties in
      [Object.keys] order, with the state of its prototype where the code
      can observe it; an array is the list of its slots, holes included;
    - a [throw] is the [Throw] result of an error monad;
    - the call stack of the host is the number of nested calls it has room
      for: [normalize] and the renderer take it as an argument, and a call
      that does not fit throws;
    - canonical values (no hole, every prototype in place) have a renderer
      of their own, a structural recursion without effects; the renderer
      that [encodeToon] runs is proved to return the same text on them. *)

From Stdlib Require Import Ascii String List ZArith NArith QArith Bool Lia.
From Stdlib Require DecimalPos DecimalN DecimalNat.
Import ListNotations.
Close Scope Q_scope.

Set Implicit Arguments.

(* ================================================================= *)
(** ** Strings *)

Module Str.

Definition code_unit := N.
Definition jsstring := list code_unit.

(** A string literal of the source, as code units. *)
Definition js (s : string) : jsstring :=
  map N_of_ascii (list_ascii_of_string s).

Definition TAB : code_unit := 9%N.
Definition LF : code_unit := 10%N.
Definition CR : code_unit := 13%N.
Definition SPACE : code_unit := 32%N.
Definition DQUOTE : code_unit := 34%N.
Definition PLUS : code_unit := 43%N.
Definition COMMA : code_unit := 44%N.
Definition MINUS : code_unit := 45%N.
Definition DOT : code_unit := 46%N.
Definition ZERO : code_unit := 48%N.
Definition COLON : code_unit := 58%N.
Definition UPPER_E : code_unit := 69%N.
Definition BACKSLASH : code_unit := 92%N.
Definition LOWER_E : code_unit := 101%N.
Definition LOWER_N : code_unit := 110%N.
Definition LOWER_R : code_unit := 114%N.
Definition LOWER_T : code_unit := 116%N.

(** [a === b] on strings. *)
Fixpoint eqb (a b : jsstring) : bool :=
  match a, b with
  | [], [] => true
  | x :: a', y :: b' => N.eqb x y && eqb a' b'
  | _, _ => false
  end.

(** [s.startsWith(p)] *)
Fixpoint startsWith (s p : jsstring) {struct p} : bool :=
  match p, s with
  | [], _ => true
  | y :: p', x :: s' => N.eqb x y && startsWith s' p'
  | _ :: _, [] => false
  end.

(** [s.includes(sub)]: [sub] occurs at some position of [s]. *)
Fixpoint includes (s sub : jsstring) : bool :=
  startsWith s sub ||
  match s with
  | [] => false
  | _ :: s' => includes s' sub
  end.

(** The code units [String.prototype.trim] removes: ECMA-262 WhiteSpace
    (TAB, VT, FF, SP, NBSP, ZWNBSP and the category Zs) and LineTerminator
    (LF, CR, LS, PS). *)
Definition isTrimSpace (c : code_unit) : bool :=
  ((9 <=? c) && (c <=? 13) || (c =? 32) || (c =? 160) || (c =? 5760)
   || (8192 <=? c) && (c <=? 8202) || (c =? 8232) || (c =? 8233)
   || (c =? 8239) || (c =? 8287) || (c =? 12288) || (c =? 65279))%N.

Fixpoint dropWhile (p : code_unit -> bool) (s : jsstring) : jsstring :=
  match s with
  | [] => []
  | c :: s' => if p c then dropWhile p s' else s
  end.

Definition trimStart (s : jsstring) : jsstring := dropWhile isTrimSpace s.
Definition trimEnd (s : jsstring) : jsstring :=
  rev (dropWhile isTrimSpace (rev s)).

(** [s.trim()] *)
Definition trim (s : jsstring) : jsstring := trimEnd (trimStart s).

(** [s.replace(/c/g, r)] for a one-character pattern [c]. *)
Definition replaceAll (c : code_unit) (r : jsstring) (s : jsstring) : jsstring :=
  flat_map (fun x => if N.eqb x c then r else [x]) s.

(** [parts.join(sep)] *)
Fixpoint join (sep : jsstring) (parts : list jsstring) : jsstring :=
  match parts with
  | [] => []
  | [p] => p
  | p :: rest => p ++ sep ++ join sep rest
  end.

(** [c.repeat(n)] for a one-character string. *)
Definition repeat (c : code_unit) (n : nat) : jsstring := List.repeat c n.

Definition isDigit (c : code_unit) : bool := ((48 <=? c) && (c <=? 57))%N.

End Str.
Import Str.

(* ================================================================= *)
(** ** Regular expressions

    The anchored patterns of the source that are only tested ([^...$] with
    [RegExp.prototype.test]) are kept as regular-expression values and run
    by a derivative matcher. *)

Module Regex.

Inductive regex : Type :=
| Void : regex
| Eps : regex
| Class : (code_unit -> bool) -> regex
| Cat : regex -> regex -> regex
| Alt : regex -> regex -> regex
| Star : regex -> regex.

Definition Chr (c : code_unit) : regex := Class (N.eqb c).
Definition Opt (r : regex) : regex := Alt r Eps.
Definition Plus (r : regex) : regex := Cat r (Star r).
Definition Digit : regex := Class isDigit.

Fixpoint nullable (r : regex) : bool :=
  match r with
  | Void => false
  | Eps => true
  | Class _ => false
  | Cat a b => nullable a && nullable b
  | Alt a b => nullable a || nullable b
  | Star _ => true
  end.

Fixpoint deriv (c : code_unit) (r : regex) : regex :=
  match r with
  | Void => Void
  | Eps => Void
  | Class p => if p c then Eps else Void
  | Cat a b =>
      if nullable a then Alt (Cat (deriv c a) b) (deriv c b)
      else Cat (deriv c a) b
  | Alt a b => Alt (deriv c a) (deriv c b)
  | Star a => Cat (deriv c a) (Star a)
  end.

(** [/^r$/.test(s)] *)
Fixpoint test (r : regex) (s : jsstring) : bool :=
  match s with
  | [] => nullable r
  | c :: s' => test (deriv c r) s'
  end.

(** The language of a regular expression. *)
Inductive Matches : regex -> jsstring -> Prop :=
| MEps : Matches Eps []
| MClass p c : p c = true -> Matches (Class p) [c]
| MCat a b s t : Matches a s -> Matches b t -> Matches (Cat a b) (s ++ t)
| MAltL a b s : Matches a s -> Matches (Alt a b) s
| MAltR a b s : Matches b s -> Matches (Alt a b) s
| MStarNil a : Matches (Star a) []
| MStarCons a s t :
    Matches a s -> Matches (Star a) t -> Matches (Star a) (s ++ t).

End Regex.
Import Regex.

(* ================================================================= *)
(** ** Primitive encoding: strings *)

(** The pattern [/^-?( 0 | [1-9]\d* )( \.\d+ )?( [eE][+-]?\d+ )?$/] (shown with
    blanks between its groups). *)
Definition numberPattern : regex :=
  Cat (Opt (Chr MINUS))
   (Cat (Alt (Chr ZERO)
             (Cat (Class (fun c => (49 <=? c) && (c <=? 57))%N) (Star Digit)))
    (Cat (Opt (Cat (Chr DOT) (Plus Digit)))
         (Opt (Cat (Class (fun c => (c =? LOWER_E) || (c =? UPPER_E))%N)
               (Cat (Opt (Class (fun c => (c =? PLUS) || (c =? MINUS))%N))
                    (Plus Digit)))))).

Definition looksLikeNumber (s : jsstring) : bool := test numberPattern s.

Definition needsQuotes (s delimiter : jsstring) : bool :=
  if (length s =? 0)%nat then true
  else if negb (Str.eqb s (trim s)) then true
  else if Str.eqb s (js "true") || Str.eqb s (js "false")
          || Str.eqb s (js "null") then true
  else if looksLikeNumber s then true
  else if Str.eqb s (js "-") || startsWith s (js "-") then true
  else if existsb (fun c => (c <? 32)%N) s then true
  else if includes s [DQUOTE] || includes s [BACKSLASH] then true
  else if includes s [COLON] then true
  else if includes s delimiter then true
  else if includes s [COMMA] || includes s [TAB] then true
  else false.

Definition escapeQuoted (s : jsstring) : jsstring :=
  replaceAll TAB [BACKSLASH; LOWER_T]
   (replaceAll CR [BACKSLASH; LOWER_R]
    (replaceAll LF [BACKSLASH; LOWER_N]
     (replaceAll DQUOTE [BACKSLASH; DQUOTE]
      (replaceAll BACKSLASH [BACKSLASH; BACKSLASH] s)))).

Definition quoted (body : jsstring) : jsstring := DQUOTE :: body ++ [DQUOTE].

Definition encodeString (s delimiter : jsstring) : jsstring :=
  if needsQuotes s delimiter then quoted (escapeQuoted s) else s.

Definition encodeKey (k delimiter : jsstring) : jsstring :=
  encodeString k delimiter.

(* ================================================================= *)
(** ** Numbers

    A number is kept as the data ECMA-262 [Number::toString] prints it
    from: for a finite non-zero [x], the digits [d1 ... dk] and the exponent
    [n] with [x = +/- 0.d1...dk * 10^n], [d1 <> 0] and [k] as small as
    possible. *)

Module Num.

Inductive number : Type :=
| NaN : number
| Infinity (negative : bool) : number
| Zero (negative : bool) : number
| Finite (negative : bool) (digits : list N) (point : Z) : number.

(** [Number.isFinite(n)] *)
Definition isFinite (n : number) : bool :=
  match n with
  | NaN | Infinity _ => false
  | Zero _ | Finite _ _ _ => true
  end.

(** [Object.is(n, -0)] *)
Definition isNegativeZero (n : number) : bool :=
  match n with
  | Zero true => true
  | _ => false
  end.

(** The digits and exponent of a finite non-zero number are in the form
    [Number::toString] chooses. *)
Definition wfDigits (digits : list N) : Prop :=
  digits <> [] /\ Forall (fun d => (d < 10)%N) digits
  /\ hd 0%N digits <> 0%N /\ last digits 1%N <> 0%N.

Definition wf (n : number) : Prop :=
  match n with
  | Finite _ digits _ => wfDigits digits
  | _ => True
  end.

Definition digitChar (d : N) : code_unit := (48 + d)%N.

Fixpoint uintChars (u : Decimal.uint) : jsstring :=
  match u with
  | Decimal.Nil => []
  | Decimal.D0 u' => 48%N :: uintChars u'
  | Decimal.D1 u' => 49%N :: uintChars u'
  | Decimal.D2 u' => 50%N :: uintChars u'
  | Decimal.D3 u' => 51%N :: uintChars u'
  | Decimal.D4 u' => 52%N :: uintChars u'
  | Decimal.D5 u' => 53%N :: uintChars u'
  | Decimal.D6 u' => 54%N :: uintChars u'
  | Decimal.D7 u' => 55%N :: uintChars u'
  | Decimal.D8 u' => 56%N :: uintChars u'
  | Decimal.D9 u' => 57%N :: uintChars u'
  end.

(** Decimal digits of a non-negative integer, as template literals and
    [String] print array lengths and exponents. *)
Definition natToString (n : nat) : jsstring := uintChars (Nat.to_uint n).
Definition NToString (n : N) : jsstring := uintChars (N.to_uint n).

(** [String(z)] for a [bigint]. *)
Definition bigintToString (z : Z) : jsstring :=
  (if (z <? 0)%Z then [MINUS] else []) ++ NToString (Z.abs_N z).

(** [String(n)], ECMA-262 [Number::toString] in radix 10. *)
Definition toString (x : number) : jsstring :=
  match x with
  | NaN => js "NaN"
  | Infinity negative => (if negative then [MINUS] else []) ++ js "Infinity"
  | Zero _ => js "0"
  | Finite negative digits n =>
      let k := Z.of_nat (length digits) in
      let s := map digitChar digits in
      (if negative then [MINUS] else []) ++
      (if (k <=? n) && (n <=? 21) then
         s ++ repeat ZERO (Z.to_nat (n - k))
       else if (0 <? n) && (n <=? 21) then
         firstn (Z.to_nat n) s ++ [DOT] ++ skipn (Z.to_nat n) s
       else if (-6 <? n) && (n <=? 0) then
         js "0." ++ repeat ZERO (Z.to_nat (- n)) ++ s
       else
         let e := n - 1 in
         let es := (if e <? 0 then [MINUS] else [PLUS])
                   ++ NToString (Z.abs_N e) in
         match s with
         | [] => []
         | [d] => [d; LOWER_E] ++ es
         | d :: rest => [d; DOT] ++ rest ++ [LOWER_E] ++ es
         end)%Z
  end.

Fixpoint charsUint (s : jsstring) : Decimal.uint :=
  match s with
  | [] => Decimal.Nil
  | c :: s' =>
      let u := charsUint s' in
      match (c - 48)%N with
      | 0%N => Decimal.D0 u
      | 1%N => Decimal.D1 u
      | 2%N => Decimal.D2 u
      | 3%N => Decimal.D3 u
      | 4%N => Decimal.D4 u
      | 5%N => Decimal.D5 u
      | 6%N => Decimal.D6 u
      | 7%N => Decimal.D7 u
      | 8%N => Decimal.D8 u
      | _ => Decimal.D9 u
      end
  end.

(** [parseInt(s, 10)] on a string of the shape [[+-]?\d+]. *)
Definition parseInt (s : jsstring) : Z :=
  match s with
  | c :: s' =>
      if (c =? MINUS)%N then (- Z.of_N (N.of_uint (charsUint s')))%Z
      else if (c =? PLUS)%N then Z.of_N (N.of_uint (charsUint s'))
      else Z.of_N (N.of_uint (charsUint s))
  | [] => 0%Z
  end.

End Num.
Import Num.

(* ================================================================= *)
(** ** Primitive encoding: numbers *)

Definition isZeroChar (c : code_unit) : bool := (c =? ZERO)%N.
Definition isExpChar (c : code_unit) : bool :=
  ((c =? LOWER_E) || (c =? UPPER_E))%N.
Definition isSignChar (c : code_unit) : bool :=
  ((c =? PLUS) || (c =? MINUS))%N.

Fixpoint takeWhile (p : code_unit -> bool) (s : jsstring) : jsstring :=
  match s with
  | [] => []
  | c :: s' => if p c then c :: takeWhile p s' else []
  end.

Definition isEmpty (s : jsstring) : bool :=
  match s with [] => true | _ => false end.

(** [s] ends in the character 0. *)
Definition endsInZero (s : jsstring) : bool :=
  match rev s with
  | c :: _ => isZeroChar c
  | [] => false
  end.

Definition dropZerosEnd (s : jsstring) : jsstring :=
  rev (dropWhile isZeroChar (rev s)).

(** [s.replace(/(\.\d*?)0+$/, "$1")]: the match starts at the first dot
    whose tail is made of digits only and ends in 0; the lazy group keeps
    that tail up to its final run of zeros, which is removed. *)
Fixpoint stripFractionZeros (s : jsstring) : jsstring :=
  match s with
  | [] => []
  | c :: s' =>
      if (c =? DOT)%N && forallb isDigit s' && endsInZero s'
      then c :: dropZerosEnd s'
      else c :: stripFractionZeros s'
  end.

(** [s.replace(/\.$/, "")] *)
Definition dropFinalDot (s : jsstring) : jsstring :=
  match rev s with
  | c :: r => if (c =? DOT)%N then rev r else s
  | [] => s
  end.

(** [s.replace(/^0+(?=\d)/, "")]: the greedy run of leading zeros is removed
    when a digit follows it; otherwise the run gives back its last zero to
    the lookahead. *)
Definition stripLeadingZeros (s : jsstring) : jsstring :=
  match s with
  | c :: _ =>
      if isZeroChar c then
        match dropWhile isZeroChar s with
        | d :: rest => if isDigit d then d :: rest else ZERO :: d :: rest
        | [] => [ZERO]
        end
      else s
  | [] => s
  end.

(** The groups of [s.match(/^([+-]?)(\d+)(?:\.(\d+))?[eE]([+-]?\d+)$/)]. *)
Definition matchExponential (s : jsstring)
  : option (jsstring * jsstring * option jsstring * jsstring) :=
  let '(m1, s1) :=
    match s with
    | c :: t => if isSignChar c then ([c], t) else ([], s)
    | [] => ([], [])
    end in
  let m2 := takeWhile isDigit s1 in
  let s2 := dropWhile isDigit s1 in
  if isEmpty m2 then None else
  let '(m3, s3) :=
    match s2 with
    | c :: t =>
        if (c =? DOT)%N && negb (isEmpty (takeWhile isDigit t))
        then (Some (takeWhile isDigit t), dropWhile isDigit t)
        else (None, s2)
    | [] => (None, [])
    end in
  match s3 with
  | c :: t =>
      if isExpChar c then
        let '(esign, t1) :=
          match t with
          | c' :: t' => if isSignChar c' then ([c'], t') else ([], t)
          | [] => ([], [])
          end in
        if negb (isEmpty t1) && forallb isDigit t1
        then Some (m1, m2, m3, esign ++ t1)
        else None
      else None
  | [] => None
  end.

(** The tail of [encodeNumberCanonical], from [out.replace(/^0+(?=\d)/, "")]
    to [return sign + out]. *)
Definition finishNumber (sign out : jsstring) : jsstring :=
  let out := stripLeadingZeros out in
  let out :=
    if includes out [DOT] then dropFinalDot (stripFractionZeros out)
    else out in
  sign ++ out.

Definition encodeNumberCanonical (n : number) : jsstring :=
  if negb (isFinite n) then js "null"
  else if isNegativeZero n then js "0"
  else
    let s := toString n in
    if negb (existsb isExpChar s) then
      if includes s [DOT] then dropFinalDot (stripFractionZeros s) else s
    else
      match matchExponential s with
      | None => toString n
      | Some (m1, m2, m3, m4) =>
          let sign := if Str.eqb m1 [MINUS] then [MINUS] else [] in
          let intPart := m2 in
          let fracPart := match m3 with Some f => f | None => [] end in
          let exp := parseInt m4 in
          let digits := intPart ++ fracPart in
          let pos := Z.of_nat (length intPart) in
          let newPos := (pos + exp)%Z in
          if (newPos <=? 0)%Z then
            let stripped := dropWhile isZeroChar digits in
            if (length stripped =? 0)%nat then js "0"
            else finishNumber sign
                   (js "0." ++ repeat ZERO (Z.to_nat (- newPos)) ++ stripped)
          else if (newPos >=? Z.of_nat (length digits))%Z then
            finishNumber sign
              (digits
               ++ repeat ZERO (Z.to_nat (newPos - Z.of_nat (length digits))))
          else
            finishNumber sign
              (firstn (Z.to_nat newPos) digits ++ [DOT]
               ++ skipn (Z.to_nat newPos) digits)
      end.

(* ================================================================= *)
(** ** Canonical values *)

Inductive Primitive : Type :=
| PNull : Primitive
| PBoolean (b : bool) : Primitive
| PNumber (n : number) : Primitive
| PString (s : jsstring) : Primitive.

(** [type Json = Primitive | Json[] | { [k: string]: Json }]; the fields of
    an object are listed in [Object.keys] order. *)
#[warnings="-register-all"]
Inductive Json : Type :=
| JPrim (p : Primitive) : Json
| JArray (items : list Json) : Json
| JObject (fields : list (jsstring * Json)) : Json.

(** [indentSize] is a number of the caller's choice; the integers stand
    for it here, the negative ones included. *)
Record EncodeOpts : Type := {
  sanitizeJs : option bool;
  indentSize : option Z
}.

Record Ctx : Type := { indent : nat }.

Inductive ArrayKind : Type := KInline | KTabular | KList.

Record EncodedArray : Type := {
  kind : ArrayKind;
  header : jsstring;
  body : jsstring;
  delimiter : jsstring;
  tabularFields : option (list jsstring)
}.

(** [isPlainObject] on canonical values. *)
Definition isPlainObject (v : Json) : bool :=
  match v with
  | JObject _ => true
  | _ => false
  end.

Definition isPrimitive (v : Json) : bool :=
  match v with
  | JPrim _ => true
  | _ => false
  end.

(** [Object.keys(o)] *)
Definition keysOf (o : Json) : list jsstring :=
  match o with
  | JObject fields => map fst fields
  | _ => []
  end.

Fixpoint lookup (k : jsstring) (fields : list (jsstring * Json)) : option Json :=
  match fields with
  | [] => None
  | (k', v) :: rest => if Str.eqb k' k then Some v else lookup k rest
  end.

(** [o[k]], [None] standing for [undefined]. *)
Definition getProp (o : Json) (k : jsstring) : option Json :=
  match o with
  | JObject fields => lookup k fields
  | _ => None
  end.

(** [isPrimitive(o[k])]; [undefined] is not a primitive. *)
Definition isPrimitiveProp (o : Json) (k : jsstring) : bool :=
  match getProp o k with
  | Some v => isPrimitive v
  | None => false
  end.

(** The cast [arr as Primitive[]] of an array whose elements are all
    primitives. *)
Definition asPrimitives (arr : list Json) : list Primitive :=
  flat_map (fun x => match x with JPrim p => [p] | _ => [] end) arr.

Definition encodePrimitive (v : Primitive) (delimiter : jsstring) : jsstring :=
  match v with
  | PNull => js "null"
  | PBoolean b => if b then js "true" else js "false"
  | PNumber n => encodeNumberCanonical n
  | PString s => encodeString s delimiter
  end.

Definition indentStr (level indentSize : nat) : jsstring :=
  repeat SPACE (level * indentSize).

Definition chooseDelimiterForValues (values : list Json) : jsstring :=
  if existsb (fun v => match v with
                       | JPrim (PString s) => includes s [COMMA]
                       | _ => false
                       end) values
  then [TAB] else [COMMA].

Definition hasKey (keys : list jsstring) (k : jsstring) : bool :=
  existsb (Str.eqb k) keys.

(** The result record [{ ok, keys }] as a pair. *)
Definition sameKeySet (objs : list Json) : bool * list jsstring :=
  match objs with
  | [] => (true, [])
  | o0 :: rest =>
      let keys0 := keysOf o0 in
      if forallb (fun oi =>
                    let ki := keysOf oi in
                    (length ki =? length keys0)%nat
                    && forallb (hasKey keys0) ki) rest
      then (true, keys0)
      else (false, [])
  end.

(** The values [o[k]] pushed on [cellValues], rows outermost. *)
Definition cellValuesOf (objRows : list Json) (keys : list jsstring) : list Json :=
  flat_map (fun o =>
    flat_map (fun k => match getProp o k with
                       | Some v => [v]
                       | None => []
                       end) keys) objRows.

(** One table row: [keys.map((k) => encodePrimitive(o[k], delimiter))]. *)
Definition rowCells (o : Json) (keys : list jsstring) (delimiter : jsstring)
  : list jsstring :=
  map (fun k => match getProp o k with
                | Some (JPrim p) => encodePrimitive p delimiter
                | _ => []
                end) keys.

Definition bracketed (N : nat) : jsstring :=
  js "[" ++ natToString N ++ js "]".

Definition truthy (s : jsstring) : bool := negb (isEmpty s).

(** [block.split("\n")] *)
Fixpoint splitLines (s : jsstring) : list jsstring :=
  match s with
  | [] => [[]]
  | c :: s' =>
      if (c =? LF)%N then [] :: splitLines s'
      else match splitLines s' with
           | l :: ls => (c :: l) :: ls
           | [] => [[c]]
           end
  end.

Definition reindentBlock (block : jsstring) (addIndentLevels indentSize : nat)
  : jsstring :=
  if negb (truthy block) then []
  else
    let prefix := indentStr addIndentLevels indentSize in
    join [LF]
      (map (fun ln => if (0 <? length ln)%nat then prefix ++ ln else ln)
           (splitLines block)).

(** The tabular attempt of [encodeArray]; [None] when control falls through
    to the list layout. *)
Definition encodeTabular (arr : list Json) (ctx : Ctx) (indentSize : nat)
  : option EncodedArray :=
  let N := length arr in
  let allObjects := (0 <? length arr)%nat && forallb isPlainObject arr in
  if allObjects then
    let objRows := arr in
    let sk := sameKeySet objRows in
    if fst sk then
      let keys := snd sk in
      let primitiveValuesOnly :=
        forallb (fun o => forallb (fun k => isPrimitiveProp o k) keys) objRows in
      if primitiveValuesOnly then
        let cellValues := cellValuesOf objRows keys in
        let delimiter := chooseDelimiterForValues cellValues in
        let fields := join [COMMA] (map (fun k => encodeKey k [COMMA]) keys) in
        let header := js "[" ++ natToString N ++ js "]{" ++ fields ++ js "}" in
        let rowIndent := indentStr (indent ctx + 1) indentSize in
        let lines :=
          map (fun o => rowIndent ++ join delimiter (rowCells o keys delimiter))
              objRows in
        Some {| kind := KTabular; header := header; body := join [LF] lines;
                delimiter := delimiter; tabularFields := Some keys |}
      else None
    else None
  else None.

Section OpenRecursion.

(** The two functions the renderer is recursive through. *)
Variable encodeListItem : Json -> Ctx -> nat -> jsstring.
Variable encodeObjectField : jsstring -> Json -> Ctx -> nat -> jsstring.

Definition encodeArrayWith (arr : list Json) (ctx : Ctx) (indentSize : nat)
  : EncodedArray :=
  let N := length arr in
  let allPrimitives := forallb isPrimitive arr in
  if allPrimitives then
    let delimiter := chooseDelimiterForValues arr in
    let body :=
      join delimiter
        (map (fun x => encodePrimitive x delimiter) (asPrimitives arr)) in
    {| kind := KInline; header := bracketed N; body := body;
       delimiter := delimiter; tabularFields := None |}
  else
    match encodeTabular arr ctx indentSize with
    | Some enc => enc
    | None =>
        let header := bracketed N in
        let lines :=
          map (fun item =>
                 encodeListItem item {| indent := indent ctx + 1 |} indentSize)
              arr in
        {| kind := KList; header := header; body := join [LF] lines;
           delimiter := [COMMA]; tabularFields := None |}
    end.

Definition encodeObjectWith (obj : list (jsstring * Json)) (ctx : Ctx)
  (indentSize : nat) : jsstring :=
  let lines :=
    map (fun kv => encodeObjectField (fst kv) (snd kv) ctx indentSize) obj in
  join [LF] lines.

End OpenRecursion.

Fixpoint encodeObjectField (key : jsstring) (value : Json) (ctx : Ctx)
  (indentSize : nat) {struct value} : jsstring :=
  let ind := indentStr (indent ctx) indentSize in
  let k := encodeKey key [COMMA] in
  match value with
  | JPrim p => ind ++ k ++ js ": " ++ encodePrimitive p [COMMA]
  | JArray arr =>
      let enc := encodeArrayWith encodeListItem arr ctx indentSize in
      match kind enc with
      | KInline => ind ++ k ++ header enc ++ js ": " ++ body enc
      | _ =>
          if truthy (body enc)
          then ind ++ k ++ header enc ++ [COLON; LF] ++ body enc
          else ind ++ k ++ header enc ++ [COLON]
      end
  | JObject obj =>
      let keys := map fst obj in
      if (length keys =? 0)%nat then ind ++ k ++ [COLON]
      else
        let body :=
          encodeObjectWith encodeObjectField obj
            {| indent := indent ctx + 1 |} indentSize in
        if truthy body then ind ++ k ++ [COLON; LF] ++ body
        else ind ++ k ++ [COLON]
  end

with encodeListItem (v : Json) (ctx : Ctx) (indentSize : nat) {struct v}
  : jsstring :=
  let ind := indentStr (indent ctx) indentSize in
  match v with
  | JPrim p => ind ++ js "- " ++ encodePrimitive p [COMMA]
  | JArray arr =>
      let enc :=
        encodeArrayWith encodeListItem arr {| indent := indent ctx |}
          indentSize in
      match kind enc with
      | KInline => ind ++ js "- " ++ header enc ++ js ": " ++ body enc
      | _ =>
          if truthy (body enc)
          then ind ++ js "- " ++ header enc ++ [COLON; LF] ++ body enc
          else ind ++ js "- " ++ header enc ++ [COLON]
      end
  | JObject [] => ind ++ js "-"
  | JObject ((firstKey, firstVal) :: others) =>
      let firstKeyToken := encodeKey firstKey [COMMA] in
      let '(firstLine, tailLines) :=
        match firstVal with
        | JPrim p =>
            (ind ++ js "- " ++ firstKeyToken ++ js ": "
               ++ encodePrimitive p [COMMA], [])
        | JArray arr =>
            let enc :=
              encodeArrayWith encodeListItem arr {| indent := indent ctx |}
                indentSize in
            match kind enc with
            | KInline =>
                (ind ++ js "- " ++ firstKeyToken ++ header enc ++ js ": "
                   ++ body enc, [])
            | k =>
                (ind ++ js "- " ++ firstKeyToken ++ header enc ++ [COLON],
                 if truthy (body enc) then
                   match k with
                   | KTabular => [reindentBlock (body enc) 1 indentSize]
                   | _ => [body enc]
                   end
                 else [])
            end
        | JObject firstObj =>
            let nested :=
              encodeObjectWith encodeObjectField firstObj
                {| indent := indent ctx + 1 |} indentSize in
            (ind ++ js "- " ++ firstKeyToken ++ [COLON],
             if truthy nested then [nested] else [])
        end in
      let tailLines :=
        tailLines
        ++ map (fun kv =>
                  encodeObjectField (fst kv) (snd kv)
                    {| indent := indent ctx + 1 |} indentSize) others in
      let rest :=
        join [LF] (filter (fun x => (0 <? length x)%nat) tailLines) in
      if truthy rest then firstLine ++ [LF] ++ rest else firstLine
  end.

Definition encodeArray : list Json -> Ctx -> nat -> EncodedArray :=
  encodeArrayWith encodeListItem.

Definition encodeObject : list (jsstring * Json) -> Ctx -> nat -> jsstring :=
  encodeObjectWith encodeObjectField.

(* ================================================================= *)
(** ** Exceptions *)

Module Exn.

(** What can be thrown: an [Error] made by [new Error(message)]; the
    RangeError of [Date.prototype.toISOString] and of
    [String.prototype.repeat]; the TypeError of [Object.keys(undefined)];
    the error of the host when a call does not fit on the call stack; and
    any other value, thrown by code that belongs to the input. *)
Inductive exn : Type :=
| Error (message : jsstring) : exn
| RangeError : exn
| TypeError : exn
| StackExhausted : exn
| Thrown (what : jsstring) : exn.

Inductive result (A : Type) : Type :=
| Return (a : A) : result A
| Throw (e : exn) : result A.

Arguments Return {A} a.
Arguments Throw {A} e.

Definition bind {A B : Type} (m : result A) (f : A -> result B) : result B :=
  match m with
  | Return a => f a
  | Throw e => Throw e
  end.

Section Traversals.
Variables A B : Type.

(** [xs.map(f)] for an [f] that may throw, left to right. *)
Fixpoint mapM (f : A -> result B) (xs : list A) : result (list B) :=
  match xs with
  | [] => Return []
  | x :: xs' =>
      bind (f x) (fun y => bind (mapM f xs') (fun ys => Return (y :: ys)))
  end.

(** A loop over [xs] whose body either skips the element ([continue]) or
    appends one entry. *)
Fixpoint filterMapM (f : A -> result (option B)) (xs : list A)
  : result (list B) :=
  match xs with
  | [] => Return []
  | x :: xs' =>
      bind (f x) (fun oy =>
        bind (filterMapM f xs') (fun ys =>
          Return (match oy with Some y => y :: ys | None => ys end)))
  end.

End Traversals.

End Exn.
Import Exn.

Notation "x <- m ;; k" := (bind m (fun x => k))
  (at level 61, m at next level, right associativity).

(* ================================================================= *)
(** ** Host values and normalisation *)

(** The values [normalize] tells apart.  An array lists its slots, [None]
    being a hole.  A [Date] carries the text [toISOString] returns, or
    nothing when its time value is NaN (the call then throws a RangeError).
    A plain object (its prototype is [Object.prototype] or [null]) lists
    its own enumerable string-keyed properties in [Object.keys] order, the
    keys pairwise distinct; they are data properties, so that reading one
    runs no code.  An
    object that is neither a [Date], an array nor plain carries the outcome
    of [String(input)]: the text, or the exception that the conversion,
    which runs code of the object, throws. *)
#[warnings="-register-all"]
Inductive Host : Type :=
| HNull : Host
| HUndefined : Host
| HBoolean (b : bool) : Host
| HNumber (n : number) : Host
| HString (s : jsstring) : Host
| HBigInt (z : Z) : Host
| HFunction : Host
| HSymbol : Host
| HDate (iso : option jsstring) : Host
| HArray (items : list (option Host)) : Host
| HPlainObject (props : list (jsstring * Host)) : Host
| HOtherObject (str : result jsstring) : Host.

(** What [normalize] returns: a primitive, an array, whose holes are those
    of the input, or a fresh object; [plain] tells whether the prototype of
    the object is still [Object.prototype] or [null]. *)
#[warnings="-register-all"]
Inductive Norm : Type :=
| NPrim (p : Primitive) : Norm
| NArray (items : list (option Norm)) : Norm
| NObject (plain : bool) (fields : list (jsstring * Norm)) : Norm.

Definition typeof (v : Host) : jsstring :=
  match v with
  | HUndefined => js "undefined"
  | HBoolean _ => js "boolean"
  | HNumber _ => js "number"
  | HString _ => js "string"
  | HBigInt _ => js "bigint"
  | HFunction => js "function"
  | HSymbol => js "symbol"
  | HNull | HDate _ | HArray _ | HPlainObject _ | HOtherObject _ => js "object"
  end.

Definition isUndefined (v : Host) : bool :=
  match v with
  | HUndefined => true
  | _ => false
  end.

(** [Object.is(n, -0) ? 0 : n] *)
Definition positiveZero (n : number) : number :=
  if isNegativeZero n then Zero false else n.

Definition toISOString (iso : option jsstring) : result jsstring :=
  match iso with
  | Some s => Return s
  | None => Throw RangeError
  end.

Definition isProtoKey (k : jsstring) : bool := Str.eqb k (js "__proto__").

(** [out[k] = v] on the object [out] under construction, given by the
    state of its prototype and by its own fields.  The key [__proto__] is
    not stored: the assignment runs the prototype setter, which makes [v]
    the prototype of [out] when [v] is an object or null and does nothing
    otherwise.  Any other key is new, the keys of [Object.keys] being
    pairwise distinct. *)
Definition assign (out : bool * list (jsstring * Norm)) (k : jsstring)
  (v : Norm) : bool * list (jsstring * Norm) :=
  if isProtoKey k then
    match v with
    | NPrim PNull => (true, snd out)
    | NPrim _ => out
    | NArray _ | NObject _ _ => (false, snd out)
    end
  else (fst out, snd out ++ [(k, v)]).

(** The object that the assignments [out[k] = v] of a loop make of [{}]. *)
Definition objectOf (pairs : list (jsstring * Norm)) : Norm :=
  let out :=
    fold_left (fun out kv => assign out (fst kv) (snd kv)) pairs (true, []) in
  NObject (fst out) (snd out).

(** [stack] is the room the call stack of the host has for nested calls: a
    call that does not fit throws [StackExhausted].  [input.map(f)] skips
    the holes of [input] and leaves them in its result. *)
Fixpoint normalize (stack : nat) (input : Host) (sanitizeJs : bool)
  {struct stack} : result Norm :=
  let call := fun (x : Host) (mode : bool) =>
    match stack with
    | O => Throw StackExhausted
    | S room => normalize room x mode
    end in
  if negb sanitizeJs then
    match input with
    | HNull => Return (NPrim PNull)
    | HBoolean b => Return (NPrim (PBoolean b))
    | HString s => Return (NPrim (PString s))
    | HNumber n =>
        if negb (isFinite n)
        then Throw (Error (js "Non-finite number in strict mode"))
        else Return (NPrim (PNumber (positiveZero n)))
    | HArray items =>
        out <- mapM (fun slot =>
                       match slot with
                       | None => Return None
                       | Some x => y <- call x false ;; Return (Some y)
                       end) items ;;
        Return (NArray out)
    | HPlainObject props =>
        pairs <- mapM (fun kv =>
                         v <- call (snd kv) false ;;
                         Return (fst kv, v)) props ;;
        Return (objectOf pairs)
    | _ =>
        Throw (Error (js "Non-JSON type in strict mode: " ++ typeof input))
    end
  else
    match input with
    | HNull => Return (NPrim PNull)
    | HBoolean b => Return (NPrim (PBoolean b))
    | HString s => Return (NPrim (PString s))
    | HNumber n =>
        if negb (isFinite n) then Return (NPrim PNull)
        else Return (NPrim (PNumber (positiveZero n)))
    | HBigInt z => Return (NPrim (PString (bigintToString z)))
    | HUndefined | HFunction | HSymbol => Return (NPrim PNull)
    | HDate iso =>
        s <- toISOString iso ;;
        Return (NPrim (PString s))
    | HArray items =>
        out <- mapM (fun slot =>
                       match slot with
                       | None => Return None
                       | Some x =>
                           if isUndefined x then Return (Some (NPrim PNull))
                           else y <- call x true ;; Return (Some y)
                       end) items ;;
        Return (NArray out)
    | HPlainObject props =>
        pairs <- filterMapM (fun kv =>
                               let v := snd kv in
                               if isUndefined v then Return None
                               else
                                 v' <- call v true ;;
                                 Return (Some (fst kv, v'))) props ;;
        Return (objectOf pairs)
    | HOtherObject str =>
        s <- str ;;
        Return (NPrim (PString s))
    end.

(* ================================================================= *)
(** ** The renderer as the program runs it

    [normalize] can return arrays with holes and objects whose prototype
    was replaced, the indent size can be negative, and the call stack is
    finite.  The renderer of this section follows the source on all of
    these, exceptions included.  On canonical values, with a natural indent
    size and room on the stack, it returns what the renderer of the section
    on canonical values returns. *)

Module Run.

Definition Row : Type := list (jsstring * Norm).

(** [" ".repeat(level * indentSize)]: [repeat] throws a RangeError on a
    negative count. *)
Definition indentStr (level : nat) (indentSize : Z) : result jsstring :=
  let count := (Z.of_nat level * indentSize)%Z in
  if (count <? 0)%Z then Throw RangeError
  else Return (repeat SPACE (Z.to_nat count)).

Definition isPrimitive (v : Norm) : bool :=
  match v with
  | NPrim _ => true
  | _ => false
  end.

Definition isPlainObject (v : Norm) : bool :=
  match v with
  | NObject plain _ => plain
  | _ => false
  end.

(** [arr.every(f)]: holes are skipped. *)
Definition every (f : Norm -> bool) (arr : list (option Norm)) : bool :=
  forallb (fun slot => match slot with
                       | Some v => f v
                       | None => true
                       end) arr.

(** The loop [for (const v of values)] visits a hole as [undefined]. *)
Definition chooseDelimiterForValues (values : list (option Norm)) : jsstring :=
  if existsb (fun v => match v with
                       | Some (NPrim (PString s)) => includes s [COMMA]
                       | _ => false
                       end) values
  then [TAB] else [COMMA].

Fixpoint lookup (k : jsstring) (fields : Row) : option Norm :=
  match fields with
  | [] => None
  | (k', v) :: rest => if Str.eqb k' k then Some v else lookup k rest
  end.

(** [isPrimitive(o[k])]; [undefined] is not a primitive. *)
Definition isPrimitiveProp (o : Row) (k : jsstring) : bool :=
  match lookup k o with
  | Some v => isPrimitive v
  | None => false
  end.

(** The cast [arr as Record<string, Json>[]] of an array whose elements are
    all plain objects; its holes stay holes. *)
Definition asRows (arr : list (option Norm)) : list (option Row) :=
  map (fun slot => match slot with
                   | Some (NObject _ fields) => Some fields
                   | _ => None
                   end) arr.

(** [Object.keys(o)]; on [undefined] it throws a TypeError. *)
Definition keysOf (o : option Row) : result (list jsstring) :=
  match o with
  | Some fields => Return (map fst fields)
  | None => Throw TypeError
  end.

(** The loop of [sameKeySet], from [i = 1] on. *)
Fixpoint sameKeys (keys0 : list jsstring) (rest : list (option Row))
  : result bool :=
  match rest with
  | [] => Return true
  | o :: rest' =>
      ki <- keysOf o ;;
      if negb (length ki =? length keys0)%nat then Return false
      else if negb (forallb (hasKey keys0) ki) then Return false
      else sameKeys keys0 rest'
  end.

Definition sameKeySet (objs : list (option Row))
  : result (bool * list jsstring) :=
  match objs with
  | [] => Return (true, [])
  | o0 :: rest =>
      keys0 <- keysOf o0 ;;
      ok <- sameKeys keys0 rest ;;
      Return (if ok then (true, keys0) else (false, []))
  end.

(** A row as a loop [for (const o of objRows)] reads it: a hole is
    [undefined], and [undefined[k]] throws a TypeError. *)
Definition row (o : option Row) : result Row :=
  match o with
  | Some fields => Return fields
  | None => Throw TypeError
  end.

(** One table row: [keys.map((k) => encodePrimitive(o[k], delimiter))]. *)
Definition rowCells (o : Row) (keys : list jsstring) (delimiter : jsstring)
  : list jsstring :=
  map (fun k => match lookup k o with
                | Some (NPrim p) => encodePrimitive p delimiter
                | _ => []
                end) keys.

(** The tabular attempt of [encodeArray], made when all elements are plain
    objects; [None] when control falls through to the list layout. *)
Definition encodeTabular (arr : list (option Norm)) (ctx : Ctx)
  (indentSize : Z) : result (option EncodedArray) :=
  let N := length arr in
  let objRows := asRows arr in
  sk <- sameKeySet objRows ;;
  if fst sk then
    let keys := snd sk in
    let primitiveValuesOnly :=
      forallb (fun o => match o with
                        | Some fields => forallb (isPrimitiveProp fields) keys
                        | None => true
                        end) objRows in
    if primitiveValuesOnly then
      rows <- mapM row objRows ;;
      let cellValues :=
        flat_map (fun o => map (fun k => lookup k o) keys) rows in
      let delimiter := chooseDelimiterForValues cellValues in
      let fields := join [COMMA] (map (fun k => encodeKey k [COMMA]) keys) in
      let header := js "[" ++ natToString N ++ js "]{" ++ fields ++ js "}" in
      rowIndent <- indentStr (indent ctx + 1) indentSize ;;
      let lines :=
        map (fun o => rowIndent ++ join delimiter (rowCells o keys delimiter))
            rows in
      Return (Some {| kind := KTabular; header := header;
                      body := join [LF] lines; delimiter := delimiter;
                      tabularFields := Some keys |})
    else Return None
  else Return None.

Definition reindentBlock (block : jsstring) (addIndentLevels : nat)
  (indentSize : Z) : result jsstring :=
  if negb (truthy block) then Return []
  else
    prefix <- indentStr addIndentLevels indentSize ;;
    Return (join [LF]
              (map (fun ln => if (0 <? length ln)%nat then prefix ++ ln
                              else ln)
                   (splitLines block))).

Section Calls.

(** The four functions that are recursive through each other, as a call
    one frame further down the stack reaches them. *)
Variable encodeArray : list (option Norm) -> Ctx -> Z -> result EncodedArray.
Variable encodeObjectField : jsstring -> Norm -> Ctx -> Z -> result jsstring.
Variable encodeObject : Row -> Ctx -> Z -> result jsstring.
Variable encodeListItem : option Norm -> Ctx -> Z -> result jsstring.

Definition encodeArrayBody (arr : list (option Norm)) (ctx : Ctx)
  (indentSize : Z) : result EncodedArray :=
  let N := length arr in
  let allPrimitives := every isPrimitive arr in
  if allPrimitives then
    let delimiter := chooseDelimiterForValues arr in
    let body :=
      join delimiter
        (map (fun x => match x with
                       | Some (NPrim p) => encodePrimitive p delimiter
                       | _ => []
                       end) arr) in
    Return {| kind := KInline; header := bracketed N; body := body;
              delimiter := delimiter; tabularFields := None |}
  else
    let allObjects := (0 <? length arr)%nat && every isPlainObject arr in
    table <- (if allObjects then encodeTabular arr ctx indentSize
              else Return None) ;;
    match table with
    | Some enc => Return enc
    | None =>
        let header := bracketed N in
        lines <- mapM (fun item =>
                         encodeListItem item {| indent := indent ctx + 1 |}
                           indentSize) arr ;;
        Return {| kind := KList; header := header; body := join [LF] lines;
                  delimiter := [COMMA]; tabularFields := None |}
    end.

Definition encodeObjectFieldBody (key : jsstring) (value : Norm) (ctx : Ctx)
  (indentSize : Z) : result jsstring :=
  ind <- indentStr (indent ctx) indentSize ;;
  let k := encodeKey key [COMMA] in
  match value with
  | NPrim p => Return (ind ++ k ++ js ": " ++ encodePrimitive p [COMMA])
  | NArray arr =>
      enc <- encodeArray arr ctx indentSize ;;
      Return
        match kind enc with
        | KInline => ind ++ k ++ header enc ++ js ": " ++ body enc
        | _ =>
            if truthy (body enc)
            then ind ++ k ++ header enc ++ [COLON; LF] ++ body enc
            else ind ++ k ++ header enc ++ [COLON]
        end
  | NObject _ obj =>
      let keys := map fst obj in
      if (length keys =? 0)%nat then Return (ind ++ k ++ [COLON])
      else
        body <- encodeObject obj {| indent := indent ctx + 1 |} indentSize ;;
        Return (if truthy body then ind ++ k ++ [COLON; LF] ++ body
                else ind ++ k ++ [COLON])
  end.

Definition encodeObjectBody (obj : Row) (ctx : Ctx) (indentSize : Z)
  : result jsstring :=
  lines <- mapM (fun kv =>
                   encodeObjectField (fst kv) (snd kv) ctx indentSize) obj ;;
  Return (join [LF] lines).

(** An item is [undefined] when the loop of [encodeArray] reads a hole;
    [Object.keys(undefined)] then throws a TypeError. *)
Definition encodeListItemBody (v : option Norm) (ctx : Ctx) (indentSize : Z)
  : result jsstring :=
  ind <- indentStr (indent ctx) indentSize ;;
  match v with
  | Some (NPrim p) => Return (ind ++ js "- " ++ encodePrimitive p [COMMA])
  | Some (NArray arr) =>
      enc <- encodeArray arr {| indent := indent ctx |} indentSize ;;
      Return
        match kind enc with
        | KInline => ind ++ js "- " ++ header enc ++ js ": " ++ body enc
        | _ =>
            if truthy (body enc)
            then ind ++ js "- " ++ header enc ++ [COLON; LF] ++ body enc
            else ind ++ js "- " ++ header enc ++ [COLON]
        end
  | None => Throw TypeError
  | Some (NObject _ []) => Return (ind ++ js "-")
  | Some (NObject _ ((firstKey, firstVal) :: others)) =>
      let firstKeyToken := encodeKey firstKey [COMMA] in
      first <-
        match firstVal with
        | NPrim p =>
            Return (ind ++ js "- " ++ firstKeyToken ++ js ": "
                      ++ encodePrimitive p [COMMA], [])
        | NArray arr =>
            enc <- encodeArray arr {| indent := indent ctx |} indentSize ;;
            match kind enc with
            | KInline =>
                Return (ind ++ js "- " ++ firstKeyToken ++ header enc
                          ++ js ": " ++ body enc, [])
            | k =>
                tail <-
                  (if truthy (body enc) then
                     match k with
                     | KTabular =>
                         block <- reindentBlock (body enc) 1 indentSize ;;
                         Return [block]
                     | _ => Return [body enc]
                     end
                   else Return []) ;;
                Return (ind ++ js "- " ++ firstKeyToken ++ header enc
                          ++ [COLON], tail)
            end
        | NObject _ firstObj =>
            nested <- encodeObject firstObj {| indent := indent ctx + 1 |}
                        indentSize ;;
            Return (ind ++ js "- " ++ firstKeyToken ++ [COLON],
                    if truthy nested then [nested] else [])
        end ;;
      more <- mapM (fun kv =>
                      encodeObjectField (fst kv) (snd kv)
                        {| indent := indent ctx + 1 |} indentSize) others ;;
      let tailLines := snd first ++ more in
      let rest :=
        join [LF] (filter (fun x => (0 <? length x)%nat) tailLines) in
      Return (if truthy rest then fst first ++ [LF] ++ rest else fst first)
  end.

End Calls.

(** [stack] is the room the call stack has for nested calls; the functions
    call each other one frame further down. *)
Fixpoint encodeArray (stack : nat) (arr : list (option Norm)) (ctx : Ctx)
  (indentSize : Z) {struct stack} : result EncodedArray :=
  encodeArrayBody
    (fun item c s =>
       match stack with
       | O => Throw StackExhausted
       | S room => encodeListItem room item c s
       end) arr ctx indentSize

with encodeObjectField (stack : nat) (key : jsstring) (value : Norm)
  (ctx : Ctx) (indentSize : Z) {struct stack} : result jsstring :=
  encodeObjectFieldBody
    (fun a c s =>
       match stack with
       | O => Throw StackExhausted
       | S room => encodeArray room a c s
       end)
    (fun o c s =>
       match stack with
       | O => Throw StackExhausted
       | S room => encodeObject room o c s
       end) key value ctx indentSize

with encodeObject (stack : nat) (obj : Row) (ctx : Ctx) (indentSize : Z)
  {struct stack} : result jsstring :=
  encodeObjectBody
    (fun k x c s =>
       match stack with
       | O => Throw StackExhausted
       | S room => encodeObjectField room k x c s
       end) obj ctx indentSize

with encodeListItem (stack : nat) (v : option Norm) (ctx : Ctx)
  (indentSize : Z) {struct stack} : result jsstring :=
  encodeListItemBody
    (fun a c s =>
       match stack with
       | O => Throw StackExhausted
       | S room => encodeArray room a c s
       end)
    (fun k x c s =>
       match stack with
       | O => Throw StackExhausted
       | S room => encodeObjectField room k x c s
       end)
    (fun o c s =>
       match stack with
       | O => Throw StackExhausted
       | S room => encodeObject room o c s
       end) v ctx indentSize.

End Run.

(* ================================================================= *)
(** ** The top-level driver *)

Definition isBlank (c : code_unit) : bool := ((c =? SPACE) || (c =? TAB))%N.

(** The positions [$] matches under the [m] flag: the end of the input and
    the places before a LineTerminator (LF, CR, LS, PS). *)
Definition isLineTerminator (c : code_unit) : bool :=
  ((c =? 10) || (c =? 13) || (c =? 8232) || (c =? 8233))%N.

Definition atLineEnd (s : jsstring) : bool :=
  match s with
  | [] => true
  | c :: _ => isLineTerminator c
  end.

(** [s.replace(/[ \t]+$/gm, "")]: every maximal run of blanks that reaches a
    line end is removed. *)
Fixpoint stripLineEnds (s : jsstring) : jsstring :=
  match s with
  | [] => []
  | c :: s' =>
      if isBlank c && atLineEnd (dropWhile isBlank s')
      then stripLineEnds s'
      else c :: stripLineEnds s'
  end.

Definition encodeToon (stack : nat) (input : Host) (opts : EncodeOpts)
  : result jsstring :=
  let indentSize := match indentSize opts with Some n => n | None => 2%Z end in
  let sanitizeJs := match sanitizeJs opts with Some b => b | None => false end in
  v <- normalize stack input sanitizeJs ;;
  out <-
    match v with
    | NPrim p => Return (encodePrimitive p [COMMA])
    | NArray arr =>
        enc <- Run.encodeArray stack arr {| indent := 0 |} indentSize ;;
        Return
          match kind enc with
          | KInline => header enc ++ js ": " ++ body enc
          | _ => header enc ++ [COLON; LF] ++ body enc
          end
    | NObject _ fields =>
        let keys := map fst fields in
        if (length keys =? 0)%nat then Return []
        else Run.encodeObject stack fields {| indent := 0 |} indentSize
    end ;;
  Return (stripLineEnds out ++ [LF]).

Definition defaultOpts : EncodeOpts :=
  {| sanitizeJs := None; indentSize := None |}.
Definition sanitizeOpts : EncodeOpts :=
  {| sanitizeJs := Some true; indentSize := None |}.

(** The numbers 1 and 2. *)
Definition one : Json := JPrim (PNumber (Finite false [1%N] 1)).
Definition two : Json := JPrim (PNumber (Finite false [2%N] 1)).


(* ================================================================= *)
(** ** Vocabulary of the specification

    The notions the specification's sentences use, stated independently of
    the functions above. *)

(** "optional sign, digits, optional fractional part, optional exponent",
    read as the pattern [[+-]?\d+(\.\d+)?([eE][+-]?\d+)?]. *)
Definition looseNumberPattern : regex :=
  Cat (Opt (Class isSignChar))
   (Cat (Plus Digit)
    (Cat (Opt (Cat (Chr DOT) (Plus Digit)))
         (Opt (Cat (Class isExpChar)
               (Cat (Opt (Class isSignChar)) (Plus Digit)))))).

(** "has leading or trailing whitespace" *)
Definition hasEdgeSpace (s : jsstring) : bool :=
  match s with
  | [] => false
  | c :: _ => isTrimSpace c || isTrimSpace (last s c)
  end.

(** The rewriting of one character inside quotes. *)
Definition escapeChar (c : code_unit) : jsstring :=
  if (c =? BACKSLASH)%N then [BACKSLASH; BACKSLASH]
  else if (c =? DQUOTE)%N then [BACKSLASH; DQUOTE]
  else if (c =? LF)%N then [BACKSLASH; LOWER_N]
  else if (c =? CR)%N then [BACKSLASH; LOWER_R]
  else if (c =? TAB)%N then [BACKSLASH; LOWER_T]
  else [c].

(** The conditions under which a string is quoted, for a numeric-literal
    pattern [numeric] and a one-character delimiter [d]. *)
Definition quotingCondition (numeric : regex) (s : jsstring) (d : code_unit)
  : Prop :=
  s = []
  \/ hasEdgeSpace s = true
  \/ (s = js "true" \/ s = js "false" \/ s = js "null")
  \/ Matches numeric s
  \/ (exists t, s = MINUS :: t)
  \/ (exists c, In c s /\ (c < 32)%N)
  \/ (In DQUOTE s \/ In BACKSLASH s)
  \/ In COLON s
  \/ In d s
  \/ (In COMMA s \/ In TAB s).

(** The digits of a finite non-zero number with the decimal point moved to
    its place: [0.d1...dk * 10^n] written without an exponent. *)
Definition shiftPoint (digits : list N) (n : Z) : jsstring :=
  let s := map digitChar digits in
  let k := Z.of_nat (length digits) in
  if (n <=? 0)%Z then js "0." ++ repeat ZERO (Z.to_nat (- n)) ++ s
  else if (k <=? n)%Z then s ++ repeat ZERO (Z.to_nat (n - k))
  else firstn (Z.to_nat n) s ++ [DOT] ++ skipn (Z.to_nat n) s.

Definition plainDecimal (x : number) : jsstring :=
  match x with
  | Finite negative digits n =>
      (if negative then [MINUS] else []) ++ shiftPoint digits n
  | Zero _ => js "0"
  | _ => js "null"
  end.

(** [m * 10^e] as a rational. *)
Definition scaled (m e : Z) : Q :=
  if (0 <=? e)%Z then inject_Z (m * 10 ^ e)
  else Qmake m (Z.to_pos (10 ^ (- e))).

(** The integer a digit string denotes. *)
Definition digitsValue (s : jsstring) : Z :=
  fold_left (fun acc c => (10 * acc + (Z.of_N c - 48))%Z) s 0%Z.

(** The value of a number: [0.d1...dk * 10^n = d1...dk * 10^(n-k)]. *)
Definition numberValue (x : number) : Q :=
  match x with
  | Finite negative digits n =>
      let v := scaled (digitsValue (map digitChar digits))
                      (n - Z.of_nat (length digits)) in
      if negative then Qopp v else v
  | _ => 0%Q
  end.

(** The value of a plain decimal text [-?\d+(\.\d+)?]. *)
Definition readUnsigned (s : jsstring) : option Q :=
  let int := takeWhile isDigit s in
  match int, dropWhile isDigit s with
  | _ :: _, [] => Some (scaled (digitsValue int) 0)
  | _ :: _, c :: frac =>
      if (c =? DOT)%N && negb (isEmpty frac) && forallb isDigit frac
      then Some (scaled (digitsValue (int ++ frac))
                        (- Z.of_nat (length frac)))
      else None
  | [], _ => None
  end.

Definition readDecimal (s : jsstring) : option Q :=
  match s with
  | c :: s' =>
      if (c =? MINUS)%N then option_map Qopp (readUnsigned s')
      else readUnsigned s
  | [] => None
  end.

(** No redundant zeros: a text with a decimal point ends in a digit other
    than 0, and the integer part has no leading zero besides a lone 0. *)
Definition noRedundantZeros (s : jsstring) : Prop :=
  (In DOT s -> isDigit (last s DOT) = true /\ last s DOT <> ZERO)
  /\ (forall c t, (s = ZERO :: c :: t \/ s = MINUS :: ZERO :: c :: t) ->
        c = DOT).

Definition isObject (v : Json) : Prop := exists fields, v = JObject fields.
Definition isPrim (v : Json) : Prop := exists p, v = JPrim p.

(** The keys of a mapping are pairwise distinct. *)
Definition uniqueKeys (o : Json) : Prop := NoDup (keysOf o).

(** "all mappings share an identical key set (same cardinality and same key
    names)", the keys being those of the first mapping. *)
Definition identicalKeySets (arr : list Json) : Prop :=
  forall o, In o arr ->
    length (keysOf o) = length (keysOf (hd (JObject []) arr))
    /\ (forall k, In k (keysOf o) <-> In k (keysOf (hd (JObject []) arr))).

(** "every value under every shared key is a primitive" *)
Definition primitiveCells (arr : list Json) : Prop :=
  forall o k, In o arr -> In k (keysOf (hd (JObject []) arr)) ->
    exists p, getProp o k = Some (JPrim p).

(** The conditions of the tabular layout. *)
Definition tabularCondition (arr : list Json) : Prop :=
  arr <> [] /\ Forall isObject arr /\ identicalKeySets arr
  /\ primitiveCells arr.

(** The mapping [o] has the value [v] under the key [k]. *)
Definition hasField (o : Json) (k : jsstring) (v : Json) : Prop :=
  match o with
  | JObject fields => In (k, v) fields
  | _ => False
  end.

(** The cells of the row of a mapping: the primitives the mapping has under
    the keys, in the order of the keys. *)
Definition cellsOf (keys : list jsstring) (o : Json)
  (cells : list Primitive) : Prop :=
  Forall2 (fun k p => hasField o k (JPrim p)) keys cells.



(** Nesting depth of a host value; a hole has none. *)
Fixpoint depth (v : Host) : nat :=
  match v with
  | HArray items =>
      S (fold_right (fun x m => match x with
                                | Some y => Nat.max (depth y) m
                                | None => m
                                end) 0 items)
  | HPlainObject props =>
      S (fold_right (fun kv m => Nat.max (depth (snd kv)) m) 0 props)
  | _ => 0
  end.

(** [n] arrays nested around [null]: [[[...null...]]]. *)
Fixpoint nested (n : nat) : Host :=
  match n with
  | O => HNull
  | S n' => HArray [Some (nested n')]
  end.



(** A text ends with one newline and no more. *)
Definition endsWithOneNewline (t : jsstring) : Prop :=
  exists text, t = text ++ [LF] /\ last text SPACE <> LF.

(** No line of a text ends in a space or a tab: no blank stands before a
    line terminator or at the end. *)
Definition noTrailingBlanks (t : jsstring) : Prop :=
  forall a c b, t = a ++ c :: b -> isBlank c = true -> atLineEnd b = false.

(* ================================================================= *)
(** ** Auxiliary definitions of the proofs *)

(** The four tests that guard the tabular layout. *)
Definition tabularTest (arr : list Json) : bool :=
  (0 <? length arr)%nat && forallb isPlainObject arr
  && fst (sameKeySet arr)
  && forallb (fun o => forallb (fun k => isPrimitiveProp o k)
                         (snd (sameKeySet arr))) arr.

(** The record [encodeArray] returns for a table. *)
Definition tabularResult (arr : list Json) (ctx : Ctx) (n : nat)
  : EncodedArray :=
  let keys := snd (sameKeySet arr) in
  let d := chooseDelimiterForValues (cellValuesOf arr keys) in
  {| kind := KTabular;
     header := js "[" ++ natToString (length arr) ++ js "]{"
               ++ join [COMMA] (map (fun k => encodeKey k [COMMA]) keys)
               ++ js "}";
     body := join [LF]
               (map (fun o => indentStr (indent ctx + 1) n
                              ++ join d (rowCells o keys d)) arr);
     delimiter := d; tabularFields := Some keys |}.

(** The arrays of the specification's examples:
    [[{id:1,name:"Ada"},{id:2,name:"Lin"}]] and [[{id:1},{id:1,extra:2}]]. *)
Definition users : list Json :=
  [JObject [(js "id", one); (js "name", JPrim (PString (js "Ada")))];
   JObject [(js "id", two); (js "name", JPrim (PString (js "Lin")))]].

Definition divergent : list Json :=
  [JObject [(js "id", one)]; JObject [(js "id", one); (js "extra", two)]].

Definition topLevel : Ctx := {| indent := 0 |}.


(** A canonical value as [normalize] returns it: no hole, every prototype
    in place. *)
Fixpoint ofJson (j : Json) : Norm :=
  match j with
  | JPrim p => NPrim p
  | JArray items => NArray (map (fun x => Some (ofJson x)) items)
  | JObject fields =>
      NObject true (map (fun kv => (fst kv, ofJson (snd kv))) fields)
  end.

(** Nesting depth of a canonical value. *)
Fixpoint height (j : Json) : nat :=
  match j with
  | JPrim _ => 0
  | JArray items => S (fold_right (fun x m => Nat.max (height x) m) 0 items)
  | JObject fields =>
      S (fold_right (fun kv m => Nat.max (height (snd kv)) m) 0 fields)
  end.

(** A call of [normalize], one frame further down the stack. *)
Definition call (stack : nat) (x : Host) (mode : bool) : result Norm :=
  match stack with
  | O => Throw StackExhausted
  | S room => normalize room x mode
  end.

(** What [normalize] does with one slot of an array and with one property
    of a plain object. *)
Definition element (stack : nat) (mode : bool) (slot : option Host)
  : result (option Norm) :=
  match slot with
  | None => Return None
  | Some x =>
      if mode && isUndefined x then Return (Some (NPrim PNull))
      else y <- call stack x mode ;; Return (Some y)
  end.

Definition property (stack : nat) (mode : bool) (kv : jsstring * Host)
  : result (option (jsstring * Norm)) :=
  if mode && isUndefined (snd kv) then Return None
  else v <- call stack (snd kv) mode ;; Return (Some (fst kv, v)).

(** The outcome of a run agrees with a value: the run returns that value
    or exhausts the stack, and it returns the value when the stack has
    room for [need] nested calls. *)
Definition agrees (A : Type) (stack need : nat) (run : result A) (x : A)
  : Prop :=
  (run = Return x \/ run = Throw StackExhausted)
  /\ (need <= stack -> run = Return x).

(** The mode [encodeToon] normalises in. *)
Definition modeOf (opts : EncodeOpts) : bool :=
  match sanitizeJs opts with
  | Some b => b
  | None => false
  end.

(** The text [encodeToon] builds from a canonical value before it strips
    the line ends. *)
Definition render (v : Json) (indentSize : nat) : jsstring :=
  match v with
  | JPrim p => encodePrimitive p [COMMA]
  | JArray arr =>
      let enc := encodeArray arr {| indent := 0 |} indentSize in
      match kind enc with
      | KInline => header enc ++ js ": " ++ body enc
      | _ => header enc ++ [COLON; LF] ++ body enc
      end
  | JObject fields =>
      if (length (map fst fields) =? 0)%nat then []
      else encodeObject fields {| indent := 0 |} indentSize
  end.

(** [opts.indentSize ?? 2] *)
Definition indentOf (opts : EncodeOpts) : Z :=
  match indentSize opts with
  | Some n => n
  | None => 2%Z
  end.

(** The text [encodeToon] builds from what [normalize] returned, before it
    strips the line ends. *)
Definition rendering (stack : nat) (v : Norm) (indentSize : Z)
  : result jsstring :=
  match v with
  | NPrim p => Return (encodePrimitive p [COMMA])
  | NArray arr =>
      enc <- Run.encodeArray stack arr {| indent := 0 |} indentSize ;;
      Return
        match kind enc with
        | KInline => header enc ++ js ": " ++ body enc
        | _ => header enc ++ [COLON; LF] ++ body enc
        end
  | NObject _ fields =>
      if (length (map fst fields) =? 0)%nat then Return []
      else Run.encodeObject stack fields {| indent := 0 |} indentSize
  end.


(** The sign [Number::toString] prints. *)
Definition signText (negative : bool) : jsstring :=
  if negative then [MINUS] else [].

(** The four formats of [Number::toString], on the digit characters. *)
Definition formatDigits (s : jsstring) (n : Z) : jsstring :=
  let k := Z.of_nat (length s) in
  (if (k <=? n) && (n <=? 21) then s ++ repeat ZERO (Z.to_nat (n - k))
   else if (0 <? n) && (n <=? 21) then
     firstn (Z.to_nat n) s ++ [DOT] ++ skipn (Z.to_nat n) s
   else if (-6 <? n) && (n <=? 0) then
     js "0." ++ repeat ZERO (Z.to_nat (- n)) ++ s
   else
     let e := n - 1 in
     let es := (if e <? 0 then [MINUS] else [PLUS]) ++ NToString (Z.abs_N e) in
     match s with
     | [] => []
     | [d] => [d; LOWER_E] ++ es
     | d :: rest => [d; DOT] ++ rest ++ [LOWER_E] ++ es
     end)%Z.

(** [encodeNumberCanonical] from [let s = String(n)] on. *)
Definition canonicalOfText (s : jsstring) : jsstring :=
  if negb (existsb isExpChar s) then
    if includes s [DOT] then dropFinalDot (stripFractionZeros s) else s
  else
    match matchExponential s with
    | None => s
    | Some (m1, m2, m3, m4) =>
        let sign := if Str.eqb m1 [MINUS] then [MINUS] else [] in
        let intPart := m2 in
        let fracPart := match m3 with Some f => f | None => [] end in
        let exp := parseInt m4 in
        let digits := intPart ++ fracPart in
        let pos := Z.of_nat (length intPart) in
        let newPos := (pos + exp)%Z in
        if (newPos <=? 0)%Z then
          let stripped := dropWhile isZeroChar digits in
          if (length stripped =? 0)%nat then js "0"
          else finishNumber sign
                 (js "0." ++ repeat ZERO (Z.to_nat (- newPos)) ++ stripped)
        else if (newPos >=? Z.of_nat (length digits))%Z then
          finishNumber sign
            (digits
             ++ repeat ZERO (Z.to_nat (newPos - Z.of_nat (length digits))))
        else
          finishNumber sign
            (firstn (Z.to_nat newPos) digits ++ [DOT]
             ++ skipn (Z.to_nat newPos) digits)
    end.

(** [shiftPoint] on the digit characters. *)
Definition shiftText (s : jsstring) (n : Z) : jsstring :=
  let k := Z.of_nat (length s) in
  if (n <=? 0)%Z then js "0." ++ repeat ZERO (Z.to_nat (- n)) ++ s
  else if (k <=? n)%Z then s ++ repeat ZERO (Z.to_nat (n - k))
  else firstn (Z.to_nat n) s ++ [DOT] ++ skipn (Z.to_nat n) s.

(** The last character of a text is a digit other than 0. *)
Definition endsInNonZeroDigit (s : jsstring) : bool :=
  match rev s with
  | c :: _ => isDigit c && negb (isZeroChar c)
  | [] => false
  end.

(** Digit characters as [Number::toString] has them: at least one, the
    first and the last not 0. *)
Definition cleanDigits (s : jsstring) : Prop :=
  forallb isDigit s = true
  /\ (exists c rest, s = c :: rest /\ isZeroChar c = false)
  /\ endsInNonZeroDigit s = true.

(** One step of [digitsValue]. *)
Definition digitStep (acc : Z) (c : code_unit) : Z :=
  (10 * acc + (Z.of_N c - 48))%Z.

(** A value sanitising normalisation cannot print: a [Date] whose time value
    is NaN, or an object [String] cannot convert, at the top or inside
    arrays and plain objects. *)
Inductive Unprintable : Host -> Prop :=
| UnprintableDate : Unprintable (HDate None)
| UnprintableObject e : Unprintable (HOtherObject (Throw e))
| UnprintableElement items x :
    In (Some x) items -> Unprintable x -> Unprintable (HArray items)
| UnprintableField props k x :
    In (k, x) props -> Unprintable x -> Unprintable (HPlainObject props).

(** The exceptions the conversions inside a value throw: the RangeError of
    [toISOString] on a [Date] whose time value is NaN, and whatever
    [String] throws on an object, at the top or inside arrays and plain
    objects. *)
Inductive Raises : Host -> exn -> Prop :=
| RaisesDate : Raises (HDate None) RangeError
| RaisesObject e : Raises (HOtherObject (Throw e)) e
| RaisesElement items x e :
    In (Some x) items -> Raises x e -> Raises (HArray items) e
| RaisesField props k x e :
    In (k, x) props -> Raises x e -> Raises (HPlainObject props) e.

(** What sanitising normalisation does with a value on a stack: it returns
    only when every conversion inside the value succeeds; what it throws is
    the exception of a conversion inside the value, or the error of the
    exhausted stack when the value is nested deeper than the stack has
    room. *)
Definition sanitizeOutcome (stack : nat) (v : Host) : Prop :=
  match normalize stack v true with
  | Return _ => ~ Unprintable v
  | Throw e => Raises v e \/ (e = StackExhausted /\ stack < depth v)
  end.

(* ================================================================= *)
(** ** Further vocabulary: canonical values *)

(** A canonical value is a host value: [Json] is a subtype of [unknown]. *)
Fixpoint toHost (j : Json) : Host :=
  match j with
  | JPrim PNull => HNull
  | JPrim (PBoolean b) => HBoolean b
  | JPrim (PNumber n) => HNumber n
  | JPrim (PString s) => HString s
  | JArray items => HArray (map (fun x => Some (toHost x)) items)
  | JObject fields =>
      HPlainObject (map (fun kv => (fst kv, toHost (snd kv))) fields)
  end.

(** Every number in the value is finite and is not negative zero. *)
Fixpoint finiteNumbers (v : Norm) : bool :=
  match v with
  | NPrim (PNumber n) => isFinite n && negb (isNegativeZero n)
  | NPrim _ => true
  | NArray items =>
      forallb (fun slot => match slot with
                           | Some x => finiteNumbers x
                           | None => true
                           end) items
  | NObject _ fields => forallb (fun kv => finiteNumbers (snd kv)) fields
  end.

(** No object of the value has a field named [__proto__]. *)
Fixpoint noProtoKey (j : Json) : bool :=
  match j with
  | JPrim _ => true
  | JArray items => forallb noProtoKey items
  | JObject fields =>
      forallb (fun kv => negb (isProtoKey (fst kv)) && noProtoKey (snd kv))
        fields
  end.

(** The fields [normalize] keeps: all of them in strict mode, those whose
    value is not [undefined] in sanitize mode. *)
Definition keptFields (mode : bool) (props : list (jsstring * Host))
  : list (jsstring * Host) :=
  filter (fun kv => negb (mode && isUndefined (snd kv))) props.

(** The entries of a list of optional entries. *)
Definition present (B : Type) (os : list (option B)) : list B :=
  flat_map (fun o => match o with Some y => [y] | None => [] end) os.

(* ================================================================= *)
(** ** Further vocabulary: tokens *)

(** Reading an escaped text back: a backslash and the character after it
    stand for one character. *)
Fixpoint unescape (s : jsstring) : jsstring :=
  match s with
  | [] => []
  | c :: rest =>
      if (c =? BACKSLASH)%N then
        match rest with
        | x :: rest' =>
            (if (x =? LOWER_N)%N then LF
             else if (x =? LOWER_R)%N then CR
             else if (x =? LOWER_T)%N then TAB
             else x) :: unescape rest'
        | [] => [c]
        end
      else c :: unescape rest
  end.

(** Reading a string token back: a token that starts with a double quote is
    unescaped between its quotes, any other token is the string itself. *)
Definition unquote (token : jsstring) : jsstring :=
  match token with
  | c :: rest =>
      if (c =? DQUOTE)%N then unescape (removelast rest) else token
  | [] => []
  end.

(** A primitive of a canonical value: its number, if it is one, is finite,
    is not negative zero and has digits as [Number::toString] has them. *)
Definition canonicalPrimitive (p : Primitive) : Prop :=
  match p with
  | PNumber n => isFinite n = true /\ isNegativeZero n = false /\ wf n
  | _ => True
  end.

(** The characters that end a token or a line when they stand outside
    quotes. *)
Definition isStructural (c : code_unit) : bool :=
  ((c <? 32) || (c =? DQUOTE) || (c =? BACKSLASH) || (c =? COLON)
   || (c =? COMMA))%N.

(** Reading the digits and the exponent back from the digits with the point
    moved: the inverse of [shiftText] on digits as [Number::toString] has
    them. *)
Definition readShift (t : jsstring) : jsstring * Z :=
  match t with
  | c :: d :: rest =>
      if isZeroChar c && (d =? DOT)%N then
        (dropWhile isZeroChar rest,
         (- Z.of_nat (length (takeWhile isZeroChar rest)))%Z)
      else if includes t [DOT] then
        (takeWhile isDigit t ++ tl (dropWhile isDigit t),
         Z.of_nat (length (takeWhile isDigit t)))
      else (dropZerosEnd t, Z.of_nat (length t))
  | _ => (dropZerosEnd t, Z.of_nat (length t))
  end.

(* ================================================================= *)
(** ** Further vocabulary: lines *)

(** What [reindentBlock] does with one line. *)
Definition reindentLine (prefix ln : jsstring) : jsstring :=
  if (0 <? length ln)%nat then prefix ++ ln else ln.

(** Every primitive of the value is canonical. *)
#[warnings="-register-all"]
Inductive WellFormed : Json -> Prop :=
| WfPrim p : canonicalPrimitive p -> WellFormed (JPrim p)
| WfArray items : Forall WellFormed items -> WellFormed (JArray items)
| WfObject fields :
    Forall (fun kv => WellFormed (snd kv)) fields ->
    WellFormed (JObject fields).

(** The lines of a text all begin with [k] spaces. *)
Definition indented (k : nat) (text : jsstring) : Prop :=
  Forall (fun ln => startsWith ln (repeat SPACE k) = true) (splitLines text).

(** The characters a pattern can consume. *)
Fixpoint alphabet (r : regex) (c : code_unit) : bool :=
  match r with
  | Void | Eps => false
  | Class p => p c
  | Cat a b | Alt a b => alphabet a c || alphabet b c
  | Star a => alphabet a c
  end.

(** The line terminators that are no control characters: LS and PS. *)
Definition isSeparator (c : code_unit) : bool :=
  ((c =? 8232) || (c =? 8233))%N.

(** The first line of a text begins with [first] and every further line
    begins with [k] spaces. *)
Definition hanging (first : jsstring) (k : nat) (text : jsstring) : Prop :=
  exists line rest,
    splitLines text = line :: rest
    /\ startsWith line first = true
    /\ Forall (fun ln => startsWith ln (repeat SPACE k) = true) rest.

(** The lines of an array encoding: the header and an inline body hold no
    line break, and every line of a tabular or list body begins with [k]
    spaces. *)
Definition arrayLines (enc : EncodedArray) (k : nat) : Prop :=
  ~ In LF (header enc)
  /\ (kind enc = KInline -> ~ In LF (body enc))
  /\ (kind enc <> KInline -> indented k (body enc)).

(* ================================================================= *)
(** ** Further vocabulary: rows *)

(** Reading a quoted token up to its closing quote: the text between the
    quotes, and what follows the closing quote. *)
Fixpoint scanQuoted (s : jsstring) : jsstring * jsstring :=
  match s with
  | [] => ([], [])
  | c :: rest =>
      if (c =? DQUOTE)%N then ([], rest)
      else if (c =? BACKSLASH)%N then
        match rest with
        | x :: rest' =>
            let (a, b) := scanQuoted rest' in (c :: x :: a, b)
        | [] => ([c], [])
        end
      else let (a, b) := scanQuoted rest in (c :: a, b)
  end.

(** Reading the first cell of a row: a cell that begins with a double quote
    ends at its closing quote, any other cell ends before the next
    delimiter. *)
Definition scanToken (d : code_unit) (s : jsstring) : jsstring * jsstring :=
  match s with
  | c :: rest =>
      if (c =? DQUOTE)%N then
        let (a, b) := scanQuoted rest in (quoted a, b)
      else (takeWhile (fun x => negb (x =? d)%N) s,
            dropWhile (fun x => negb (x =? d)%N) s)
  | [] => ([], [])
  end.

(** The two shapes of a token: quoted and escaped, or not empty and free of
    structural characters. *)
Definition isToken (t : jsstring) : Prop :=
  (exists s, t = quoted (flat_map escapeChar s))
  \/ (t <> [] /\ forall c, In c t -> isStructural c = false).

(** What follows a cell in a row: nothing, or a delimiter and more. *)
Definition afterCell (d : code_unit) (rest : jsstring) : Prop :=
  rest = [] \/ exists more, rest = d :: more.

(** The array [users] with the keys of its second row in the other
    order. *)
Definition reordered : list Json :=
  [JObject [(js "id", one); (js "name", JPrim (PString (js "Ada")))];
   JObject [(js "name", JPrim (PString (js "Lin"))); (js "id", two)]].

(** The errors the host raises on its own. *)
Definition isHostError (e : exn) : Prop :=
  e = RangeError \/ e = TypeError \/ e = StackExhausted.

(** A run that throws nothing but errors of the host. *)
Definition hostErrorsOnly (A : Type) (run : result A) : Prop :=
  match run with
  | Return _ => True
  | Throw e => isHostError e
  end.

(* ================================================================= *)
(** * Properties *)

(** ** Strings *)

Lemma eqb_eq (a b : jsstring) : Str.eqb a b = true <-> a = b.
Proof.
  revert b; induction a as [|x a IH]; intros [|y b]; simpl; split;
    try easy.
  - intros H. apply andb_true_iff in H as [Hx Hab].
    apply N.eqb_eq in Hx. apply IH in Hab. now subst.
  - intros H. injection H as -> ->. rewrite N.eqb_refl. now apply IH.
Qed.

Lemma eqb_refl (a : jsstring) : Str.eqb a a = true.
Proof. now apply eqb_eq. Qed.

Lemma startsWith_char (s : jsstring) (c : code_unit) :
  startsWith s [c] = true <-> exists t, s = c :: t.
Proof.
  destruct s as [|x t]; simpl.
  - split; [easy | intros [t' H]; discriminate].
  - rewrite andb_true_r, N.eqb_eq. split.
    + intros ->. now exists t.
    + intros [t' H]. now injection H.
Qed.

Lemma includes_char (s : jsstring) (c : code_unit) :
  includes s [c] = true <-> In c s.
Proof.
  induction s as [|x s IH].
  - simpl. split; [discriminate | easy].
  - change (includes (x :: s) [c])
      with (startsWith (x :: s) [c] || includes s [c]).
    rewrite orb_true_iff, IH. simpl. rewrite andb_true_r, N.eqb_eq.
    split; intros [H | H]; auto.
Qed.

Lemma includes_char_false (s : jsstring) (c : code_unit) :
  includes s [c] = false <-> ~ In c s.
Proof.
  rewrite <- includes_char. destruct (includes s [c]); split; easy.
Qed.

Lemma dropWhile_length (p : code_unit -> bool) (s : jsstring) :
  length (dropWhile p s) <= length s.
Proof.
  induction s as [|c s IH]; simpl; [lia|].
  destruct (p c); simpl; lia.
Qed.

(** [dropWhile] leaves a string alone exactly when its first character
    stays. *)
Lemma dropWhile_fixed (p : code_unit -> bool) (s : jsstring) :
  dropWhile p s = s <-> match s with [] => True | c :: _ => p c = false end.
Proof.
  destruct s as [|c s]; simpl; [easy|].
  destruct (p c) eqn:E; split; try easy.
  intros H. pose proof (dropWhile_length p s) as L.
  rewrite H in L. simpl in L. lia.
Qed.

Lemma dropWhile_same_length (p : code_unit -> bool) (s : jsstring) :
  length (dropWhile p s) = length s -> dropWhile p s = s.
Proof.
  destruct s as [|c s]; simpl; [easy|].
  destruct (p c); [|easy].
  intros H. pose proof (dropWhile_length p s). lia.
Qed.

Lemma hd_rev_last (s : jsstring) (c d : code_unit) :
  s <> [] -> hd d (rev s) = last s c.
Proof.
  intros Hs. destruct (exists_last Hs) as [t [x ->]].
  now rewrite rev_app_distr, last_last.
Qed.

(** [s !== s.trim()] says that [s] starts or ends with white space. *)
Lemma trim_changes (s : jsstring) :
  negb (Str.eqb s (trim s)) = hasEdgeSpace s.
Proof.
  destruct s as [|c s]; [reflexivity|].
  unfold hasEdgeSpace.
  destruct (isTrimSpace c) eqn:Ec; cbn [orb].
  - (* the first character goes *)
    destruct (Str.eqb (c :: s) (trim (c :: s))) eqn:E; [|reflexivity].
    apply eqb_eq in E. exfalso.
    assert (L : length (trim (c :: s)) <= length s).
    { unfold trim, trimEnd, trimStart. rewrite length_rev. simpl.
      rewrite Ec.
      etransitivity; [apply dropWhile_length|].
      rewrite length_rev. apply dropWhile_length. }
    rewrite <- E in L. simpl in L. lia.
  - (* the first character stays: the last one decides *)
    assert (T : trim (c :: s) = rev (dropWhile isTrimSpace (rev (c :: s)))).
    { unfold trim, trimEnd, trimStart. simpl dropWhile at 2.
      now rewrite Ec. }
    rewrite T.
    assert (Hl : hd c (rev (c :: s)) = last (c :: s) c)
      by (apply hd_rev_last; discriminate).
    assert (Hw : c :: s = rev (rev (c :: s))) by now rewrite rev_involutive.
    remember (rev (c :: s)) as w eqn:R. clear R T.
    destruct w as [|y r]; [discriminate|].
    cbn [hd] in Hl. rewrite <- Hl.
    cbn [dropWhile]. destruct (isTrimSpace y) eqn:Ey.
    + destruct (Str.eqb _ _) eqn:E; [|reflexivity].
      apply eqb_eq in E. exfalso.
      apply (f_equal (@length _)) in E, Hw.
      rewrite length_rev in E, Hw.
      pose proof (dropWhile_length isTrimSpace r). simpl in *. lia.
    + rewrite <- Hw, eqb_refl. reflexivity.
Qed.

Lemma replaceAll_app (c : code_unit) (r a b : jsstring) :
  replaceAll c r (a ++ b) = replaceAll c r a ++ replaceAll c r b.
Proof. unfold replaceAll. apply flat_map_app. Qed.

Lemma replaceAll_cons (c x : code_unit) (r s : jsstring) :
  replaceAll c r (x :: s)
  = (if (x =? c)%N then r else [x]) ++ replaceAll c r s.
Proof. reflexivity. Qed.

(** The five replacements of [escapeQuoted] act on each character
    separately: no replacement rewrites what an earlier one produced. *)
Lemma escapeQuoted_cons (x : code_unit) (s : jsstring) :
  escapeQuoted (x :: s) = escapeChar x ++ escapeQuoted s.
Proof.
  unfold escapeQuoted, escapeChar.
  rewrite (replaceAll_cons BACKSLASH).
  destruct (N.eqb_spec x BACKSLASH) as [->|Hb].
  { now rewrite !replaceAll_app. }
  destruct (N.eqb_spec x DQUOTE) as [->|Hq].
  { now rewrite !replaceAll_app. }
  destruct (N.eqb_spec x LF) as [->|Hn].
  { now rewrite !replaceAll_app. }
  destruct (N.eqb_spec x CR) as [->|Hr].
  { now rewrite !replaceAll_app. }
  destruct (N.eqb_spec x TAB) as [->|Ht].
  { now rewrite !replaceAll_app. }
  rewrite !replaceAll_app. f_equal.
  unfold replaceAll; simpl.
  apply N.eqb_neq in Hq, Hn, Hr, Ht.
  now rewrite Hq; simpl; rewrite Hn; simpl; rewrite Hr; simpl; rewrite Ht.
Qed.

Lemma escapeQuoted_chars (s : jsstring) :
  escapeQuoted s = flat_map escapeChar s.
Proof.
  induction s as [|x s IH]; [reflexivity|].
  rewrite escapeQuoted_cons, IH. reflexivity.
Qed.

(** ** The derivative matcher decides the language of a pattern *)

Ltac invert H := inversion H; subst; clear H.

Lemma nullable_Matches (r : regex) : nullable r = true <-> Matches r [].
Proof.
  induction r as [| |p|a IHa b IHb|a IHa b IHb|a IHa]; simpl.
  - split; [discriminate | inversion 1].
  - split; [constructor | reflexivity].
  - split; [discriminate | inversion 1].
  - rewrite andb_true_iff, IHa, IHb. split.
    + intros [Ha Hb]. now apply (MCat Ha Hb).
    + intros H. invert H.
      match goal with E : _ ++ _ = [] |- _ =>
        apply app_eq_nil in E as [-> ->] end.
      now split.
  - rewrite orb_true_iff, IHa, IHb. split.
    + intros [H | H]; [now apply MAltL | now apply MAltR].
    + intros H. invert H; auto.
  - split; [constructor | reflexivity].
Qed.

Lemma Matches_Star_cons (a : regex) (c : code_unit) (s : jsstring) :
  Matches (Star a) (c :: s) ->
  exists s1 s2, s = s1 ++ s2 /\ Matches a (c :: s1) /\ Matches (Star a) s2.
Proof.
  intros H. remember (Star a) as r eqn:Er. remember (c :: s) as w eqn:Ew.
  revert Er Ew.
  induction H as [| | | | | |a' u t Hu _ Ht IHt]; try discriminate.
  intros Er Ew. injection Er as ->.
  destruct u as [|x u]; simpl in Ew.
  - now apply IHt.
  - injection Ew as -> <-. now exists u, t.
Qed.

Lemma Matches_Cat_cons (a b : regex) (c : code_unit) (s : jsstring) :
  Matches (Cat a b) (c :: s) ->
  (exists u t, s = u ++ t /\ Matches a (c :: u) /\ Matches b t)
  \/ (Matches a [] /\ Matches b (c :: s)).
Proof.
  intros H. invert H.
  match goal with E : ?u ++ ?t = c :: s |- _ =>
    destruct u as [|x u]; simpl in E end.
  - right. subst. now split.
  - match goal with E : _ :: _ = _ :: _ |- _ => injection E as -> <- end.
    left. eauto.
Qed.

Lemma deriv_Matches (r : regex) (c : code_unit) (s : jsstring) :
  Matches (deriv c r) s <-> Matches r (c :: s).
Proof.
  revert s.
  induction r as [| |p|a IHa b IHb|a IHa b IHb|a IHa]; intros s; simpl.
  - split; inversion 1.
  - split; inversion 1.
  - destruct (p c) eqn:E; split; intros H.
    + invert H. now constructor.
    + invert H. constructor.
    + inversion H.
    + invert H. congruence.
  - assert (Cons : forall u t, Matches a (c :: u) -> Matches b t ->
                               Matches (Cat a b) (c :: u ++ t)).
    { intros u t Hu Ht. now apply (MCat (s := c :: u) Hu Ht). }
    destruct (nullable a) eqn:Na; split; intros H.
    + invert H.
      * match goal with H' : Matches (Cat _ _) _ |- _ => invert H' end.
        apply Cons; [now apply IHa | assumption].
      * apply nullable_Matches in Na.
        apply (MCat (s := []) Na). now apply IHb.
    + destruct (Matches_Cat_cons H) as [(u & t & -> & Hu & Ht) | [_ Hb]].
      * apply MAltL. apply MCat; [now apply IHa | exact Ht].
      * apply MAltR. now apply IHb.
    + invert H. apply Cons; [now apply IHa | assumption].
    + destruct (Matches_Cat_cons H) as [(u & t & -> & Hu & Ht) | [Ha _]].
      * apply MCat; [now apply IHa | exact Ht].
      * apply nullable_Matches in Ha. congruence.
  - split; intros H; invert H;
      solve [apply MAltL; now apply IHa | apply MAltR; now apply IHb].
  - split; intros H.
    + invert H.
      match goal with
        Hu : Matches (deriv c a) ?u, Ht : Matches (Star a) ?t |- _ =>
        apply IHa in Hu; exact (MStarCons (s := c :: u) Hu Ht)
      end.
    + apply Matches_Star_cons in H as (u & t & -> & Hu & Ht).
      apply MCat; [now apply IHa | exact Ht].
Qed.

Theorem test_Matches (r : regex) (s : jsstring) :
  test r s = true <-> Matches r s.
Proof.
  revert r; induction s as [|c s IH]; intros r; simpl.
  - apply nullable_Matches.
  - rewrite IH. apply deriv_Matches.
Qed.

(** ** Quoting of strings and keys *)

(** The chain of early returns of [needsQuotes], as one disjunction. *)
Lemma needsQuotes_tests (s delimiter : jsstring) :
  needsQuotes s delimiter
  = ((length s =? 0)%nat
     || (hasEdgeSpace s
     || ((Str.eqb s (js "true") || Str.eqb s (js "false")
          || Str.eqb s (js "null"))
     || (looksLikeNumber s
     || ((Str.eqb s (js "-") || startsWith s (js "-"))
     || (existsb (fun c => (c <? 32)%N) s
     || ((includes s [DQUOTE] || includes s [BACKSLASH])
     || (includes s [COLON]
     || (includes s delimiter
     || (includes s [COMMA] || includes s [TAB])))))))))).
Proof.
  unfold needsQuotes. rewrite trim_changes.
  repeat match goal with
         | |- (if ?b then true else _) = _ =>
             destruct b; cbn [orb]; [reflexivity|]
         end.
  reflexivity.
Qed.

Lemma length_zero (s : jsstring) : (length s =? 0)%nat = true <-> s = [].
Proof. destruct s; simpl; split; easy. Qed.

Lemma startsWith_minus (s : jsstring) :
  Str.eqb s (js "-") || startsWith s (js "-") = true
  <-> exists t, s = MINUS :: t.
Proof.
  change (js "-") with [MINUS].
  rewrite orb_true_iff, eqb_eq, startsWith_char. split.
  - intros [-> | H]; [now exists [] | exact H].
  - now right.
Qed.

Lemma control_character (s : jsstring) :
  existsb (fun c => (c <? 32)%N) s = true
  <-> exists c, In c s /\ (c < 32)%N.
Proof.
  rewrite existsb_exists. split; intros [c [Hin Hc]]; exists c; split;
    trivial; now apply N.ltb_lt.
Qed.

Lemma needsQuotes_condition (s : jsstring) (d : code_unit) :
  needsQuotes s [d] = true <-> quotingCondition numberPattern s d.
Proof.
  rewrite needsQuotes_tests. unfold quotingCondition, looksLikeNumber.
  rewrite !orb_true_iff, length_zero, !eqb_eq, test_Matches,
    control_character, !includes_char.
  rewrite <- startsWith_minus, orb_true_iff, eqb_eq.
  tauto.
Qed.

Lemma escapeChar_length (c : code_unit) : 1 <= length (escapeChar c).
Proof.
  unfold escapeChar.
  repeat match goal with |- context [if ?b then _ else _] => destruct b end;
    simpl; lia.
Qed.

Lemma escaped_length (s : jsstring) :
  length s <= length (flat_map escapeChar s).
Proof.
  induction s as [|c s IH]; simpl; [lia|].
  rewrite length_app. pose proof (escapeChar_length c). lia.
Qed.

Lemma quoted_differs (s : jsstring) : quoted (flat_map escapeChar s) <> s.
Proof.
  intros H. apply (f_equal (@length _)) in H. unfold quoted in H.
  simpl in H. rewrite length_app in H. simpl in H.
  pose proof (escaped_length s). lia.
Qed.

(** C1, as the specification words it, fails: read as "optional sign,
    digits, optional fractional part, optional exponent", the numeric
    pattern covers the string 007, which [encodeString] returns unquoted. *)
Lemma encodeString_loose_pattern_fails :
  quotingCondition looseNumberPattern (js "007") COMMA
  /\ encodeString (js "007") [COMMA] = js "007"
  /\ js "007" <> quoted (flat_map escapeChar (js "007")).
Proof.
  split; [|split].
  - unfold quotingCondition. do 3 right. left.
    apply test_Matches. reflexivity.
  - reflexivity.
  - discriminate.
Qed.

(** C1 (amended): [encodeString s d] is [s] wrapped in double quotes, with
    backslash, double quote, newline, carriage return and tab rewritten to
    two-character escapes and every other character verbatim, exactly when
    [s] is empty, starts or ends with white space, is true, false or null,
    matches the JSON number grammar (an optional minus sign; 0 or digits not
    starting with 0; an optional fraction; an optional exponent), starts
    with a minus sign, or contains a control character, a double
    quote, a backslash, a colon, the delimiter, a comma or a tab; otherwise
    it is [s] unchanged.  The three examples of the specification hold. *)
Theorem encodeString_quotes_exactly (s : jsstring) (d : code_unit) :
  (encodeString s [d] = quoted (flat_map escapeChar s)
   <-> quotingCondition numberPattern s d)
  /\ (encodeString s [d] = s <-> ~ quotingCondition numberPattern s d)
  /\ encodeString (js "true") [COMMA] = quoted (js "true")
  /\ encodeString (js "a,b") [COMMA] = quoted (js "a,b")
  /\ encodeString (js "hello") [COMMA] = js "hello".
Proof.
  assert (E : encodeString s [d]
              = if needsQuotes s [d] then quoted (flat_map escapeChar s)
                else s).
  { unfold encodeString. now rewrite escapeQuoted_chars. }
  pose proof (needsQuotes_condition s d) as C.
  pose proof (@quoted_differs s) as Q.
  rewrite E. destruct (needsQuotes s [d]).
  - assert (quotingCondition numberPattern s d) by now apply C.
    repeat split; trivial; try tauto.
  - assert (~ quotingCondition numberPattern s d).
    { intros H. apply C in H. discriminate. }
    repeat split; trivial; try tauto.
    intros H'. symmetry in H'. contradiction.
Qed.

(** Unfolding of the list-item renderer at a mapping with a first field. *)
Lemma encodeListItem_first_key (firstKey : jsstring) (firstVal : Json)
  (others : list (jsstring * Json)) (ctx : Ctx) (n : nat) :
  exists rest,
    encodeListItem (JObject ((firstKey, firstVal) :: others)) ctx n
    = indentStr (indent ctx) n ++ js "- " ++ encodeKey firstKey [COMMA]
      ++ rest.
Proof.
  cbn [encodeListItem].
  set (ind := indentStr (indent ctx) n).
  set (tok := encodeKey firstKey [COMMA]).
  assert (Line : forall (tail : jsstring) (more : list jsstring),
            exists rest,
              (let rest' :=
                 join [LF] (filter (fun x => (0 <? length x)%nat) more) in
               if truthy rest'
               then (ind ++ js "- " ++ tok ++ tail) ++ [LF] ++ rest'
               else ind ++ js "- " ++ tok ++ tail)
              = ind ++ js "- " ++ tok ++ rest).
  { intros tail more. cbv zeta. destruct (truthy _).
    - eexists. rewrite <- !app_assoc. reflexivity.
    - eexists. reflexivity. }
  destruct firstVal as [p|arr|obj].
  - apply Line.
  - destruct (kind _); apply Line.
  - apply Line.
Qed.

Lemma encodeObjectField_key (key : jsstring) (value : Json) (ctx : Ctx)
  (n : nat) :
  exists rest,
    encodeObjectField key value ctx n
    = indentStr (indent ctx) n ++ encodeKey key [COMMA] ++ rest.
Proof.
  destruct value as [p|arr|obj]; cbn [encodeObjectField].
  - eexists; reflexivity.
  - destruct (kind _); [|destruct (truthy _)..]; eexists; reflexivity.
  - destruct (_ =? _)%nat; [|destruct (truthy _)]; eexists; reflexivity.
Qed.

(** ** Array layouts *)

Lemma encodeArray_cases (arr : list Json) (ctx : Ctx) (n : nat) :
  encodeArray arr ctx n
  = if forallb isPrimitive arr then
      {| kind := KInline; header := bracketed (length arr);
         body := join (chooseDelimiterForValues arr)
                   (map (fun x => encodePrimitive x
                                    (chooseDelimiterForValues arr))
                        (asPrimitives arr));
         delimiter := chooseDelimiterForValues arr; tabularFields := None |}
    else
      match encodeTabular arr ctx n with
      | Some enc => enc
      | None =>
          {| kind := KList; header := bracketed (length arr);
             body := join [LF]
                       (map (fun item =>
                               encodeListItem item
                                 {| indent := indent ctx + 1 |} n) arr);
             delimiter := [COMMA]; tabularFields := None |}
      end.
Proof. reflexivity. Qed.

Lemma encodeTabular_cases (arr : list Json) (ctx : Ctx) (n : nat) :
  encodeTabular arr ctx n
  = if tabularTest arr then Some (tabularResult arr ctx n) else None.
Proof.
  unfold encodeTabular, tabularTest.
  destruct ((0 <? length arr)%nat && forallb isPlainObject arr);
    [|reflexivity].
  destruct (fst (sameKeySet arr)); [|reflexivity].
  cbn [andb]. destruct (forallb _ arr); reflexivity.
Qed.

Lemma objects_not_primitive (arr : list Json) :
  (0 <? length arr)%nat && forallb isPlainObject arr = true ->
  forallb isPrimitive arr = false.
Proof.
  destruct arr as [|[p|a|o] arr]; simpl; try discriminate. reflexivity.
Qed.

Lemma kind_inline (arr : list Json) (ctx : Ctx) (n : nat) :
  kind (encodeArray arr ctx n) = KInline <-> forallb isPrimitive arr = true.
Proof.
  rewrite encodeArray_cases, encodeTabular_cases.
  destruct (forallb isPrimitive arr); [easy|].
  destruct (tabularTest arr); simpl; split; discriminate.
Qed.

Lemma kind_tabular (arr : list Json) (ctx : Ctx) (n : nat) :
  kind (encodeArray arr ctx n) = KTabular <-> tabularTest arr = true.
Proof.
  rewrite encodeArray_cases, encodeTabular_cases.
  destruct (forallb isPrimitive arr) eqn:P.
  - simpl. split; [discriminate|]. intros T. unfold tabularTest in T.
    apply andb_true_iff in T as [T _]. apply andb_true_iff in T as [T _].
    apply objects_not_primitive in T. congruence.
  - destruct (tabularTest arr); simpl; split; easy.
Qed.

Lemma tabular_encoding (arr : list Json) (ctx : Ctx) (n : nat) :
  kind (encodeArray arr ctx n) = KTabular ->
  encodeArray arr ctx n = tabularResult arr ctx n.
Proof.
  intros K. pose proof K as T. apply kind_tabular in T.
  rewrite encodeArray_cases, encodeTabular_cases in *.
  destruct (forallb isPrimitive arr); [discriminate|].
  now rewrite T.
Qed.

Lemma forallb_isPrimitive (arr : list Json) :
  forallb isPrimitive arr = true <-> Forall isPrim arr.
Proof.
  rewrite forallb_forall, Forall_forall.
  split; intros H x Hx; specialize (H x Hx).
  - destruct x; try discriminate. now eexists.
  - now destruct H as [p ->].
Qed.

Lemma forallb_isPlainObject (arr : list Json) :
  forallb isPlainObject arr = true <-> Forall isObject arr.
Proof.
  rewrite forallb_forall, Forall_forall.
  split; intros H x Hx; specialize (H x Hx).
  - destruct x; try discriminate. now eexists.
  - now destruct H as [f ->].
Qed.

Lemma hasKey_In (keys : list jsstring) (k : jsstring) :
  hasKey keys k = true <-> In k keys.
Proof.
  unfold hasKey. rewrite existsb_exists. split.
  - intros [x [Hin E]]. apply eqb_eq in E. now subst.
  - intros Hin. exists k. split; [exact Hin | apply eqb_refl].
Qed.

Lemma isPrimitiveProp_Some (o : Json) (k : jsstring) :
  isPrimitiveProp o k = true <-> exists p, getProp o k = Some (JPrim p).
Proof.
  unfold isPrimitiveProp. destruct (getProp o k) as [[p|a|f]|]; simpl;
    split; try discriminate; try (intros [q Hq]; discriminate).
  - intros _. now exists p.
  - reflexivity.
Qed.

(** [sameKeySet] on a non-empty array: the keys are those of the first
    element. *)
Lemma sameKeySet_keys (arr : list Json) :
  fst (sameKeySet arr) = true ->
  arr <> [] ->
  snd (sameKeySet arr) = keysOf (hd (JObject []) arr).
Proof.
  destruct arr as [|o0 rest]; [easy|]. simpl.
  destruct (forallb _ rest); [reflexivity | discriminate].
Qed.

(** With pairwise distinct keys in each row, the test of [sameKeySet]
    (same number of keys, every key among those of the first row) is the
    equality of the key sets. *)
Lemma sameKeySet_identical (arr : list Json) :
  Forall uniqueKeys arr ->
  fst (sameKeySet arr) = true <-> identicalKeySets arr.
Proof.
  intros U. destruct arr as [|o0 rest].
  { split; [intros _ o [] | reflexivity]. }
  unfold identicalKeySets. cbn [hd sameKeySet].
  set (keys0 := keysOf o0).
  assert (R : fst (if forallb (fun oi =>
                        (length (keysOf oi) =? length keys0)%nat
                        && forallb (hasKey keys0) (keysOf oi)) rest
                   then (true, keys0) else (false, []))
              = forallb (fun oi =>
                        (length (keysOf oi) =? length keys0)%nat
                        && forallb (hasKey keys0) (keysOf oi)) rest).
  { now destruct (forallb _ rest). }
  rewrite R, forallb_forall. clear R.
  apply Forall_cons_iff in U as [_ U]. rewrite Forall_forall in U.
  split.
  - intros H o [<- | Ho]; [now split|].
    specialize (H o Ho). apply andb_true_iff in H as [L S].
    apply Nat.eqb_eq in L. rewrite forallb_forall in S.
    split; [exact L|]. intros k. split.
    + intros Hk. apply hasKey_In. now apply S.
    + revert k. apply (NoDup_length_incl (U o Ho)); [lia|].
      intros k Hk. apply hasKey_In. now apply S.
  - intros H o Ho. destruct (H o (or_intror Ho)) as [L S].
    apply andb_true_iff. split; [now apply Nat.eqb_eq|].
    apply forallb_forall. intros k Hk. apply hasKey_In. now apply S.
Qed.

Lemma tabularTest_condition (arr : list Json) :
  Forall uniqueKeys arr ->
  tabularTest arr = true <-> tabularCondition arr.
Proof.
  intros U. unfold tabularTest, tabularCondition.
  rewrite !andb_true_iff, forallb_isPlainObject, (sameKeySet_identical U).
  assert (N : (0 <? length arr)%nat = true <-> arr <> []).
  { destruct arr; simpl; split; easy. }
  rewrite N.
  assert (P : arr <> [] -> fst (sameKeySet arr) = true ->
              (forallb (fun o => forallb (fun k => isPrimitiveProp o k)
                                   (snd (sameKeySet arr))) arr = true
               <-> primitiveCells arr)).
  { intros Ne S. rewrite (sameKeySet_keys S Ne).
    unfold primitiveCells. rewrite forallb_forall. split.
    - intros H o k Ho Hk. specialize (H o Ho).
      rewrite forallb_forall in H. now apply isPrimitiveProp_Some, H.
    - intros H o Ho. apply forallb_forall. intros k Hk.
      now apply isPrimitiveProp_Some, H. }
  rewrite <- (sameKeySet_identical U).
  split.
  - intros [[[Ne O] S] C]. repeat split; trivial. now apply P.
  - intros (Ne & O & S & C). repeat split; trivial. now apply P.
Qed.

(** C3, as stated, fails: the empty array is given the inline layout, not
    the list layout. *)
Lemma empty_array_is_not_list :
  kind (encodeArray [] topLevel 2) = KInline /\ KInline <> KList.
Proof. split; [reflexivity | discriminate]. Qed.

(** C3 (amended): the inline layout is chosen exactly for the arrays whose
    elements are all primitives; the empty array is one of them and is
    encoded inline with header [0] and an empty body; the tabular layout is
    only chosen for non-empty arrays of mappings. *)
Theorem inline_layout (arr : list Json) (ctx : Ctx) (n : nat) :
  (kind (encodeArray arr ctx n) = KInline <-> Forall isPrim arr)
  /\ encodeArray [] ctx n
     = {| kind := KInline; header := js "[0]"; body := [];
          delimiter := [COMMA]; tabularFields := None |}
  /\ (kind (encodeArray arr ctx n) = KTabular ->
      arr <> [] /\ Forall isObject arr).
Proof.
  split; [|split].
  - rewrite kind_inline. apply forallb_isPrimitive.
  - reflexivity.
  - intros K. apply kind_tabular in K. unfold tabularTest in K.
    rewrite !andb_true_iff in K. destruct K as [[[Ne O] _] _].
    split; [|now apply forallb_isPlainObject].
    destruct arr; [discriminate | easy].
Qed.

Lemma lookup_field (k : jsstring) (fields : list (jsstring * Json))
  (v : Json) :
  lookup k fields = Some v -> In (k, v) fields.
Proof.
  induction fields as [|[k' x] fields IH]; [easy|]. cbn [lookup].
  destruct (Str.eqb k' k) eqn:E.
  - intros H. injection H as ->. apply eqb_eq in E as ->. now left.
  - intros H. right. now apply IH.
Qed.

(** The cells of a row whose values under the keys are all primitives. *)
Lemma cells_of_row (o : Json) (keys : list jsstring) (d : jsstring) :
  forallb (fun k => isPrimitiveProp o k) keys = true ->
  exists cells,
    cellsOf keys o cells
    /\ rowCells o keys d = map (fun p => encodePrimitive p d) cells.
Proof.
  unfold cellsOf. induction keys as [|k keys IH]; intros H.
  - exists []. split; [constructor | reflexivity].
  - cbn [forallb] in H. apply andb_true_iff in H as [Hk H].
    destruct (IH H) as (cells & C & R).
    apply isPrimitiveProp_Some in Hk as [p Hp].
    exists (p :: cells). split.
    + constructor; [|exact C].
      destruct o as [q|a|fields]; try discriminate.
      cbn [getProp] in Hp. now apply lookup_field.
    + unfold rowCells in *. cbn [map]. now rewrite Hp, R.
Qed.

Lemma cells_of_table (arr : list Json) (keys : list jsstring)
  (d lead : jsstring) :
  forallb (fun o => forallb (fun k => isPrimitiveProp o k) keys) arr = true ->
  exists rows,
    Forall2 (cellsOf keys) arr rows
    /\ map (fun o => lead ++ join d (rowCells o keys d)) arr
       = map (fun cells =>
                lead ++ join d (map (fun p => encodePrimitive p d) cells))
           rows.
Proof.
  induction arr as [|o arr IH]; intros H.
  - exists []. split; [constructor | reflexivity].
  - cbn [forallb] in H. apply andb_true_iff in H as [Ho H].
    destruct (IH H) as (rows & C & R).
    destruct (@cells_of_row o keys d Ho) as (cells & Co & Ro).
    exists (cells :: rows). split; [now constructor|].
    cbn [map]. now rewrite Ro, R.
Qed.

(** C4: on mappings with pairwise distinct keys, the tabular layout is
    chosen exactly when the array is non-empty, every element is a mapping,
    all mappings have the key set of the first one and every value under
    those keys is a primitive; the header is then [N]{k1,...,km} with the
    keys of the first mapping encoded with the comma as delimiter and joined
    by commas, and the body has one line per row, indented one level, made
    of the tokens of the primitives the mapping has under the keys, in the
    order of the keys, joined by the chosen delimiter.  The two examples of
    the specification hold. *)
Theorem tabular_layout (arr : list Json) (ctx : Ctx) (n : nat)
  (U : Forall uniqueKeys arr) :
  let enc := encodeArray arr ctx n in
  let keys := keysOf (hd (JObject []) arr) in
  (kind enc = KTabular <-> tabularCondition arr)
  /\ (kind enc = KTabular ->
      header enc
      = js "[" ++ natToString (length arr) ++ js "]{"
        ++ join [COMMA] (map (fun k => encodeString k [COMMA]) keys)
        ++ js "}"
      /\ (exists rows : list (list Primitive),
            Forall2 (cellsOf keys) arr rows
            /\ body enc
               = join [LF]
                   (map (fun cells =>
                           indentStr (indent ctx + 1) n
                           ++ join (delimiter enc)
                                (map (fun p =>
                                        encodePrimitive p (delimiter enc))
                                   cells)) rows))
      /\ tabularFields enc = Some keys)
  /\ (let users_enc := encodeArray users topLevel 2 in
      kind users_enc = KTabular
      /\ header users_enc = js "[2]{id,name}"
      /\ body users_enc = js "  1,Ada" ++ [LF] ++ js "  2,Lin")
  /\ kind (encodeArray divergent topLevel 2) = KList.
Proof.
  cbv zeta. split; [|split; [|split]].
  - rewrite kind_tabular. now apply tabularTest_condition.
  - intros K. rewrite (tabular_encoding _ _ _ K).
    apply kind_tabular in K. unfold tabularTest in K.
    rewrite !andb_true_iff in K. destruct K as [[[Ne _] S] Cells].
    assert (Ne' : arr <> []) by (destruct arr; [discriminate | easy]).
    unfold tabularResult. rewrite (sameKeySet_keys S Ne') in *.
    cbn [header body delimiter tabularFields].
    split; [reflexivity|]. split; [|reflexivity].
    destruct (@cells_of_table arr (keysOf (hd (JObject []) arr))
                (chooseDelimiterForValues
                   (cellValuesOf arr (keysOf (hd (JObject []) arr))))
                (indentStr (indent ctx + 1) n) Cells) as (rows & C & R).
    exists rows. split; [exact C|]. now rewrite R.
  - repeat split; reflexivity.
  - reflexivity.
Qed.

Lemma users_uniqueKeys : Forall uniqueKeys users.
Proof.
  repeat constructor; unfold uniqueKeys; simpl;
    repeat constructor; simpl; intuition discriminate.
Defined.

Lemma tabular_layout_witness :
  kind (encodeArray users topLevel 2) = KTabular <-> tabularCondition users.
Proof.
  exact (proj1 (tabular_layout topLevel 2 users_uniqueKeys)).
Defined.

(** The test of [chooseDelimiterForValues]. *)
Lemma chooseDelimiter_tab (values : list Json) :
  chooseDelimiterForValues values = [TAB]
  <-> exists s, In (JPrim (PString s)) values /\ In COMMA s.
Proof.
  unfold chooseDelimiterForValues.
  destruct (existsb _ values) eqn:E.
  - split; [intros _ | reflexivity].
    apply existsb_exists in E as [v [Hv Hs]].
    destruct v as [[| | |s]| |]; try discriminate.
    exists s. split; [exact Hv | now apply includes_char].
  - split; [discriminate|]. intros [s [Hv Hs]]. exfalso.
    assert (T : existsb (fun v => match v with
                                  | JPrim (PString s) => includes s [COMMA]
                                  | _ => false
                                  end) values = true).
    { apply existsb_exists. exists (JPrim (PString s)).
      split; [exact Hv | now apply includes_char]. }
    congruence.
Qed.

Lemma chooseDelimiter_either (values : list Json) :
  chooseDelimiterForValues values = [TAB]
  \/ chooseDelimiterForValues values = [COMMA].
Proof.
  unfold chooseDelimiterForValues. destruct (existsb _ values); auto.
Qed.

Lemma cellValuesOf_In (arr : list Json) (keys : list jsstring) (v : Json) :
  In v (cellValuesOf arr keys)
  <-> exists o k, In o arr /\ In k keys /\ getProp o k = Some v.
Proof.
  unfold cellValuesOf. rewrite in_flat_map. split.
  - intros [o [Ho H]]. apply in_flat_map in H as [k [Hk H]].
    exists o, k. destruct (getProp o k) as [w|]; [|easy].
    destruct H as [<- | []]. auto.
  - intros (o & k & Ho & Hk & E). exists o. split; [exact Ho|].
    apply in_flat_map. exists k. split; [exact Hk|].
    rewrite E. now left.
Qed.

(** C5: the delimiter of an inline array, and of a table, is the tab
    exactly when one of the string elements (of the string cell values)
    contains a comma, and the comma otherwise; nothing but strings is
    scanned. *)
Theorem delimiter_choice (arr : list Json) (ctx : Ctx) (n : nat) :
  let enc := encodeArray arr ctx n in
  let stringWithComma (values : list Json) :=
    exists s, In (JPrim (PString s)) values /\ In COMMA s in
  (kind enc = KInline ->
   (delimiter enc = [TAB] <-> stringWithComma arr)
   /\ (delimiter enc = [COMMA] <-> ~ stringWithComma arr))
  /\ (kind enc = KTabular ->
      let cells := cellValuesOf arr (keysOf (hd (JObject []) arr)) in
      (delimiter enc = [TAB] <-> stringWithComma cells)
      /\ (delimiter enc = [COMMA] <-> ~ stringWithComma cells)
      /\ (forall v, In v cells <->
            exists o k, In o arr /\ In k (keysOf (hd (JObject []) arr))
                        /\ getProp o k = Some v))
  /\ (forall values : list Json,
        (forall s, ~ In (JPrim (PString s)) values) ->
        chooseDelimiterForValues values = [COMMA]).
Proof.
  cbv zeta.
  assert (Both : forall values d,
            d = chooseDelimiterForValues values ->
            (d = [TAB] <->
             exists s, In (JPrim (PString s)) values /\ In COMMA s)
            /\ (d = [COMMA] <->
                ~ exists s, In (JPrim (PString s)) values /\ In COMMA s)).
  { intros values d ->. pose proof (chooseDelimiter_tab values) as T.
    split; [exact T|].
    destruct (chooseDelimiter_either values) as [E | E]; rewrite E in *.
    - split; [discriminate|]. intros H. exfalso. now apply H, T.
    - split; [|reflexivity]. intros _ H. apply T in H. discriminate. }
  split; [|split].
  - intros K. apply Both. apply kind_inline in K.
    rewrite encodeArray_cases, K. reflexivity.
  - intros K. rewrite (tabular_encoding _ _ _ K).
    apply kind_tabular in K. unfold tabularTest in K.
    rewrite !andb_true_iff in K. destruct K as [[[Ne _] S] _].
    assert (Ne' : arr <> []) by (destruct arr; [discriminate | easy]).
    unfold tabularResult. cbn [delimiter].
    rewrite (sameKeySet_keys S Ne').
    destruct (Both (cellValuesOf arr (keysOf (hd (JObject []) arr))) _
                eq_refl) as [T C].
    split; [exact T | split; [exact C|]].
    intros v. apply cellValuesOf_In.
  - intros values H.
    destruct (chooseDelimiter_either values) as [E | E]; [|exact E].
    apply chooseDelimiter_tab in E as [s [Hs _]]. now apply H in Hs.
Qed.

(** C10: every key token is [encodeString] of the key with the comma as
    delimiter: in object fields, in the first field of a list item and in
    the header of a table; so a key that meets a quoting condition appears
    quoted and escaped. *)
Theorem keys_are_encoded_as_strings (k : jsstring) :
  encodeKey k [COMMA] = encodeString k [COMMA]
  /\ (forall value ctx n, exists rest,
        encodeObjectField k value ctx n
        = indentStr (indent ctx) n ++ encodeString k [COMMA] ++ rest)
  /\ (forall value others ctx n, exists rest,
        encodeListItem (JObject ((k, value) :: others)) ctx n
        = indentStr (indent ctx) n ++ js "- " ++ encodeString k [COMMA]
          ++ rest)
  /\ (forall arr ctx n,
        kind (encodeArray arr ctx n) = KTabular ->
        header (encodeArray arr ctx n)
        = js "[" ++ natToString (length arr) ++ js "]{"
          ++ join [COMMA]
               (map (fun key => encodeString key [COMMA])
                    (keysOf (hd (JObject []) arr)))
          ++ js "}")
  /\ (quotingCondition numberPattern k COMMA ->
      encodeKey k [COMMA] = quoted (flat_map escapeChar k)).
Proof.
  split; [reflexivity|]. split; [|split; [|split]].
  - intros value ctx n. apply encodeObjectField_key.
  - intros value others ctx n. apply encodeListItem_first_key.
  - intros arr ctx n K. rewrite (tabular_encoding _ _ _ K).
    apply kind_tabular in K. unfold tabularTest in K.
    rewrite !andb_true_iff in K. destruct K as [[[Ne _] S] _].
    assert (Ne' : arr <> []) by (destruct arr; [discriminate | easy]).
    unfold tabularResult. now rewrite (sameKeySet_keys S Ne').
  - intros C. apply needsQuotes_condition in C.
    unfold encodeKey, encodeString. now rewrite C, escapeQuoted_chars.
Qed.

(** ** Normalisation *)

Lemma Json_induction (P : Json -> Prop) :
  (forall p, P (JPrim p)) ->
  (forall items, Forall P items -> P (JArray items)) ->
  (forall fields, Forall (fun kv => P (snd kv)) fields -> P (JObject fields)) ->
  forall j, P j.
Proof.
  intros Prim Arr Obj.
  fix IH 1. intros [p|items|fields].
  - apply Prim.
  - apply Arr. induction items as [|x items IHitems]; constructor.
    + apply IH.
    + exact IHitems.
  - apply Obj. induction fields as [|[k x] fields IHfields]; constructor.
    + apply IH.
    + exact IHfields.
Qed.

(** [mapM] returns exactly when every call returns. *)
Lemma mapM_Return (A B : Type) (f : A -> result B) (xs : list A)
  (ys : list B) :
  mapM f xs = Return ys <-> Forall2 (fun x y => f x = Return y) xs ys.
Proof.
  revert ys; induction xs as [|x xs IH]; intros ys; simpl.
  - split.
    + intros H. injection H as <-. constructor.
    + intros H. inversion H. reflexivity.
  - split.
    + destruct (f x) as [y|e] eqn:Fx; simpl; [|discriminate].
      destruct (mapM f xs) as [ys'|e] eqn:M; simpl; [|discriminate].
      intros H. injection H as <-. constructor; [exact Fx|].
      now apply IH.
    + intros H. inversion H as [|x' y xs' ys' Fx Rest]; subst.
      rewrite Fx. simpl. apply IH in Rest. rewrite Rest. reflexivity.
Qed.

Lemma mapM_Throw (A B : Type) (f : A -> result B) (xs : list A) (e : exn) :
  mapM f xs = Throw e -> exists x, In x xs /\ f x = Throw e.
Proof.
  induction xs as [|x xs IH]; simpl; [discriminate|].
  destruct (f x) as [y|e'] eqn:Fx; simpl.
  - destruct (mapM f xs) as [ys|e']; simpl; [discriminate|].
    intros H. injection H as ->. destruct (IH eq_refl) as [x' [Hin Hx]].
    exists x'. auto.
  - intros H. injection H as ->. exists x. auto.
Qed.

(** [filterMapM] returns the entries of the calls that returned one. *)
Lemma filterMapM_Return (A B : Type) (f : A -> result (option B))
  (xs : list A) (ys : list B) :
  filterMapM f xs = Return ys
  <-> exists os, Forall2 (fun x o => f x = Return o) xs os
                 /\ ys = present os.
Proof.
  revert ys; induction xs as [|x xs IH]; intros ys; simpl.
  - split.
    + intros H. injection H as <-. exists []. split; [constructor | reflexivity].
    + intros (os & H & ->). inversion H. reflexivity.
  - split.
    + destruct (f x) as [o|e] eqn:Fx; simpl; [|discriminate].
      destruct (filterMapM f xs) as [ys'|e] eqn:M; simpl; [|discriminate].
      intros H. injection H as <-.
      destruct (proj1 (IH ys') eq_refl) as (os & Hos & ->).
      exists (o :: os). split; [now constructor|].
      now destruct o.
    + intros (os & H & ->).
      inversion H as [|x' o xs' os' Fx Rest]; subst.
      rewrite Fx. simpl.
      assert (M : filterMapM f xs = Return (present os')).
      { apply IH. now exists os'. }
      rewrite M. simpl. now destruct o.
Qed.

Lemma filterMapM_Throw (A B : Type) (f : A -> result (option B))
  (xs : list A) (e : exn) :
  filterMapM f xs = Throw e -> exists x, In x xs /\ f x = Throw e.
Proof.
  induction xs as [|x xs IH]; simpl; [discriminate|].
  destruct (f x) as [y|e'] eqn:Fx; simpl.
  - destruct (filterMapM f xs) as [ys|e']; simpl; [discriminate|].
    intros H. injection H as ->. destruct (IH eq_refl) as [x' [Hin Hx]].
    exists x'. auto.
  - intros H. injection H as ->. exists x. auto.
Qed.

Lemma mapM_ext (A B : Type) (f g : A -> result B) (xs : list A) :
  (forall x, f x = g x) -> mapM f xs = mapM g xs.
Proof.
  intros E. induction xs as [|x xs IH]; simpl; [reflexivity|].
  now rewrite E, IH.
Qed.

Lemma Forall2_In_l (A B : Type) (R : A -> B -> Prop) (xs : list A)
  (ys : list B) (x : A) :
  Forall2 R xs ys -> In x xs -> exists y, In y ys /\ R x y.
Proof.
  induction 1 as [|a b xs ys Hab _ IH]; [easy|].
  intros [<- | Hin].
  - exists b. split; [now left | exact Hab].
  - destruct (IH Hin) as (y & Hy & Hr). exists y. split; [now right | exact Hr].
Qed.

(** The two traversals of [normalize], unfolded. *)
Lemma normalize_array (stack : nat) (items : list (option Host))
  (mode : bool) :
  normalize stack (HArray items) mode
  = (out <- mapM (element stack mode) items ;; Return (NArray out)).
Proof.
  destruct stack, mode; cbn [normalize negb]; cbv iota;
    (erewrite mapM_ext; [reflexivity|]); intros [x|]; reflexivity.
Qed.

Lemma normalize_object (stack : nat) (props : list (jsstring * Host))
  (mode : bool) :
  normalize stack (HPlainObject props) mode
  = (pairs <- filterMapM (property stack mode) props ;;
     Return (objectOf pairs)).
Proof.
  assert (Strict : forall f : Host -> result Norm,
            mapM (fun kv => v <- f (snd kv) ;; Return (fst kv, v)) props
            = filterMapM (fun kv => v <- f (snd kv) ;;
                                    Return (Some (fst kv, v))) props).
  { intros f. induction props as [|kv props IH]; [reflexivity|].
    cbn [mapM filterMapM]. rewrite IH.
    destruct (f (snd kv)); simpl; [|reflexivity].
    destruct (filterMapM _ props); reflexivity. }
  destruct mode; [destruct stack; reflexivity|].
  transitivity
    (pairs <- mapM (fun kv => v <- call stack (snd kv) false ;;
                              Return (fst kv, v)) props ;;
     Return (objectOf pairs)); [destruct stack; reflexivity|].
  pose proof (Strict (fun x => call stack x false)) as S. cbv beta in S.
  rewrite S. reflexivity.
Qed.

(** A value that is neither an array nor a plain object needs no room on
    the stack. *)
Lemma normalize_leaf (stack : nat) (v : Host) (mode : bool) :
  depth v = 0 -> normalize stack v mode = normalize 0 v mode.
Proof. destruct stack, v; try discriminate; reflexivity. Qed.

Lemma depth_element (items : list (option Host)) (x : Host) :
  In (Some x) items -> depth x < depth (HArray items).
Proof.
  intros H. cbn [depth]. apply Nat.lt_succ_r.
  induction items as [|[y|] items IH]; [easy| |].
  - destruct H as [E | H]; simpl.
    + injection E as ->. apply Nat.le_max_l.
    + etransitivity; [now apply IH | apply Nat.le_max_r].
  - destruct H as [E | H]; [discriminate | now apply IH].
Qed.

Lemma depth_field (props : list (jsstring * Host)) (k : jsstring)
  (x : Host) :
  In (k, x) props -> depth x < depth (HPlainObject props).
Proof.
  intros H. cbn [depth]. apply Nat.lt_succ_r.
  induction props as [|[k' y] props IH]; [easy|].
  destruct H as [E | H]; simpl.
  - injection E as _ ->. apply Nat.le_max_l.
  - etransitivity; [now apply IH | apply Nat.le_max_r].
Qed.

(** The fields of the object a loop of assignments builds: those of the
    assignments whose key is not [__proto__], in their order. *)
Lemma objectOf_fields (pairs : list (jsstring * Norm)) :
  exists plain,
    objectOf pairs
    = NObject plain (filter (fun kv => negb (isProtoKey (fst kv))) pairs).
Proof.
  unfold objectOf.
  assert (G : forall out,
            snd (fold_left (fun out kv => assign out (fst kv) (snd kv))
                   pairs out)
            = snd out
              ++ filter (fun kv => negb (isProtoKey (fst kv))) pairs).
  { induction pairs as [|[k v] pairs IH]; intros out.
    - simpl. now rewrite app_nil_r.
    - cbn [fold_left filter fst snd]. rewrite IH. unfold assign.
      destruct (isProtoKey k); cbn [negb].
      + now destruct v as [[| | |]| |].
      + cbn [snd]. now rewrite <- app_assoc. }
  eexists. f_equal. apply (G (true, [])).
Qed.

(** An object without a key [__proto__] keeps its prototype. *)
Lemma objectOf_plain (pairs : list (jsstring * Norm)) :
  Forall (fun kv => isProtoKey (fst kv) = false) pairs ->
  objectOf pairs = NObject true pairs.
Proof.
  unfold objectOf. intros H.
  assert (G : forall out,
            fold_left (fun out kv => assign out (fst kv) (snd kv)) pairs out
            = (fst out, snd out ++ pairs)).
  { induction H as [|[k v] pairs Hk _ IH]; intros out.
    - simpl. rewrite app_nil_r. now destruct out.
    - cbn [fold_left fst snd] in *. rewrite IH. unfold assign.
      rewrite Hk. cbn [fst snd]. now rewrite <- app_assoc. }
  now rewrite G.
Qed.

Lemma encodeToon_cases (stack : nat) (input : Host) (opts : EncodeOpts) :
  encodeToon stack input opts
  = (v <- normalize stack input (modeOf opts) ;;
     text <- rendering stack v (indentOf opts) ;;
     Return (stripLineEnds text ++ [LF])).
Proof. reflexivity. Qed.

(** *** Strict mode *)




(** *** The renderer throws errors of the host only *)

Lemma hostErrorsOnly_bind (A B : Type) (m : result A) (k : A -> result B) :
  hostErrorsOnly m -> (forall a, hostErrorsOnly (k a)) ->
  hostErrorsOnly (x <- m ;; k x).
Proof. destruct m as [a|e]; simpl; auto. Qed.

Lemma hostErrorsOnly_mapM (A B : Type) (f : A -> result B) (xs : list A) :
  (forall x, hostErrorsOnly (f x)) -> hostErrorsOnly (mapM f xs).
Proof.
  intros H. induction xs as [|x xs IH]; simpl; [exact I|].
  apply hostErrorsOnly_bind; [apply H|]. intros y.
  apply hostErrorsOnly_bind; [exact IH|]. intros ys. exact I.
Qed.

Lemma indentStr_throws (level : nat) (size : Z) :
  hostErrorsOnly (Run.indentStr level size).
Proof.
  unfold Run.indentStr. destruct (_ <? 0)%Z; simpl; [now left | exact I].
Qed.

Lemma sameKeySet_throws (objs : list (option Run.Row)) :
  hostErrorsOnly (Run.sameKeySet objs).
Proof.
  assert (K : forall o, hostErrorsOnly (Run.keysOf o)).
  { intros [fields|]; simpl; [exact I | right; now left]. }
  assert (L : forall keys0 rest, hostErrorsOnly (Run.sameKeys keys0 rest)).
  { intros keys0 rest. induction rest as [|o rest IH]; simpl; [exact I|].
    apply hostErrorsOnly_bind; [apply K|]. intros ki.
    destruct (negb _); [exact I|]. destruct (negb _); [exact I | exact IH]. }
  destruct objs as [|o0 rest]; simpl; [exact I|].
  apply hostErrorsOnly_bind; [apply K|]. intros keys0.
  apply hostErrorsOnly_bind; [apply L|]. intros ok. exact I.
Qed.

Lemma encodeTabular_throws (arr : list (option Norm)) (ctx : Ctx) (size : Z) :
  hostErrorsOnly (Run.encodeTabular arr ctx size).
Proof.
  unfold Run.encodeTabular.
  apply hostErrorsOnly_bind; [apply sameKeySet_throws|]. intros sk.
  destruct (fst sk); [|exact I]. destruct (forallb _ _); [|exact I].
  apply hostErrorsOnly_bind.
  { apply hostErrorsOnly_mapM. intros [fields|]; simpl;
      [exact I | right; now left]. }
  intros rows. apply hostErrorsOnly_bind; [apply indentStr_throws|].
  intros rowIndent. exact I.
Qed.

Lemma reindentBlock_throws (block : jsstring) (k : nat) (size : Z) :
  hostErrorsOnly (Run.reindentBlock block k size).
Proof.
  unfold Run.reindentBlock. destruct (negb _); [exact I|].
  apply hostErrorsOnly_bind; [apply indentStr_throws|]. intros p. exact I.
Qed.

Ltac host_errors :=
  repeat first
    [ exact I
    | apply indentStr_throws
    | apply encodeTabular_throws
    | apply reindentBlock_throws
    | (apply hostErrorsOnly_bind; [|intros ?])
    | (apply hostErrorsOnly_mapM; intros ?)
    | (simpl; right; left; reflexivity)
    | assumption
    | match goal with
      | H : forall _, _ |- hostErrorsOnly _ => apply H
      | |- hostErrorsOnly (match ?x with _ => _ end) => destruct x
      | |- hostErrorsOnly (if ?x then _ else _) => destruct x
      end ].





(** *** Sanitize mode *)

Lemma Raises_Unprintable (v : Host) (e : exn) : Raises v e -> Unprintable v.
Proof.
  induction 1; [constructor | constructor | |].
  - eapply UnprintableElement; eassumption.
  - eapply UnprintableField; eassumption.
Qed.

(** One step of sanitising normalisation, given what the calls one frame
    further down do. *)
Lemma sanitize_step (stack : nat) :
  (forall x,
     match call stack x true with
     | Return _ => ~ Unprintable x
     | Throw e => Raises x e \/ (e = StackExhausted /\ stack <= depth x)
     end) ->
  forall v, sanitizeOutcome stack v.
Proof.
  intros C v. unfold sanitizeOutcome.
  destruct v as [| |b|n|s|z| | |[iso|]|items|props|[str|e]];
    try (rewrite normalize_leaf by reflexivity; cbn [normalize negb];
         cbv iota; cbn [toISOString bind];
         first [ intros H; now inversion H | left; constructor ]).
  - rewrite normalize_leaf by reflexivity. cbn [normalize negb]. cbv iota.
    destruct (isFinite n); cbn [negb]; intros H; inversion H.
  - rewrite normalize_array.
    destruct (mapM (element stack true) items) as [out|e] eqn:M;
      cbn [bind].
    + apply mapM_Return in M.
      intros H. inversion H as [| |items' x Hin Hx|]; subst.
      destruct (@Forall2_In_l _ _ _ _ _ _ M Hin) as (y & _ & E).
      cbn in E. destruct (isUndefined x) eqn:U.
      * destruct x; try discriminate. inversion Hx.
      * specialize (C x). destruct (call stack x true); [|discriminate].
        now apply C.
    + apply mapM_Throw in M as ([x|] & Hin & E); cbn in E; [|discriminate].
      destruct (isUndefined x); [discriminate|].
      specialize (C x). destruct (call stack x true) as [r|e'];
        [discriminate|]. cbn in E. injection E as ->.
      pose proof (@depth_element items x Hin) as D.
      destruct C as [R | [-> L]].
      * left. eapply RaisesElement; eassumption.
      * right. split; [reflexivity | lia].
  - rewrite normalize_object.
    destruct (filterMapM (property stack true) props) as [pairs|e] eqn:M;
      cbn [bind].
    + apply filterMapM_Return in M as (os & M & ->).
      intros H. inversion H as [| | |props' k x Hin Hx]; subst.
      destruct (@Forall2_In_l _ _ _ _ _ _ M Hin) as (y & _ & E).
      unfold property in E. cbn in E. destruct (isUndefined x) eqn:U.
      * destruct x; try discriminate. inversion Hx.
      * specialize (C x). destruct (call stack x true); [|discriminate].
        now apply C.
    + apply filterMapM_Throw in M as ([k x] & Hin & E).
      unfold property in E. cbn in E.
      destruct (isUndefined x); [discriminate|].
      specialize (C x). destruct (call stack x true) as [r|e'];
        [discriminate|]. cbn in E. injection E as ->.
      pose proof (@depth_field props k x Hin) as D.
      destruct C as [R | [-> L]].
      * left. eapply RaisesField; eassumption.
      * right. split; [reflexivity | lia].
Qed.

Lemma sanitize_outcome (stack : nat) (v : Host) : sanitizeOutcome stack v.
Proof.
  revert v. induction stack as [|room IH]; apply sanitize_step; intros x.
  - cbn [call]. right. split; [reflexivity | lia].
  - cbn [call]. specialize (IH x). unfold sanitizeOutcome in IH.
    destruct (normalize room x true) as [r|e]; [exact IH|].
    destruct IH as [R | [-> L]]; [now left | right; split; [reflexivity | lia]].
Qed.

(** Undefined elements become null, undefined fields are left out. *)
Lemma sanitize_undefined (stack : nat) (items : list (option Host))
  (props : list (jsstring * Host)) (k : jsstring) :
  normalize stack (HArray (Some HUndefined :: items)) true
  = (out <- normalize stack (HArray items) true ;;
     match out with
     | NArray rest => Return (NArray (Some (NPrim PNull) :: rest))
     | other => Return other
     end)
  /\ normalize stack (HPlainObject ((k, HUndefined) :: props)) true
     = normalize stack (HPlainObject props) true.
Proof.
  split.
  - rewrite !normalize_array. cbn [mapM element isUndefined andb bind].
    destruct (mapM _ items); reflexivity.
  - rewrite !normalize_object.
    cbn [filterMapM property isUndefined andb snd bind].
    destruct (filterMapM _ props); reflexivity.
Qed.

(** C7, at the failing input: sanitising an invalid [Date] throws the
    RangeError of [toISOString], alone or inside an object or an array. *)
Theorem sanitize_throws_on_invalid_date :
  (forall stack, normalize stack (HDate None) true = Throw RangeError)
  /\ (forall stack, encodeToon stack (HDate None) sanitizeOpts
                    = Throw RangeError)
  /\ (forall stack,
        encodeToon (S stack) (HPlainObject [(js "when", HDate None)])
          sanitizeOpts
        = Throw RangeError)
  /\ (forall stack,
        encodeToon (S stack) (HArray [Some (HDate None)]) sanitizeOpts
        = Throw RangeError).
Proof.
  repeat split; intros stack; destruct stack; reflexivity.
Qed.

(** ** The renderer on canonical values *)

(** On a canonical value and a natural indent size, the renderer as the
    program runs it yields what the renderer as a function yields, when
    the stack has room. *)

Lemma agrees_Return (A : Type) (stack need : nat) (x : A) :
  agrees stack need (Return x) x.
Proof. split; auto. Qed.

Lemma agrees_bind (A B : Type) (stack need : nat) (m : result A) (a : A)
  (k : A -> result B) (b : B) :
  agrees stack need m a -> agrees stack need (k a) b ->
  agrees stack need (x <- m ;; k x) b.
Proof.
  intros [[-> | ->] Hm] Hk; cbn [bind]; [exact Hk|].
  split; [now right|]. intros L. now specialize (Hm L).
Qed.

Lemma agrees_mapM (A B C : Type) (stack need : nat) (f : A -> result B)
  (g : C -> B) (h : C -> A) (xs : list C) :
  Forall (fun x => agrees stack need (f (h x)) (g x)) xs ->
  agrees stack need (mapM f (map h xs)) (map g xs).
Proof.
  induction 1 as [|x xs Hx _ IH]; cbn [map mapM]; [apply agrees_Return|].
  eapply agrees_bind; [exact Hx|].
  eapply agrees_bind; [exact IH|]. apply agrees_Return.
Qed.

Lemma agrees_call (A : Type) (stack need : nat) (run : nat -> result A)
  (x : A) :
  (forall room, agrees room need (run room) x) ->
  agrees stack (S need)
    (match stack with
     | O => Throw StackExhausted
     | S room => run room
     end) x.
Proof.
  intros H. destruct stack as [|room].
  - split; [now right | lia].
  - destruct (H room) as [D R]. split; [exact D|]. intros L. apply R. lia.
Qed.

Lemma agrees_weaken (A : Type) (stack need need' : nat) (run : result A)
  (x : A) :
  need <= need' -> agrees stack need run x -> agrees stack need' run x.
Proof.
  intros L [D R]. split; [exact D|]. intros L'. apply R. lia.
Qed.

Lemma agrees_eq (A : Type) (stack need : nat) (run : result A) (x y : A) :
  x = y -> agrees stack need run x -> agrees stack need run y.
Proof. now intros ->. Qed.

Lemma indentStr_natural (level n : nat) :
  Run.indentStr level (Z.of_nat n) = Return (indentStr level n).
Proof.
  unfold Run.indentStr, indentStr.
  replace (Z.of_nat level * Z.of_nat n)%Z with (Z.of_nat (level * n)) by lia.
  destruct (Z.ltb_spec (Z.of_nat (level * n)) 0); [lia|].
  now rewrite Nat2Z.id.
Qed.

Lemma reindentBlock_natural (block : jsstring) (k n : nat) :
  Run.reindentBlock block k (Z.of_nat n) = Return (reindentBlock block k n).
Proof.
  unfold Run.reindentBlock, reindentBlock.
  destruct (negb (truthy block)); [reflexivity|].
  now rewrite indentStr_natural.
Qed.

Lemma every_isPrimitive (arr : list Json) :
  Run.every Run.isPrimitive (map (fun x => Some (ofJson x)) arr)
  = forallb isPrimitive arr.
Proof.
  unfold Run.every. induction arr as [|x arr IH]; [reflexivity|].
  cbn [map forallb]. rewrite IH. now destruct x.
Qed.

Lemma every_isPlainObject (arr : list Json) :
  Run.every Run.isPlainObject (map (fun x => Some (ofJson x)) arr)
  = forallb isPlainObject arr.
Proof.
  unfold Run.every. induction arr as [|x arr IH]; [reflexivity|].
  cbn [map forallb]. rewrite IH. now destruct x.
Qed.

Lemma chooseDelimiter_canonical (arr : list Json) :
  Run.chooseDelimiterForValues (map (fun x => Some (ofJson x)) arr)
  = chooseDelimiterForValues arr.
Proof.
  unfold Run.chooseDelimiterForValues, chooseDelimiterForValues.
  replace (existsb _ (map (fun x => Some (ofJson x)) arr))
    with (existsb (fun v => match v with
                            | JPrim (PString s) => includes s [COMMA]
                            | _ => false
                            end) arr); [reflexivity|].
  induction arr as [|x arr IH]; [reflexivity|].
  cbn [map existsb]. rewrite IH. now destruct x as [[]| |].
Qed.

Lemma inline_cells (arr : list Json) (d : jsstring) :
  forallb isPrimitive arr = true ->
  map (fun x => match x with
                | Some (NPrim p) => encodePrimitive p d
                | _ => []
                end) (map (fun x => Some (ofJson x)) arr)
  = map (fun x => encodePrimitive x d) (asPrimitives arr).
Proof.
  induction arr as [|x arr IH]; [reflexivity|].
  cbn [forallb]. rewrite andb_true_iff. intros [Hx Harr].
  destruct x as [p| |]; try discriminate.
  cbn. f_equal. now apply IH.
Qed.

Lemma lookup_canonical (k : jsstring) (fields : list (jsstring * Json)) :
  Run.lookup k (map (fun kv => (fst kv, ofJson (snd kv))) fields)
  = option_map ofJson (lookup k fields).
Proof.
  induction fields as [|[k' v] fields IH]; [reflexivity|].
  cbn [map Run.lookup lookup fst snd]. now destruct (Str.eqb k' k).
Qed.

(** The rows of an array of canonical objects. *)
Lemma asRows_canonical (arr : list Json) :
  forallb isPlainObject arr = true ->
  Run.asRows (map (fun x => Some (ofJson x)) arr)
  = map (fun o => Some (map (fun kv => (fst kv, ofJson (snd kv)))
                          (match o with
                           | JObject fields => fields
                           | _ => []
                           end))) arr.
Proof.
  induction arr as [|x arr IH]; [reflexivity|].
  cbn [forallb]. rewrite andb_true_iff. intros [Hx Harr].
  destruct x as [| |fields]; try discriminate.
  cbn. f_equal. now apply IH.
Qed.

Lemma keysOf_canonical (o : Json) :
  isPlainObject o = true ->
  map fst (map (fun kv => (fst kv, ofJson (snd kv)))
             (match o with
              | JObject fields => fields
              | _ => []
              end))
  = keysOf o.
Proof.
  destruct o as [| |fields]; try discriminate. intros _.
  cbn [keysOf]. rewrite map_map. reflexivity.
Qed.

Lemma sameKeySet_canonical (arr : list Json) :
  forallb isPlainObject arr = true ->
  Run.sameKeySet (Run.asRows (map (fun x => Some (ofJson x)) arr))
  = Return (sameKeySet arr).
Proof.
  intros All. rewrite (asRows_canonical _ All).
  destruct arr as [|o0 rest]; [reflexivity|].
  cbn [forallb] in All. apply andb_true_iff in All as [H0 Hrest].
  cbn [map Run.sameKeySet Run.keysOf sameKeySet bind].
  rewrite (keysOf_canonical _ H0).
  set (keys0 := keysOf o0).
  assert (L : Run.sameKeys keys0
                (map (fun o => Some (map (fun kv => (fst kv, ofJson (snd kv)))
                                       (match o with
                                        | JObject fields => fields
                                        | _ => []
                                        end))) rest)
              = Return (forallb (fun oi =>
                                   (length (keysOf oi) =? length keys0)%nat
                                   && forallb (hasKey keys0) (keysOf oi))
                          rest)).
  { clear H0. induction rest as [|o rest IH]; [reflexivity|].
    cbn [forallb] in Hrest. apply andb_true_iff in Hrest as [Ho Hrest].
    cbn [map Run.sameKeys Run.keysOf bind forallb].
    rewrite (keysOf_canonical _ Ho).
    destruct (length (keysOf o) =? length keys0)%nat; cbn [negb andb];
      [|reflexivity].
    destruct (forallb (hasKey keys0) (keysOf o)); cbn [negb];
      [|reflexivity].
    now apply IH. }
  rewrite L. cbn [bind]. reflexivity.
Qed.

Lemma isPrimitiveProp_canonical (o : Json) (k : jsstring) :
  isPlainObject o = true ->
  Run.isPrimitiveProp
    (map (fun kv => (fst kv, ofJson (snd kv)))
       (match o with
        | JObject fields => fields
        | _ => []
        end)) k
  = isPrimitiveProp o k.
Proof.
  destruct o as [| |fields]; try discriminate. intros _.
  unfold Run.isPrimitiveProp, isPrimitiveProp. cbn [getProp].
  rewrite lookup_canonical. destruct (lookup k fields) as [[]|]; reflexivity.
Qed.

Lemma rowCells_canonical (o : Json) (keys : list jsstring) (d : jsstring) :
  isPlainObject o = true ->
  Run.rowCells
    (map (fun kv => (fst kv, ofJson (snd kv)))
       (match o with
        | JObject fields => fields
        | _ => []
        end)) keys d
  = rowCells o keys d.
Proof.
  destruct o as [| |fields]; try discriminate. intros _.
  unfold Run.rowCells, rowCells. cbn [getProp].
  apply map_ext. intros k. rewrite lookup_canonical.
  destruct (lookup k fields) as [[]|]; reflexivity.
Qed.

Lemma existsb_flat_map (A B : Type) (f : B -> bool) (g : A -> list B)
  (l : list A) :
  existsb f (flat_map g l) = existsb (fun x => existsb f (g x)) l.
Proof.
  induction l as [|x l IH]; [reflexivity|].
  cbn [flat_map existsb]. now rewrite existsb_app, IH.
Qed.

Lemma cellValues_canonical (arr : list Json) (keys : list jsstring) :
  forallb isPlainObject arr = true ->
  Run.chooseDelimiterForValues
    (flat_map (fun o => map (fun k => Run.lookup k o) keys)
       (map (fun o => map (fun kv => (fst kv, ofJson (snd kv)))
                        (match o with
                         | JObject fields => fields
                         | _ => []
                         end)) arr))
  = chooseDelimiterForValues (cellValuesOf arr keys).
Proof.
  intros All.
  unfold Run.chooseDelimiterForValues, chooseDelimiterForValues, cellValuesOf.
  rewrite !existsb_flat_map.
  match goal with
  | |- (if ?a then _ else _) = (if ?b then _ else _) =>
      replace a with b; [reflexivity|]
  end.
  symmetry.
  induction arr as [|o arr IH]; [reflexivity|].
  cbn [forallb] in All. apply andb_true_iff in All as [Ho Harr].
  cbn [map existsb]. rewrite (IH Harr). f_equal.
  destruct o as [| |fields]; try discriminate. cbn [getProp].
  clear. induction keys as [|k keys IH]; [reflexivity|].
  cbn [map existsb flat_map]. rewrite existsb_app, IH, lookup_canonical.
  f_equal. destruct (lookup k fields) as [[[]| |]|]; cbn; try reflexivity.
  now rewrite orb_false_r.
Qed.

Lemma rows_canonical (arr : list Json) :
  mapM Run.row
    (map (fun o => Some (map (fun kv => (fst kv, ofJson (snd kv)))
                           (match o with
                            | JObject fields => fields
                            | _ => []
                            end))) arr)
  = Return (map (fun o => map (fun kv => (fst kv, ofJson (snd kv)))
                            (match o with
                             | JObject fields => fields
                             | _ => []
                             end)) arr).
Proof.
  induction arr as [|o arr IH]; [reflexivity|].
  cbn [map mapM Run.row bind]. rewrite IH. reflexivity.
Qed.

Lemma forallb_mapped (A B : Type) (f : B -> bool) (g : A -> B) (l : list A) :
  forallb f (map g l) = forallb (fun x => f (g x)) l.
Proof.
  induction l as [|x l IH]; [reflexivity|]. cbn [map forallb]. now rewrite IH.
Qed.

Lemma encodeTabular_canonical (arr : list Json) (ctx : Ctx) (n : nat) :
  (if (0 <? length (map (fun x => Some (ofJson x)) arr))%nat
      && Run.every Run.isPlainObject (map (fun x => Some (ofJson x)) arr)
   then Run.encodeTabular (map (fun x => Some (ofJson x)) arr) ctx
          (Z.of_nat n)
   else Return None)
  = Return (encodeTabular arr ctx n).
Proof.
  rewrite every_isPlainObject, length_map. unfold encodeTabular.
  destruct ((0 <? length arr)%nat && forallb isPlainObject arr) eqn:All;
    [|reflexivity].
  apply andb_true_iff in All as [_ All].
  unfold Run.encodeTabular. rewrite (sameKeySet_canonical _ All).
  cbn [bind]. destruct (fst (sameKeySet arr)); [|reflexivity].
  generalize (snd (sameKeySet arr)) as keys. intros keys.
  rewrite (asRows_canonical _ All), forallb_mapped.
  assert (P : forallb (fun o =>
                forallb (Run.isPrimitiveProp
                           (map (fun kv => (fst kv, ofJson (snd kv)))
                              (match o with
                               | JObject fields => fields
                               | _ => []
                               end))) keys) arr
              = forallb (fun o => forallb (fun k => isPrimitiveProp o k) keys)
                  arr).
  { clear -All. induction arr as [|o arr IH]; [reflexivity|].
    cbn [forallb] in All. apply andb_true_iff in All as [Ho Harr].
    cbn [forallb]. rewrite (IH Harr). f_equal.
    clear -Ho. induction keys as [|k keys IHk]; [reflexivity|].
    cbn [forallb]. now rewrite IHk, isPrimitiveProp_canonical. }
  rewrite P. clear P.
  destruct (forallb (fun o => forallb (fun k => isPrimitiveProp o k) keys)
              arr); [|reflexivity].
  rewrite rows_canonical. cbn [bind].
  rewrite indentStr_natural. cbn [bind].
  rewrite (@cellValues_canonical arr keys All), length_map, map_map.
  generalize (chooseDelimiterForValues (cellValuesOf arr keys)) as d.
  intros d. do 2 f_equal. f_equal. f_equal.
  clear -All. induction arr as [|o arr IH]; [reflexivity|].
  cbn [forallb] in All. apply andb_true_iff in All as [Ho Harr].
  cbn [map]. rewrite (IH Harr). do 2 f_equal.
  now rewrite rowCells_canonical.
Qed.

Lemma height_item (x : Json) (arr : list Json) :
  In x arr -> height x <= fold_right (fun y m => Nat.max (height y) m) 0 arr.
Proof.
  induction arr as [|y arr IH]; [easy|]. cbn [fold_right].
  intros [-> | Hin]; [lia|]. specialize (IH Hin). lia.
Qed.

Lemma height_field (kv : jsstring * Json) (obj : list (jsstring * Json)) :
  In kv obj ->
  height (snd kv)
  <= fold_right (fun y m => Nat.max (height (snd y)) m) 0 obj.
Proof.
  induction obj as [|y obj IH]; [easy|]. cbn [fold_right].
  intros [-> | Hin]; [lia|]. specialize (IH Hin). lia.
Qed.

Lemma encodeArray_frame (stack : nat) (arr : list (option Norm)) (ctx : Ctx)
  (size : Z) :
  Run.encodeArray stack arr ctx size
  = Run.encodeArrayBody
      (fun item c s =>
         match stack with
         | O => Throw StackExhausted
         | S room => Run.encodeListItem room item c s
         end) arr ctx size.
Proof. destruct stack; reflexivity. Qed.

Lemma encodeObjectField_frame (stack : nat) (key : jsstring) (v : Norm)
  (ctx : Ctx) (size : Z) :
  Run.encodeObjectField stack key v ctx size
  = Run.encodeObjectFieldBody
      (fun a c s =>
         match stack with
         | O => Throw StackExhausted
         | S room => Run.encodeArray room a c s
         end)
      (fun o c s =>
         match stack with
         | O => Throw StackExhausted
         | S room => Run.encodeObject room o c s
         end) key v ctx size.
Proof. destruct stack; reflexivity. Qed.

Lemma encodeObject_frame (stack : nat) (obj : Run.Row) (ctx : Ctx)
  (size : Z) :
  Run.encodeObject stack obj ctx size
  = Run.encodeObjectBody
      (fun k x c s =>
         match stack with
         | O => Throw StackExhausted
         | S room => Run.encodeObjectField room k x c s
         end) obj ctx size.
Proof. destruct stack; reflexivity. Qed.

Lemma encodeListItem_frame (stack : nat) (v : option Norm) (ctx : Ctx)
  (size : Z) :
  Run.encodeListItem stack v ctx size
  = Run.encodeListItemBody
      (fun a c s =>
         match stack with
         | O => Throw StackExhausted
         | S room => Run.encodeArray room a c s
         end)
      (fun k x c s =>
         match stack with
         | O => Throw StackExhausted
         | S room => Run.encodeObjectField room k x c s
         end)
      (fun o c s =>
         match stack with
         | O => Throw StackExhausted
         | S room => Run.encodeObject room o c s
         end) v ctx size.
Proof. destruct stack; reflexivity. Qed.

(** Arrays, given their items. *)
Lemma encodeArray_canonical (arr : list Json) :
  (forall x, In x arr ->
     forall stack ctx n,
       agrees stack (2 * height x)
         (Run.encodeListItem stack (Some (ofJson x)) ctx (Z.of_nat n))
         (encodeListItem x ctx n)) ->
  forall stack ctx n,
    agrees stack (2 * height (JArray arr) - 1)
      (Run.encodeArray stack (map (fun x => Some (ofJson x)) arr) ctx
         (Z.of_nat n))
      (encodeArray arr ctx n).
Proof.
  intros Items stack ctx n.
  rewrite encodeArray_frame.
  unfold Run.encodeArrayBody, encodeArray, encodeArrayWith.
  rewrite every_isPrimitive, length_map.
  destruct (forallb isPrimitive arr) eqn:Prims.
  - rewrite chooseDelimiter_canonical, (inline_cells _ _ Prims).
    apply agrees_Return.
  - pose proof (encodeTabular_canonical arr ctx n) as T.
    rewrite length_map in T. rewrite T. cbn [bind].
    destruct (encodeTabular arr ctx n) as [enc|]; [apply agrees_Return|].
    eapply agrees_bind; [|apply agrees_Return].
    apply (@agrees_mapM _ _ _ stack _
             (fun item =>
                match stack with
                | O => Throw StackExhausted
                | S room =>
                    Run.encodeListItem room item
                      {| indent := indent ctx + 1 |} (Z.of_nat n)
                end)
             (fun item => encodeListItem item {| indent := indent ctx + 1 |} n)
             (fun x => Some (ofJson x))).
    apply Forall_forall. intros x Hin.
    apply agrees_weaken with (need := S (2 * height x)).
    { pose proof (height_item _ _ Hin) as L. cbn [height]. lia. }
    apply (@agrees_call _ stack (2 * height x)
             (fun room =>
                Run.encodeListItem room (Some (ofJson x))
                  {| indent := indent ctx + 1 |} (Z.of_nat n))).
    intros room. now apply Items.
Qed.

(** Objects, given their fields. *)
Lemma encodeObject_canonical (obj : list (jsstring * Json)) :
  (forall kv, In kv obj ->
     forall stack key ctx n,
       agrees stack (2 * height (snd kv))
         (Run.encodeObjectField stack key (ofJson (snd kv)) ctx (Z.of_nat n))
         (encodeObjectField key (snd kv) ctx n)) ->
  forall stack ctx n,
    agrees stack (2 * height (JObject obj) - 1)
      (Run.encodeObject stack
         (map (fun kv => (fst kv, ofJson (snd kv))) obj) ctx (Z.of_nat n))
      (encodeObject obj ctx n).
Proof.
  intros Fields stack ctx n.
  rewrite encodeObject_frame.
  unfold Run.encodeObjectBody, encodeObject, encodeObjectWith.
  eapply agrees_bind; [|apply agrees_Return].
  apply (@agrees_mapM _ _ _ stack _
           (fun kv =>
              match stack with
              | O => Throw StackExhausted
              | S room =>
                  Run.encodeObjectField room (fst kv) (snd kv) ctx (Z.of_nat n)
              end)
           (fun kv => encodeObjectField (fst kv) (snd kv) ctx n)
           (fun kv => (fst kv, ofJson (snd kv)))).
  apply Forall_forall. intros kv Hin. cbn [fst snd].
  apply agrees_weaken with (need := S (2 * height (snd kv))).
  { pose proof (height_field _ _ Hin) as L. cbn [height]. lia. }
  apply (@agrees_call _ stack (2 * height (snd kv))
           (fun room =>
              Run.encodeObjectField room (fst kv) (ofJson (snd kv)) ctx
                (Z.of_nat n))).
  intros room. now apply Fields.
Qed.

Lemma others_canonical (stack need : nat) (others : list (jsstring * Json))
  (ctx : Ctx) (n : nat) :
  (forall kv, In kv others ->
     forall stack key ctx n,
       agrees stack (2 * height (snd kv))
         (Run.encodeObjectField stack key (ofJson (snd kv)) ctx (Z.of_nat n))
         (encodeObjectField key (snd kv) ctx n)) ->
  (forall kv, In kv others -> S (2 * height (snd kv)) <= need) ->
  agrees stack need
    (mapM (fun kv =>
             match stack with
             | O => Throw StackExhausted
             | S room =>
                 Run.encodeObjectField room (fst kv) (snd kv) ctx (Z.of_nat n)
             end)
       (map (fun kv => (fst kv, ofJson (snd kv))) others))
    (map (fun kv => encodeObjectField (fst kv) (snd kv) ctx n) others).
Proof.
  intros Fields Need.
  apply (@agrees_mapM _ _ _ stack _
           (fun kv =>
              match stack with
              | O => Throw StackExhausted
              | S room =>
                  Run.encodeObjectField room (fst kv) (snd kv) ctx (Z.of_nat n)
              end)
           (fun kv => encodeObjectField (fst kv) (snd kv) ctx n)
           (fun kv => (fst kv, ofJson (snd kv)))).
  apply Forall_forall. intros kv Hin. cbn [fst snd].
  apply agrees_weaken with (need := S (2 * height (snd kv)));
    [now apply Need|].
  apply (@agrees_call _ stack (2 * height (snd kv))
           (fun room =>
              Run.encodeObjectField room (fst kv) (ofJson (snd kv)) ctx
                (Z.of_nat n))).
  intros room. now apply Fields.
Qed.

Lemma height_positive (v : Json) : isPrimitive v = false -> 1 <= height v.
Proof. destruct v; [discriminate | |]; cbn [height]; lia. Qed.

(** Fields and list items, and with them arrays and objects. *)
Lemma run_canonical (v : Json) :
  forall stack key ctx n,
    agrees stack (2 * height v)
      (Run.encodeObjectField stack key (ofJson v) ctx (Z.of_nat n))
      (encodeObjectField key v ctx n)
    /\ agrees stack (2 * height v)
         (Run.encodeListItem stack (Some (ofJson v)) ctx (Z.of_nat n))
         (encodeListItem v ctx n)
    /\ match v with
       | JPrim _ => True
       | JArray arr =>
           agrees stack (2 * height v - 1)
             (Run.encodeArray stack (map (fun x => Some (ofJson x)) arr) ctx
                (Z.of_nat n))
             (encodeArray arr ctx n)
       | JObject obj =>
           agrees stack (2 * height v - 1)
             (Run.encodeObject stack
                (map (fun kv => (fst kv, ofJson (snd kv))) obj) ctx
                (Z.of_nat n))
             (encodeObject obj ctx n)
       end.
Proof.
  induction v as [p|arr IH|obj IH] using Json_induction;
    intros stack key ctx n.
  - split; [|split; [|exact I]].
    + rewrite encodeObjectField_frame. unfold Run.encodeObjectFieldBody.
      rewrite indentStr_natural. apply agrees_Return.
    + rewrite encodeListItem_frame. unfold Run.encodeListItemBody.
      rewrite indentStr_natural. apply agrees_Return.
  - rewrite Forall_forall in IH.
    assert (Arr : forall stack ctx n,
              agrees stack (2 * height (JArray arr) - 1)
                (Run.encodeArray stack (map (fun x => Some (ofJson x)) arr)
                   ctx (Z.of_nat n))
                (encodeArray arr ctx n)).
    { apply encodeArray_canonical.
      intros x Hin s c m. now apply (IH x Hin s [] c m). }
    assert (A : forall stack ctx n,
              agrees stack (2 * height (JArray arr))
                (match stack with
                 | O => Throw StackExhausted
                 | S room =>
                     Run.encodeArray room (map (fun x => Some (ofJson x)) arr)
                       ctx (Z.of_nat n)
                 end)
                (encodeArray arr ctx n)).
    { intros stack' ctx' n'.
      apply agrees_weaken with (need := S (2 * height (JArray arr) - 1));
        [cbn [height]; lia|].
      apply (@agrees_call _ stack' (2 * height (JArray arr) - 1)
               (fun room =>
                  Run.encodeArray room (map (fun x => Some (ofJson x)) arr)
                    ctx' (Z.of_nat n'))).
      intros room. apply Arr. }
    split; [|split; [|apply Arr]].
    + rewrite encodeObjectField_frame. unfold Run.encodeObjectFieldBody.
      rewrite indentStr_natural. cbn [bind ofJson].
      eapply agrees_bind; [apply A|]. apply agrees_Return.
    + rewrite encodeListItem_frame. unfold Run.encodeListItemBody.
      rewrite indentStr_natural. cbn [bind ofJson].
      eapply agrees_bind; [apply A|]. apply agrees_Return.
  - rewrite Forall_forall in IH.
    assert (F : forall kv, In kv obj ->
              forall stack key ctx n,
                agrees stack (2 * height (snd kv))
                  (Run.encodeObjectField stack key (ofJson (snd kv)) ctx
                     (Z.of_nat n))
                  (encodeObjectField key (snd kv) ctx n)).
    { intros kv Hin s k c m. now apply (IH kv Hin s k c m). }
    split; [|split; [|now apply encodeObject_canonical]].
    + rewrite encodeObjectField_frame. unfold Run.encodeObjectFieldBody.
      rewrite indentStr_natural. cbn [bind ofJson encodeObjectField].
      rewrite !length_map.
      destruct (length obj =? 0)%nat; [apply agrees_Return|].
      eapply agrees_bind; [|apply agrees_Return].
      apply agrees_weaken with (need := S (2 * height (JObject obj) - 1));
        [cbn [height]; lia|].
      apply (@agrees_call _ stack (2 * height (JObject obj) - 1)
               (fun room =>
                  Run.encodeObject room
                    (map (fun kv => (fst kv, ofJson (snd kv))) obj)
                    {| indent := indent ctx + 1 |} (Z.of_nat n))).
      intros room. now apply encodeObject_canonical.
    + rewrite encodeListItem_frame. unfold Run.encodeListItemBody.
      rewrite indentStr_natural. cbn [bind ofJson].
      destruct obj as [|[firstKey firstVal] others];
        [apply agrees_Return|].
      cbn [map fst snd].
      assert (First : height firstVal
                      <= fold_right (fun y m => Nat.max (height (snd y)) m) 0
                           ((firstKey, firstVal) :: others)).
      { apply (@height_field (firstKey, firstVal)). now left. }
      assert (Others : forall kv, In kv others ->
                S (2 * height (snd kv))
                <= 2 * height (JObject ((firstKey, firstVal) :: others))).
      { intros kv Hin.
        pose proof (@height_field kv ((firstKey, firstVal) :: others)
                      (or_intror Hin)) as L.
        cbn [height]. lia. }
      assert (More := @others_canonical stack
                        (2 * height (JObject ((firstKey, firstVal) :: others)))
                        others {| indent := indent ctx + 1 |} n
                        (fun kv Hin => F kv (or_intror Hin)) Others).
      pose proof (fun s c m =>
                    proj2 (proj2 (IH (firstKey, firstVal) (or_introl eq_refl)
                                    s [] c m))) as Inner.
      cbn [snd] in Inner.
      destruct firstVal as [p|firstArr|firstObj].
      * cbn [ofJson bind].
        eapply agrees_bind; [exact More|]. apply agrees_Return.
      * cbn [ofJson]. cbn [height] in First.
        set (enc := encodeArray firstArr {| indent := indent ctx |} n).
        set (ind := indentStr (indent ctx) n).
        set (tok := encodeKey firstKey [COMMA]).
        apply agrees_bind with
          (a := match kind enc with
                | KInline =>
                    (ind ++ js "- " ++ tok ++ header enc ++ js ": "
                       ++ body enc, [])
                | KTabular =>
                    (ind ++ js "- " ++ tok ++ header enc ++ [COLON],
                     if truthy (body enc)
                     then [reindentBlock (body enc) 1 n] else [])
                | KList =>
                    (ind ++ js "- " ++ tok ++ header enc ++ [COLON],
                     if truthy (body enc) then [body enc] else [])
                end).
        { apply agrees_bind with (a := enc).
          - apply agrees_weaken
              with (need := S (2 * height (JArray firstArr) - 1));
              [cbn [height]; lia|].
            apply (@agrees_call _ stack (2 * height (JArray firstArr) - 1)
                     (fun room =>
                        Run.encodeArray room
                          (map (fun x => Some (ofJson x)) firstArr)
                          {| indent := indent ctx |} (Z.of_nat n))).
            intros room. apply Inner.
          - destruct (kind enc); [apply agrees_Return | |];
              destruct (truthy (body enc)); cbn [bind];
              rewrite ?reindentBlock_natural; apply agrees_Return. }
        eapply agrees_bind; [exact More|].
        cbn [encodeListItem]. fold enc ind tok.
        change (encodeArrayWith encodeListItem firstArr
                  {| indent := indent ctx |} n) with enc.
        destruct (kind enc); [apply agrees_Return | |];
          destruct (truthy (body enc)); apply agrees_Return.
      * cbn [ofJson]. cbn [height] in First.
        eapply agrees_bind; [|eapply agrees_bind; [exact More|]].
        { eapply agrees_bind; [|apply agrees_Return].
          apply agrees_weaken
            with (need := S (2 * height (JObject firstObj) - 1));
            [cbn [height]; lia|].
          apply (@agrees_call _ stack (2 * height (JObject firstObj) - 1)
                   (fun room =>
                      Run.encodeObject room
                        (map (fun kv => (fst kv, ofJson (snd kv))) firstObj)
                        {| indent := indent ctx + 1 |} (Z.of_nat n))).
          intros room. apply Inner. }
        apply agrees_Return.
Qed.

(** What [encodeToon] builds from a canonical value is the rendering, when
    the stack has room for two calls at each level of nesting; when it has
    not, the stack is exhausted and nothing else is thrown. *)
Lemma rendering_canonical (v : Json) (stack n : nat) :
  agrees stack (2 * height v) (rendering stack (ofJson v) (Z.of_nat n))
    (render v n).
Proof.
  destruct (run_canonical v stack [] {| indent := 0 |} n) as (_ & _ & R).
  destruct v as [p|arr|obj]; cbn [rendering render ofJson].
  - apply agrees_Return.
  - eapply agrees_bind; [|apply agrees_Return].
    eapply agrees_weaken; [|exact R]. lia.
  - rewrite !length_map.
    destruct (length obj =? 0)%nat; [apply agrees_Return|].
    eapply agrees_weaken; [|exact R]. lia.
Qed.

(** ** Depth *)









(** ** The end of lines *)

Lemma blank_not_terminator (c : code_unit) :
  isBlank c = true -> isLineTerminator c = false.
Proof.
  unfold isBlank, isLineTerminator. rewrite orb_true_iff, !N.eqb_eq.
  intros [-> | ->]; reflexivity.
Qed.

(** A blank that [stripLineEnds] keeps is followed, after stripping, by a
    character that ends no line. *)
Lemma kept_blank_not_at_end (s : jsstring) :
  atLineEnd (dropWhile isBlank s) = false ->
  atLineEnd (stripLineEnds s) = false.
Proof.
  destruct s as [|z t]; [easy|]. cbn [dropWhile stripLineEnds].
  destruct (isBlank z) eqn:Bz; cbn [andb].
  - intros H. rewrite H. simpl. now apply blank_not_terminator.
  - intros H. exact H.
Qed.

Lemma stripLineEnds_no_trailing (s a b : jsstring) (c : code_unit) :
  stripLineEnds s = a ++ c :: b -> isBlank c = true -> atLineEnd b = false.
Proof.
  revert a. induction s as [|x s IH]; intros a E Bc.
  - now destruct a.
  - cbn [stripLineEnds] in E.
    destruct (isBlank x && atLineEnd (dropWhile isBlank s)) eqn:T.
    + now apply (IH a).
    + destruct a as [|a0 a]; simpl in E; injection E as -> E.
      * subst b. rewrite Bc in T. simpl in T.
        now apply kept_blank_not_at_end.
      * now apply (IH a).
Qed.

Lemma split_before_last (l a b : jsstring) (x c : code_unit) :
  l ++ [x] = a ++ c :: b ->
  (b = [] /\ l = a /\ x = c) \/ (exists b', b = b' ++ [x] /\ l = a ++ c :: b').
Proof.
  intros E. destruct b as [|y b] using rev_ind.
  - left. change (a ++ [c]) with (a ++ [c]) in E.
    apply app_inj_tail in E as [-> ->]. auto.
  - right. exists b. clear IHb.
    change (a ++ c :: b ++ [y]) with (a ++ (c :: b) ++ [y]) in E.
    rewrite app_assoc in E. apply app_inj_tail in E as [-> ->]. auto.
Qed.

Lemma encoded_text_lines (s : jsstring) :
  noTrailingBlanks (stripLineEnds s ++ [LF]).
Proof.
  intros a c b E Bc.
  apply split_before_last in E as [(-> & _ & <-) | (b' & -> & E)].
  - discriminate.
  - pose proof (@stripLineEnds_no_trailing _ _ _ _ E Bc) as H.
    destruct b'; [discriminate | exact H].
Qed.

Lemma normalize_empty_object (stack : nat) (mode : bool) :
  normalize stack (HPlainObject []) mode = Return (NObject true []).
Proof. rewrite normalize_object. reflexivity. Qed.

(** C8, as stated, fails: the encoding of an array holding one empty
    mapping ends with two newlines. *)
Lemma empty_row_ends_with_two_newlines :
  (forall stack,
     encodeToon (S stack) (HArray [Some (HPlainObject [])]) defaultOpts
     = Return (js "[1]{}:" ++ [LF; LF]))
  /\ ~ endsWithOneNewline (js "[1]{}:" ++ [LF; LF]).
Proof.
  split.
  - intros stack. rewrite encodeToon_cases, normalize_array.
    cbn [mapM element call andb modeOf defaultOpts sanitizeJs].
    rewrite normalize_empty_object. reflexivity.
  - intros [text [E L]].
    change (js "[1]{}:" ++ [LF; LF]) with ((js "[1]{}:" ++ [LF]) ++ [LF]) in E.
    apply app_inj_tail in E as [<- _]. now apply L.
Qed.

(** C8 (amended): whenever [encodeToon] returns, the text is the rendering
    with the blanks at the end of its lines removed, followed by one
    appended newline: it ends with a newline, and no space or tab stands
    before a line terminator or at the end; the empty mapping is encoded as
    a single newline. *)
Theorem encoded_text_shape (stack : nat) (input : Host) (opts : EncodeOpts)
  (out : jsstring) (H : encodeToon stack input opts = Return out) :
  (exists v text,
     normalize stack input (modeOf opts) = Return v
     /\ rendering stack v (indentOf opts) = Return text
     /\ out = stripLineEnds text ++ [LF])
  /\ (exists text, out = text ++ [LF])
  /\ noTrailingBlanks out
  /\ encodeToon stack (HPlainObject []) opts = Return [LF].
Proof.
  rewrite encodeToon_cases in H.
  destruct (normalize stack input (modeOf opts)) as [v|e]; [|discriminate].
  cbn [bind] in H.
  destruct (rendering stack v (indentOf opts)) as [text|e] eqn:R;
    [|discriminate].
  injection H as <-.
  split; [exists v, text; repeat split; exact R|]. split; [now eexists|].
  split; [apply encoded_text_lines|].
  rewrite encodeToon_cases, normalize_empty_object. reflexivity.
Qed.

Lemma encoded_text_shape_witness :
  noTrailingBlanks
    (js "team: platform" ++ [LF] ++ js "flags[3]: true,false,true" ++ [LF]).
Proof.
  refine (proj1 (proj2 (proj2
    (@encoded_text_shape 8
       (HPlainObject
          [(js "team", HString (js "platform"));
           (js "flags",
            HArray [Some (HBoolean true); Some (HBoolean false);
                    Some (HBoolean true)])])
       defaultOpts _ _)))).
  reflexivity.
Defined.

(** ** Canonical numbers *)

(** Facts about single characters, by arithmetic on their codes. *)
Ltac chars :=
  unfold isDigit, isZeroChar, isExpChar, isSignChar, isBlank, digitChar,
    ZERO, DOT, MINUS, PLUS, LOWER_E, UPPER_E in *;
  repeat match goal with
         | H : _ && _ = true |- _ => apply andb_true_iff in H; destruct H
         | H : _ || _ = false |- _ => apply orb_false_iff in H; destruct H
         | H : negb _ = true |- _ => apply negb_true_iff in H
         | H : negb _ = false |- _ => apply negb_false_iff in H
         | H : (_ <=? _)%N = true |- _ => apply N.leb_le in H
         | H : (_ =? _)%N = true |- _ => apply N.eqb_eq in H
         | H : (_ =? _)%N = false |- _ => apply N.eqb_neq in H
         end;
  repeat match goal with
         | |- _ && _ = true => apply andb_true_iff; split
         | |- _ || _ = false => apply orb_false_iff; split
         | |- negb _ = true => apply negb_true_iff
         | |- (_ <=? _)%N = true => apply N.leb_le
         | |- (_ =? _)%N = true => apply N.eqb_eq
         | |- (_ =? _)%N = false => apply N.eqb_neq
         end;
  try lia.

Lemma digit_not_exp (c : code_unit) : isDigit c = true -> isExpChar c = false.
Proof. intros H. chars. Qed.

Lemma digit_not_sign (c : code_unit) :
  isDigit c = true -> isSignChar c = false.
Proof. intros H. chars. Qed.

Lemma digit_not_dot (c : code_unit) : isDigit c = true -> (c =? DOT)%N = false.
Proof. intros H. chars. Qed.

Lemma digit_not_minus (c : code_unit) :
  isDigit c = true -> (c =? MINUS)%N = false.
Proof. intros H. chars. Qed.

Lemma digitChar_digit (d : N) : (d < 10)%N -> isDigit (digitChar d) = true.
Proof. intros H. chars. Qed.

Lemma digitChar_zero (d : N) : d <> 0%N -> isZeroChar (digitChar d) = false.
Proof. intros H. chars. Qed.

Section Prefixes.
Variable p : code_unit -> bool.

Lemma takeWhile_app (a b : jsstring) :
  forallb p a = true -> takeWhile p (a ++ b) = a ++ takeWhile p b.
Proof.
  induction a as [|x a IH]; simpl; [reflexivity|].
  intros H. apply andb_true_iff in H as [-> H]. now rewrite IH.
Qed.

Lemma dropWhile_app (a b : jsstring) :
  forallb p a = true -> dropWhile p (a ++ b) = dropWhile p b.
Proof.
  induction a as [|x a IH]; simpl; [reflexivity|].
  intros H. apply andb_true_iff in H as [-> H]. now rewrite IH.
Qed.

Lemma takeWhile_all (a : jsstring) : forallb p a = true -> takeWhile p a = a.
Proof.
  intros H. rewrite <- (app_nil_r a) at 1. rewrite takeWhile_app by exact H.
  apply app_nil_r.
Qed.

Lemma dropWhile_all (a : jsstring) : forallb p a = true -> dropWhile p a = [].
Proof.
  intros H. rewrite <- (app_nil_r a). now rewrite dropWhile_app.
Qed.

Lemma forallb_repeat (c : code_unit) (m : nat) :
  p c = true -> forallb p (repeat c m) = true.
Proof. intros H. induction m; simpl; [reflexivity | now rewrite H]. Qed.

Lemma forallb_firstn (m : nat) (a : jsstring) :
  forallb p a = true -> forallb p (firstn m a) = true.
Proof.
  revert a; induction m as [|m IH]; intros [|x a]; simpl; trivial.
  intros H. apply andb_true_iff in H as [-> H]. now apply IH.
Qed.

Lemma forallb_skipn (m : nat) (a : jsstring) :
  forallb p a = true -> forallb p (skipn m a) = true.
Proof.
  revert a; induction m as [|m IH]; intros [|x a]; simpl; trivial.
  intros H. apply andb_true_iff in H as [_ H]. now apply IH.
Qed.

End Prefixes.

Lemma digits_no_exp (s : jsstring) :
  forallb isDigit s = true -> existsb isExpChar s = false.
Proof.
  induction s as [|c s IH]; simpl; [reflexivity|].
  intros H. apply andb_true_iff in H as [Hc H].
  now rewrite (digit_not_exp _ Hc), IH.
Qed.

Lemma digits_no_dot (s : jsstring) : forallb isDigit s = true -> ~ In DOT s.
Proof.
  rewrite forallb_forall. intros H Hin. specialize (H _ Hin). discriminate.
Qed.

Lemma signText_no_exp (negative : bool) :
  existsb isExpChar (signText negative) = false.
Proof. now destruct negative. Qed.

Lemma signText_no_dot (negative : bool) : ~ In DOT (signText negative).
Proof. destruct negative; simpl; [intros [H | []]; discriminate | easy]. Qed.

(** *** The last character *)

Lemma endsInZero_app (x y : jsstring) :
  y <> [] -> endsInZero (x ++ y) = endsInZero y.
Proof.
  intros Hy. unfold endsInZero. rewrite rev_app_distr.
  destruct (rev y) as [|c r] eqn:R; [|reflexivity].
  apply (f_equal (@rev _)) in R. rewrite rev_involutive in R. now subst.
Qed.

Lemma endsInNonZeroDigit_app (x y : jsstring) :
  y <> [] -> endsInNonZeroDigit (x ++ y) = endsInNonZeroDigit y.
Proof.
  intros Hy. unfold endsInNonZeroDigit. rewrite rev_app_distr.
  destruct (rev y) as [|c r] eqn:R; [|reflexivity].
  apply (f_equal (@rev _)) in R. rewrite rev_involutive in R. now subst.
Qed.

Lemma endsInNonZeroDigit_not_zero (s : jsstring) :
  endsInNonZeroDigit s = true -> endsInZero s = false.
Proof.
  unfold endsInNonZeroDigit, endsInZero. destruct (rev s); [easy|].
  intros H. apply andb_true_iff in H as [_ H]. now apply negb_true_iff.
Qed.

Lemma endsInZero_tail (c : code_unit) (s : jsstring) :
  endsInZero (c :: s) = false -> endsInZero s = false.
Proof.
  destruct s as [|x s]; [reflexivity|].
  change (c :: x :: s) with ([c] ++ x :: s).
  now rewrite endsInZero_app.
Qed.

(** A text that does not end in 0 has no zeros for the lazy pattern to
    remove. *)
Lemma stripFractionZeros_fixed (s : jsstring) :
  endsInZero s = false -> stripFractionZeros s = s.
Proof.
  induction s as [|c s IH]; [reflexivity|].
  intros H. pose proof (endsInZero_tail _ _ H) as H'.
  cbn [stripFractionZeros]. rewrite H', andb_false_r. now rewrite IH.
Qed.

Lemma dropFinalDot_fixed (s : jsstring) :
  endsInNonZeroDigit s = true -> dropFinalDot s = s.
Proof.
  unfold endsInNonZeroDigit, dropFinalDot. destruct (rev s) as [|c r]; [easy|].
  intros H. apply andb_true_iff in H as [H _].
  now rewrite (digit_not_dot _ H).
Qed.

Lemma skipn_nonempty (m : nat) (s : jsstring) :
  m < length s -> skipn m s <> [].
Proof.
  intros H E. apply (f_equal (@length _)) in E.
  rewrite length_skipn in E. simpl in E. lia.
Qed.

Lemma endsInNonZeroDigit_skipn (m : nat) (s : jsstring) :
  m < length s ->
  endsInNonZeroDigit (skipn m s) = endsInNonZeroDigit s.
Proof.
  intros H. rewrite <- (firstn_skipn m s) at 2.
  symmetry. apply endsInNonZeroDigit_app. now apply skipn_nonempty.
Qed.

(** *** Decimal digits of integers *)

Lemma uintChars_digits (u : Decimal.uint) :
  forallb isDigit (uintChars u) = true.
Proof. induction u; simpl; trivial. Qed.

Lemma charsUint_uintChars (u : Decimal.uint) : charsUint (uintChars u) = u.
Proof. induction u; simpl; congruence. Qed.

Lemma uintChars_nonempty (u : Decimal.uint) :
  u <> Decimal.Nil -> uintChars u <> [].
Proof. destruct u; simpl; congruence. Qed.

Lemma NToString_digits (m : N) : forallb isDigit (NToString m) = true.
Proof. apply uintChars_digits. Qed.

Lemma NToString_nonempty (m : N) : NToString m <> [].
Proof.
  unfold NToString. apply uintChars_nonempty.
  destruct m as [|p]; simpl; [discriminate|].
  apply DecimalPos.Unsigned.to_uint_nonnil.
Qed.

Lemma parseInt_NToString (m : N) :
  parseInt (PLUS :: NToString m) = Z.of_N m
  /\ parseInt (MINUS :: NToString m) = (- Z.of_N m)%Z.
Proof.
  unfold parseInt, NToString. cbn [N.eqb Pos.eqb PLUS MINUS].
  rewrite charsUint_uintChars, DecimalN.Unsigned.of_to. now split.
Qed.

(** The exponent [Number::toString] prints is read back by [parseInt]. *)
Lemma parseInt_exponent (e : Z) :
  parseInt ((if (e <? 0)%Z then [MINUS] else [PLUS]) ++ NToString (Z.abs_N e))
  = e.
Proof.
  destruct (parseInt_NToString (Z.abs_N e)) as [P M].
  destruct (Z.ltb_spec e 0); cbn [app].
  - rewrite M, N2Z.inj_abs_N. lia.
  - rewrite P, N2Z.inj_abs_N. lia.
Qed.

(** *** The exponential format is matched group by group *)

Lemma takeWhile_stop (p : code_unit -> bool) (a b : jsstring) (c : code_unit) :
  forallb p a = true -> p c = false ->
  takeWhile p (a ++ c :: b) = a /\ dropWhile p (a ++ c :: b) = c :: b.
Proof.
  intros Ha Hc. rewrite takeWhile_app, dropWhile_app by exact Ha.
  simpl. rewrite Hc. now rewrite app_nil_r.
Qed.

Lemma isEmpty_false (s : jsstring) : s <> [] -> isEmpty s = false.
Proof. now destruct s. Qed.

(** From the end of the integer part on: an optional fraction, then the
    exponent. *)
Lemma matchExponential_mantissa (m1 : jsstring) (d : code_unit)
  (rest : jsstring) (esign : code_unit) (ds : jsstring) :
  isDigit d = true -> forallb isDigit rest = true ->
  isSignChar esign = true -> ds <> [] -> forallb isDigit ds = true ->
  let tail := LOWER_E :: esign :: ds in
  let s1 := d :: match rest with [] => tail | _ => DOT :: rest ++ tail end in
  let m2 := takeWhile isDigit s1 in
  let s2 := dropWhile isDigit s1 in
  (if isEmpty m2 then None else
   let '(m3, s3) :=
     match s2 with
     | c :: t =>
         if (c =? DOT)%N && negb (isEmpty (takeWhile isDigit t))
         then (Some (takeWhile isDigit t), dropWhile isDigit t)
         else (None, s2)
     | [] => (None, [])
     end in
   match s3 with
   | c :: t =>
       if isExpChar c then
         let '(es, t1) :=
           match t with
           | c' :: t' => if isSignChar c' then ([c'], t') else ([], t)
           | [] => ([], [])
           end in
         if negb (isEmpty t1) && forallb isDigit t1
         then Some (m1, m2, m3, es ++ t1)
         else None
       else None
   | [] => None
   end)
  = Some (m1, [d], match rest with [] => None | _ => Some rest end,
          esign :: ds).
Proof.
  intros Hd Hrest Hsign Hne Hds. cbv zeta.
  destruct rest as [|r0 rest].
  - cbn [takeWhile dropWhile]. rewrite Hd. simpl.
    rewrite Hsign, Hds, (isEmpty_false Hne). reflexivity.
  - cbn [takeWhile dropWhile]. rewrite Hd.
    change (isDigit DOT) with false. cbv iota. cbn [isEmpty].
    change (r0 :: rest ++ LOWER_E :: esign :: ds)
      with ((r0 :: rest) ++ LOWER_E :: esign :: ds).
    destruct (takeWhile_stop isDigit (r0 :: rest) (esign :: ds) LOWER_E
                Hrest eq_refl) as [T D].
    change ((DOT =? DOT)%N) with true. cbn [andb].
    rewrite T, D. cbn [isEmpty negb].
    change (isExpChar LOWER_E) with true. cbv iota.
    rewrite Hsign, Hds, (isEmpty_false Hne). reflexivity.
Qed.

Lemma matchExponential_format (negative : bool) (d : code_unit)
  (rest : jsstring) (esign : code_unit) (ds : jsstring) :
  isDigit d = true -> forallb isDigit rest = true ->
  isSignChar esign = true -> ds <> [] -> forallb isDigit ds = true ->
  matchExponential
    (signText negative
     ++ d :: match rest with
             | [] => LOWER_E :: esign :: ds
             | _ => DOT :: rest ++ LOWER_E :: esign :: ds
             end)
  = Some (signText negative, [d],
          match rest with [] => None | _ => Some rest end, esign :: ds).
Proof.
  intros Hd Hrest Hsign Hne Hds.
  pose proof (fun m1 => @matchExponential_mantissa m1 d rest esign ds
                          Hd Hrest Hsign Hne Hds) as M.
  cbv zeta in M. unfold matchExponential.
  destruct negative; cbn [signText app].
  - change (isSignChar MINUS) with true. cbv iota. apply M.
  - rewrite (digit_not_sign _ Hd). apply M.
Qed.

(** *** Texts the final clean-up leaves alone *)

Lemma stripLeadingZeros_nonzero (c : code_unit) (s : jsstring) :
  isZeroChar c = false -> stripLeadingZeros (c :: s) = c :: s.
Proof. intros H. unfold stripLeadingZeros. now rewrite H. Qed.

Lemma clean_text (t : jsstring) :
  (In DOT t -> endsInNonZeroDigit t = true) ->
  (if includes t [DOT] then dropFinalDot (stripFractionZeros t) else t) = t.
Proof.
  intros H. destruct (includes t [DOT]) eqn:I; [|reflexivity].
  apply includes_char in I. specialize (H I).
  rewrite stripFractionZeros_fixed
    by now apply endsInNonZeroDigit_not_zero.
  now apply dropFinalDot_fixed.
Qed.

Lemma finishNumber_clean (sign out : jsstring) :
  stripLeadingZeros out = out ->
  (In DOT out -> endsInNonZeroDigit out = true) ->
  finishNumber sign out = sign ++ out.
Proof.
  intros L C. unfold finishNumber. cbv zeta. rewrite L.
  now rewrite clean_text.
Qed.

(** *** The digits with the point moved *)

Lemma cleanDigits_of_wf (digits : list N) :
  wfDigits digits -> cleanDigits (map digitChar digits).
Proof.
  intros (Ne & Lt & Hd & Hl). rewrite Forall_forall in Lt.
  split; [|split].
  - apply forallb_forall. intros c Hc.
    apply in_map_iff in Hc as (d & <- & Hin). now apply digitChar_digit, Lt.
  - destruct digits as [|d0 rest]; [easy|]. simpl in Hd.
    exists (digitChar d0), (map digitChar rest).
    split; [reflexivity | now apply digitChar_zero].
  - unfold endsInNonZeroDigit. rewrite <- map_rev.
    destruct (rev digits) as [|l r] eqn:E.
    + apply (f_equal (@length _)) in E. rewrite length_rev in E.
      destruct digits; [easy | discriminate].
    + assert (R : hd 1%N (l :: r) = last digits 1%N)
        by (rewrite <- E; apply (@hd_rev_last digits 1%N 1%N Ne)).
      simpl in R. subst l. cbn [map].
      assert (In (last digits 1%N) digits).
      { apply in_rev. rewrite E. now left. }
      rewrite digitChar_digit by now apply Lt.
      now rewrite digitChar_zero.
Qed.

Lemma cleanDigits_length (s : jsstring) : cleanDigits s -> 0 < length s.
Proof. intros (_ & (c & rest & -> & _) & _). simpl. lia. Qed.

Lemma shiftText_no_exp (s : jsstring) (n : Z) :
  forallb isDigit s = true -> existsb isExpChar (shiftText s n) = false.
Proof.
  intros D. unfold shiftText.
  assert (Z : existsb isExpChar (repeat ZERO (Z.to_nat (- n))) = false
              /\ existsb isExpChar
                   (repeat ZERO (Z.to_nat (n - Z.of_nat (length s)))) = false).
  { split; apply digits_no_exp; now apply forallb_repeat. }
  destruct Z as [Z1 Z2].
  destruct (n <=? 0)%Z; [|destruct (_ <=? n)%Z].
  - change (js "0.") with [ZERO; DOT]. cbn [app existsb].
    rewrite existsb_app, Z1, (digits_no_exp _ D). reflexivity.
  - now rewrite existsb_app, Z2, (digits_no_exp _ D).
  - rewrite !existsb_app. cbn [existsb].
    rewrite (digits_no_exp _ (forallb_firstn _ _ _ D)),
      (digits_no_exp _ (forallb_skipn _ _ _ D)). reflexivity.
Qed.

Lemma shiftText_clean (s : jsstring) (n : Z) :
  cleanDigits s ->
  stripLeadingZeros (shiftText s n) = shiftText s n
  /\ (In DOT (shiftText s n) -> endsInNonZeroDigit (shiftText s n) = true).
Proof.
  intros C. pose proof (cleanDigits_length C) as Len.
  destruct C as (D & (c & rest & -> & Hc) & E). unfold shiftText.
  destruct (Z.leb_spec n 0) as [N0|N0];
    [|destruct (Z.leb_spec (Z.of_nat (length (c :: rest))) n) as [Nk|Nk]].
  - split; [reflexivity|]. intros _.
    change (js "0." ++ repeat ZERO (Z.to_nat (- n)) ++ c :: rest)
      with ((ZERO :: DOT :: repeat ZERO (Z.to_nat (- n))) ++ c :: rest).
    now rewrite endsInNonZeroDigit_app.
  - split; [now apply stripLeadingZeros_nonzero|].
    intros Hin. exfalso. apply in_app_iff in Hin as [Hin | Hin].
    + now apply (digits_no_dot _ D).
    + apply repeat_spec in Hin. discriminate.
  - assert (P : exists m, Z.to_nat n = S m /\ S m < length (c :: rest)).
    { exists (Nat.pred (Z.to_nat n)). lia. }
    destruct P as (m & -> & Hm).
    split; [now apply stripLeadingZeros_nonzero|]. intros _.
    rewrite app_assoc, endsInNonZeroDigit_app
      by now apply skipn_nonempty.
    now rewrite endsInNonZeroDigit_skipn.
Qed.

Lemma shiftText_nonempty (s : jsstring) (n : Z) :
  s <> [] -> shiftText s n <> [].
Proof.
  intros Ne E. apply (f_equal (@length _)) in E. unfold shiftText in E.
  assert (0 < length s) by (destruct s; [easy | simpl; lia]).
  destruct (n <=? 0)%Z; [|destruct (_ <=? n)%Z];
    repeat (rewrite ?length_app, ?length_firstn, ?length_skipn in E;
            simpl in E); lia.
Qed.

(** Outside the exponential format, [Number::toString] already prints the
    shifted digits. *)
Lemma formatDigits_plain (s : jsstring) (n : Z) :
  0 < length s -> (-6 < n <= 21)%Z -> formatDigits s n = shiftText s n.
Proof.
  intros Len R. unfold formatDigits, shiftText. cbv zeta.
  destruct (Z.leb_spec (Z.of_nat (length s)) n);
    destruct (Z.leb_spec n 21); destruct (Z.leb_spec n 0);
    destruct (Z.ltb_spec 0 n); destruct (Z.ltb_spec (-6) n);
    cbn [andb]; try reflexivity; lia.
Qed.

Lemma formatDigits_exponential (d : code_unit) (rest : jsstring) (n : Z) :
  (n <= -6 \/ 21 < n)%Z ->
  let e := (n - 1)%Z in
  let esign := if (e <? 0)%Z then MINUS else PLUS in
  formatDigits (d :: rest) n
  = d :: match rest with
         | [] => LOWER_E :: esign :: NToString (Z.abs_N e)
         | _ => DOT :: rest ++ LOWER_E :: esign :: NToString (Z.abs_N e)
         end.
Proof.
  intros R. unfold formatDigits. cbv zeta.
  destruct (Z.leb_spec (Z.of_nat (length (d :: rest))) n);
    destruct (Z.leb_spec n 21); destruct (Z.leb_spec n 0);
    destruct (Z.ltb_spec 0 n); destruct (Z.ltb_spec (-6) n);
    cbn [andb]; try lia;
    destruct (n - 1 <? 0)%Z; destruct rest; reflexivity.
Qed.

(** The three branches of the expansion are those of [shiftText]. *)
Lemma expansion_is_shift (sign s : jsstring) (n : Z) :
  cleanDigits s ->
  (if (n <=? 0)%Z then
     let stripped := dropWhile isZeroChar s in
     if (length stripped =? 0)%nat then js "0"
     else finishNumber sign
            (js "0." ++ repeat ZERO (Z.to_nat (- n)) ++ stripped)
   else if (n >=? Z.of_nat (length s))%Z then
     finishNumber sign
       (s ++ repeat ZERO (Z.to_nat (n - Z.of_nat (length s))))
   else
     finishNumber sign
       (firstn (Z.to_nat n) s ++ [DOT] ++ skipn (Z.to_nat n) s))
  = sign ++ shiftText s n.
Proof.
  intros C. destruct (shiftText_clean n C) as [L E].
  rewrite <- (finishNumber_clean sign L E).
  destruct C as (_ & (c & rest & -> & Hc) & _). unfold shiftText.
  rewrite Z.geb_leb. cbv zeta. cbn [dropWhile]. rewrite Hc.
  destruct (n <=? 0)%Z; [|destruct (_ <=? n)%Z]; reflexivity.
Qed.

Lemma canonicalOfText_exponential (t m1 : jsstring) (d : code_unit)
  (rest m4 : jsstring) :
  existsb isExpChar t = true ->
  matchExponential t
  = Some (m1, [d], match rest with [] => None | _ => Some rest end, m4) ->
  canonicalOfText t
  = let sign := if Str.eqb m1 [MINUS] then [MINUS] else [] in
    let s := d :: rest in
    let n := (1 + parseInt m4)%Z in
    if (n <=? 0)%Z then
      let stripped := dropWhile isZeroChar s in
      if (length stripped =? 0)%nat then js "0"
      else finishNumber sign
             (js "0." ++ repeat ZERO (Z.to_nat (- n)) ++ stripped)
    else if (n >=? Z.of_nat (length s))%Z then
      finishNumber sign
        (s ++ repeat ZERO (Z.to_nat (n - Z.of_nat (length s))))
    else
      finishNumber sign
        (firstn (Z.to_nat n) s ++ [DOT] ++ skipn (Z.to_nat n) s).
Proof.
  intros X M. unfold canonicalOfText. rewrite X, M.
  destruct rest; reflexivity.
Qed.

(** What the encoder makes of the text [Number::toString] prints. *)
Lemma canonicalOfText_format (negative : bool) (s : jsstring) (n : Z) :
  cleanDigits s ->
  canonicalOfText (signText negative ++ formatDigits s n)
  = signText negative ++ shiftText s n.
Proof.
  intros C. pose proof (cleanDigits_length C) as Len.
  destruct (Z.le_gt_cases n (-6)) as [Lo|Lo];
    [|destruct (Z.le_gt_cases n 21) as [Hi|Hi]].
  2: { (* printed without exponent *)
    rewrite formatDigits_plain by (trivial; lia).
    destruct (shiftText_clean n C) as [_ E].
    destruct C as (D & (c & rest & -> & _) & _).
    unfold canonicalOfText.
    rewrite existsb_app, signText_no_exp, (@shiftText_no_exp _ n D).
    cbn [orb negb]. apply clean_text. intros Hin.
    rewrite endsInNonZeroDigit_app
      by (apply shiftText_nonempty; discriminate).
    apply E. apply in_app_iff in Hin as [Hin | Hin]; [|exact Hin].
    now apply signText_no_dot in Hin. }
  all: (* printed in exponential format *)
    pose proof C as (D & (c & rest & -> & Hc) & _);
    cbn [forallb] in D; apply andb_true_iff in D as [Dc Drest];
    rewrite formatDigits_exponential by lia; cbv zeta;
    set (esign := if (n - 1 <? 0)%Z then MINUS else PLUS);
    set (ds := NToString (Z.abs_N (n - 1)));
    assert (Hsign : isSignChar esign = true)
      by (subst esign; now destruct (n - 1 <? 0)%Z);
    pose proof (@matchExponential_format negative c rest esign ds Dc Drest
                  Hsign (NToString_nonempty _) (NToString_digits _)) as M;
    assert (P : parseInt (esign :: ds) = (n - 1)%Z)
      by (transitivity
            (parseInt ((if (n - 1 <? 0)%Z then [MINUS] else [PLUS])
                       ++ NToString (Z.abs_N (n - 1))));
          [subst esign ds; now destruct (n - 1 <? 0)%Z
          | apply parseInt_exponent]);
    assert (X : existsb isExpChar
                  (signText negative
                   ++ c :: match rest with
                           | [] => LOWER_E :: esign :: ds
                           | _ :: _ => DOT :: rest ++ LOWER_E :: esign :: ds
                           end) = true)
      by (apply existsb_exists; exists LOWER_E; split; [|reflexivity];
          apply in_app_iff; right; destruct rest;
          [simpl; auto
          | right; right; apply in_app_iff; right; now left]);
    rewrite (canonicalOfText_exponential _ rest X M); cbv zeta;
    rewrite P; replace (1 + (n - 1))%Z with n by lia;
    rewrite (expansion_is_shift _ n C);
    now destruct negative.
Qed.

Lemma toString_finite (negative : bool) (digits : list N) (n : Z) :
  toString (Finite negative digits n)
  = signText negative ++ formatDigits (map digitChar digits) n.
Proof. unfold toString, formatDigits. now rewrite length_map. Qed.

Lemma shiftPoint_text (digits : list N) (n : Z) :
  shiftPoint digits n = shiftText (map digitChar digits) n.
Proof. unfold shiftPoint, shiftText. now rewrite length_map. Qed.

Lemma encodeNumberCanonical_text (negative : bool) (digits : list N) (n : Z) :
  encodeNumberCanonical (Finite negative digits n)
  = canonicalOfText (toString (Finite negative digits n)).
Proof. reflexivity. Qed.

(** The encoder prints a finite number as its digits with the point moved. *)
Lemma encodeNumberCanonical_plain (x : number) :
  wf x -> isFinite x = true -> encodeNumberCanonical x = plainDecimal x.
Proof.
  destruct x as [|neg|[|]|neg digits n]; try discriminate; try reflexivity.
  intros W _. rewrite encodeNumberCanonical_text, toString_finite.
  rewrite canonicalOfText_format by now apply cleanDigits_of_wf.
  cbn [plainDecimal]. now rewrite shiftPoint_text.
Qed.

(** *** The shape of the shifted digits *)

Lemma shiftText_head (s : jsstring) (n : Z) :
  cleanDigits s ->
  exists c r, shiftText s n = c :: r /\ isDigit c = true
              /\ (isZeroChar c = true -> exists r', r = DOT :: r').
Proof.
  intros C. pose proof (cleanDigits_length C) as Len.
  destruct C as (D & (c & rest & -> & Hc) & _).
  cbn [forallb] in D. apply andb_true_iff in D as [Dc _].
  unfold shiftText.
  destruct (Z.leb_spec n 0) as [N0|N0];
    [|destruct (Z.leb_spec (Z.of_nat (length (c :: rest))) n) as [Nk|Nk]].
  - exists ZERO. eexists. split; [reflexivity|]. split; [reflexivity|].
    intros _. eexists. reflexivity.
  - exists c. eexists. split; [reflexivity|]. split; [exact Dc|]. congruence.
  - assert (P : exists m, Z.to_nat n = S m) by (exists (Nat.pred (Z.to_nat n)); lia).
    destruct P as [m ->].
    exists c. eexists. split; [reflexivity|]. split; [exact Dc|]. congruence.
Qed.

Lemma last_of_rev (s r : jsstring) (c d : code_unit) :
  rev s = c :: r -> last s d = c.
Proof.
  intros R. assert (Ne : s <> []).
  { intros ->. discriminate. }
  rewrite <- (hd_rev_last d d Ne), R. reflexivity.
Qed.

Lemma plainDecimal_no_exp (x : number) :
  wf x -> isFinite x = true -> existsb isExpChar (plainDecimal x) = false.
Proof.
  destruct x as [|neg|neg|neg digits n]; try discriminate; try reflexivity.
  intros W _. apply cleanDigits_of_wf in W as (D & _). cbn [plainDecimal].
  rewrite shiftPoint_text, existsb_app.
  change (if neg then [MINUS] else []) with (signText neg).
  now rewrite signText_no_exp, shiftText_no_exp.
Qed.

Lemma plainDecimal_zeros (x : number) :
  wf x -> isFinite x = true -> noRedundantZeros (plainDecimal x).
Proof.
  destruct x as [|neg|neg|neg digits n]; try discriminate.
  { intros _ _. split.
    - intros [H | []]. discriminate.
    - intros c t [H | H]; discriminate. }
  intros W _. apply cleanDigits_of_wf in W as C. cbn [plainDecimal].
  rewrite shiftPoint_text.
  change (if neg then [MINUS] else []) with (signText neg).
  set (out := shiftText (map digitChar digits) n).
  destruct (shiftText_clean n C) as [_ E]. fold out in E.
  destruct (shiftText_head n C) as (c0 & r & Hout & Dc & Hdot).
  fold out in Hout.
  split.
  - intros Hin.
    assert (Hin' : In DOT out).
    { apply in_app_iff in Hin as [Hin | Hin]; [|exact Hin].
      now apply signText_no_dot in Hin. }
    specialize (E Hin').
    assert (E' : endsInNonZeroDigit (signText neg ++ out) = true).
    { rewrite endsInNonZeroDigit_app; [exact E|].
      rewrite Hout. discriminate. }
    unfold endsInNonZeroDigit in E'.
    destruct (rev (signText neg ++ out)) as [|l rr] eqn:R; [discriminate|].
    rewrite (@last_of_rev _ _ _ DOT R). apply andb_true_iff in E' as [E1 E2].
    split; [exact E1|]. intros ->. discriminate.
  - assert (Hz : forall c t, out = ZERO :: c :: t -> c = DOT).
    { intros c t Ho. rewrite Hout in Ho. injection Ho as -> ->.
      destruct (Hdot eq_refl) as [r' Hr]. now injection Hr. }
    intros c t [H | H]; destruct neg; cbn [signText app] in H.
    + discriminate.
    + now apply (Hz c t).
    + injection H as H. now apply (Hz c t).
    + rewrite Hout in H. injection H as -> _. discriminate.
Qed.

Lemma plainDecimal_sign (negative : bool) (digits : list N) (n : Z) :
  wfDigits digits ->
  startsWith (plainDecimal (Finite negative digits n)) [MINUS] = negative.
Proof.
  intros W. apply cleanDigits_of_wf in W as C. cbn [plainDecimal].
  rewrite shiftPoint_text.
  destruct (shiftText_head n C) as (c0 & r & -> & Dc & _).
  destruct negative; cbn [app startsWith]; [reflexivity|].
  now rewrite (digit_not_minus _ Dc).
Qed.

(** *** The value of the printed text *)

Lemma digitsValue_fold (s : jsstring) : digitsValue s = fold_left digitStep s 0%Z.
Proof. reflexivity. Qed.

Lemma digitsValue_app (a b : jsstring) :
  digitsValue (a ++ b) = fold_left digitStep b (digitsValue a).
Proof. rewrite !digitsValue_fold. apply fold_left_app. Qed.

Lemma fold_zeros (m : nat) (acc : Z) :
  fold_left digitStep (repeat ZERO m) acc = (acc * 10 ^ Z.of_nat m)%Z.
Proof.
  revert acc; induction m as [|m IH]; intros acc.
  - simpl. lia.
  - cbn [repeat List.repeat fold_left]. rewrite IH.
    unfold digitStep. change (Z.of_N ZERO) with 48%Z.
    rewrite Nat2Z.inj_succ, Z.pow_succ_r by lia. lia.
Qed.

Lemma digitsValue_leading_zeros (m : nat) (s : jsstring) :
  digitsValue (ZERO :: repeat ZERO m ++ s) = digitsValue s.
Proof.
  change (ZERO :: repeat ZERO m ++ s) with (repeat ZERO (S m) ++ s).
  rewrite digitsValue_app, digitsValue_fold, fold_zeros.
  now rewrite Z.mul_0_l.
Qed.

Lemma digitsValue_trailing_zeros (m : nat) (s : jsstring) :
  digitsValue (s ++ repeat ZERO m) = (digitsValue s * 10 ^ Z.of_nat m)%Z.
Proof. rewrite digitsValue_app. apply fold_zeros. Qed.

Lemma readUnsigned_integer (a : jsstring) :
  forallb isDigit a = true -> a <> [] ->
  readUnsigned a = Some (scaled (digitsValue a) 0).
Proof.
  intros D Ne. unfold readUnsigned.
  rewrite (takeWhile_all _ _ D), (dropWhile_all _ _ D).
  destruct a; [easy | reflexivity].
Qed.

Lemma readUnsigned_fraction (a b : jsstring) :
  forallb isDigit a = true -> a <> [] ->
  forallb isDigit b = true -> b <> [] ->
  readUnsigned (a ++ DOT :: b)
  = Some (scaled (digitsValue (a ++ b)) (- Z.of_nat (length b))).
Proof.
  intros Da Na Db Nb. unfold readUnsigned.
  destruct (takeWhile_stop isDigit a b DOT Da eq_refl) as [-> ->].
  destruct a as [|x a]; [easy|].
  change ((DOT =? DOT)%N) with true.
  now rewrite Db, (isEmpty_false Nb).
Qed.

Lemma readUnsigned_shift (s : jsstring) (n : Z) :
  cleanDigits s ->
  readUnsigned (shiftText s n)
  = Some (scaled (digitsValue s) (n - Z.of_nat (length s))).
Proof.
  intros C. pose proof (cleanDigits_length C) as Len.
  destruct C as (D & _ & _).
  assert (Ne : s <> []) by (destruct s; [simpl in Len; lia | discriminate]).
  unfold shiftText.
  destruct (Z.leb_spec n 0) as [N0|N0];
    [|destruct (Z.leb_spec (Z.of_nat (length s)) n) as [Nk|Nk]].
  - change (js "0." ++ repeat ZERO (Z.to_nat (- n)) ++ s)
      with ([ZERO] ++ DOT :: repeat ZERO (Z.to_nat (- n)) ++ s).
    rewrite readUnsigned_fraction; try easy.
    + cbn [app]. rewrite digitsValue_leading_zeros.
      rewrite length_app, repeat_length. do 2 f_equal. lia.
    + rewrite forallb_app, D, forallb_repeat; reflexivity.
    + intros E. apply app_eq_nil in E as [_ E]. contradiction.
  - rewrite readUnsigned_integer.
    + rewrite digitsValue_trailing_zeros. unfold scaled.
      assert (P : (0 <=? n - Z.of_nat (length s))%Z = true)
        by (apply Z.leb_le; lia).
      rewrite P. cbn [Z.leb Z.compare]. do 2 f_equal.
      rewrite Z2Nat.id by lia. lia.
    + rewrite forallb_app, D, forallb_repeat; reflexivity.
    + intros E. apply app_eq_nil in E as [E _]. contradiction.
  - cbn [app]. rewrite readUnsigned_fraction.
    + rewrite firstn_skipn, length_skipn. do 2 f_equal. lia.
    + now apply forallb_firstn.
    + intros E. apply (f_equal (@length _)) in E.
      rewrite length_firstn in E. simpl in E. lia.
    + now apply forallb_skipn.
    + apply skipn_nonempty. lia.
Qed.

(** The printed text denotes the number. *)
Lemma plainDecimal_value (x : number) :
  wf x -> isFinite x = true ->
  readDecimal (plainDecimal x) = Some (numberValue x).
Proof.
  destruct x as [|neg|neg|neg digits n]; try discriminate; try reflexivity.
  intros W _. apply cleanDigits_of_wf in W as C.
  cbn [plainDecimal numberValue]. rewrite shiftPoint_text.
  pose proof (readUnsigned_shift n C) as R. rewrite length_map in R.
  destruct (shiftText_head n C) as (c0 & r & Hout & Dc & _).
  destruct neg; cbn [app].
  - cbn [readDecimal]. change ((MINUS =? MINUS)%N) with true. cbv iota.
    now rewrite R.
  - rewrite Hout in *. cbn [readDecimal].
    now rewrite (digit_not_minus _ Dc).
Qed.

(** C2: for every finite number, given by the digits and exponent
    [Number::toString] prints it from, [encodeNumberCanonical] returns those
    digits with the decimal point moved to its place and zeros padded in: a
    text without exponent marker, without redundant leading or trailing
    zeros, with a minus sign exactly for negative numbers, that denotes the
    number.  The four examples of the specification hold. *)
Theorem encodeNumber_plain_decimal (x : number) (W : wf x)
  (F : isFinite x = true) :
  encodeNumberCanonical x = plainDecimal x
  /\ existsb isExpChar (encodeNumberCanonical x) = false
  /\ noRedundantZeros (encodeNumberCanonical x)
  /\ readDecimal (encodeNumberCanonical x) = Some (numberValue x)
  /\ (forall negative digits n, x = Finite negative digits n ->
        startsWith (encodeNumberCanonical x) [MINUS] = negative)
  /\ encodeNumberCanonical (Finite false [1%N] 22)
     = js "1000000000000000000000"
  /\ encodeNumberCanonical (Finite false [1%N; 5%N] (-6)) = js "0.00000015"
  /\ encodeNumberCanonical (Zero true) = js "0"
  /\ encodeNumberCanonical (Finite false [3%N; 1%N] 1) = js "3.1".
Proof.
  rewrite (encodeNumberCanonical_plain x W F).
  split; [reflexivity|].
  split; [now apply plainDecimal_no_exp|].
  split; [now apply plainDecimal_zeros|].
  split; [now apply plainDecimal_value|].
  split; [|repeat split; reflexivity].
  intros negative digits n ->. now apply plainDecimal_sign.
Qed.

Lemma encodeNumber_plain_decimal_witness :
  encodeNumberCanonical (Finite true [1%N; 5%N] (-6)) = js "-0.00000015"
  /\ readDecimal (js "-0.00000015")
     = Some (numberValue (Finite true [1%N; 5%N] (-6))).
Proof.
  assert (W : wf (Finite true [1%N; 5%N] (-6))).
  { repeat split; try discriminate. repeat constructor. }
  destruct (@encodeNumber_plain_decimal (Finite true [1%N; 5%N] (-6)) W
              eq_refl) as (E & _ & _ & V & _).
  split; [exact E | exact V].
Defined.


(* ================================================================= *)
(** ** Checks on the examples of the specification *)

Example encodeToon_team_flags :
  encodeToon 8
    (HPlainObject
       [(js "team", HString (js "platform"));
        (js "flags",
         HArray [Some (HBoolean true); Some (HBoolean false);
                 Some (HBoolean true)])])
    defaultOpts
  = Return (js "team: platform" ++ [LF] ++ js "flags[3]: true,false,true"
            ++ [LF]).
Proof. reflexivity. Qed.

Example encodeToon_inline_numbers :
  encodeToon 8
    (HArray [Some (HNumber (Finite false [1%N] 1));
             Some (HNumber (Finite false [2%N] 1));
             Some (HNumber (Finite false [3%N] 1))])
    defaultOpts
  = Return (js "[3]: 1,2,3" ++ [LF]).
Proof. reflexivity. Qed.

Example encodeToon_users :
  encodeToon 8
    (HArray
       [Some (HPlainObject [(js "id", HNumber (Finite false [1%N] 1));
                            (js "name", HString (js "Ada"))]);
        Some (HPlainObject [(js "id", HNumber (Finite false [2%N] 1));
                            (js "name", HString (js "Lin"))])])
    defaultOpts
  = Return (js "[2]{id,name}:" ++ [LF] ++ js "  1,Ada" ++ [LF]
            ++ js "  2,Lin" ++ [LF]).
Proof. reflexivity. Qed.

Example encodeToon_sanitize_undefined :
  encodeToon 8
    (HPlainObject [(js "a", HUndefined);
                   (js "b", HArray [Some HUndefined])])
    sanitizeOpts
  = Return (js "b[1]: null" ++ [LF]).
Proof. reflexivity. Qed.

Example encodeToon_strict_rejects :
  encodeToon 8 (HArray [Some (HNumber NaN)]) defaultOpts
  = Throw (Error (js "Non-finite number in strict mode"))
  /\ encodeToon 8 (HArray [Some (HNumber NaN)]) sanitizeOpts
     = Return (js "[1]: null" ++ [LF]).
Proof. split; reflexivity. Qed.

Example encodeToon_tab_delimiter :
  encodeToon 8 (HArray [Some (HString (js "a,b")); Some (HString (js "c"))])
    defaultOpts
  = Return (js "[2]: " ++ quoted (js "a,b") ++ [TAB] ++ js "c" ++ [LF]).
Proof. reflexivity. Qed.

(** The array [[1, , 3]] has a hole: strict mode accepts it, and the hole
    prints as an empty cell. *)
Example encodeToon_hole :
  encodeToon 8
    (HArray [Some (HNumber (Finite false [1%N] 1)); None;
             Some (HNumber (Finite false [3%N] 1))])
    defaultOpts
  = Return (js "[3]: 1,,3" ++ [LF]).
Proof. reflexivity. Qed.

(** A hole beside an object: [Object.keys(undefined)] throws. *)
Example encodeToon_hole_beside_object :
  encodeToon 8
    (HArray [Some (HPlainObject [(js "a", HNull)]); None]) defaultOpts
  = Throw TypeError.
Proof. reflexivity. Qed.

(** A negative indent size: [" ".repeat] throws at the first nested
    level. *)
Example encodeToon_negative_indent :
  encodeToon 8 (HPlainObject [(js "a", HPlainObject [(js "b", HNull)])])
    {| sanitizeJs := None; indentSize := Some (-1)%Z |}
  = Throw RangeError
  /\ encodeToon 8 (HPlainObject [(js "a", HNull)])
       {| sanitizeJs := None; indentSize := Some (-1)%Z |}
     = Return (js "a: null" ++ [LF]).
Proof. split; reflexivity. Qed.

(** An own property named [__proto__] is not copied: its value becomes the
    prototype of the copy, which is then no plain object and, as an element
    of an array, is printed as a list item. *)
Example normalize_proto_key :
  normalize 8
    (HPlainObject [(js "__proto__", HPlainObject [(js "a", HNull)]);
                   (js "b", HNull)]) false
  = Return (NObject false [(js "b", NPrim PNull)])
  /\ encodeToon 8
       (HArray
          [Some (HPlainObject
                   [(js "__proto__", HPlainObject [(js "a", HNull)]);
                    (js "b", HNull)])]) defaultOpts
     = Return (js "[1]:" ++ [LF] ++ js "  - b: null" ++ [LF])
  /\ encodeToon 8
       (HArray [Some (HPlainObject [(js "b", HNull)])]) defaultOpts
     = Return (js "[1]{b}:" ++ [LF] ++ js "  null" ++ [LF]).
Proof. repeat split; reflexivity. Qed.

(** An object whose conversion to a string throws an [Error] of its own. *)
Example sanitize_rethrows :
  encodeToon 8 (HOtherObject (Throw (Error (js "boom")))) sanitizeOpts
  = Throw (Error (js "boom")).
Proof. reflexivity. Qed.

Example looksLikeNumber_samples :
  map looksLikeNumber
    [js "0"; js "-12"; js "3.25"; js "1e5"; js "-0.5E+3";
     js "007"; js "+5"; js "1."; js ".5"; js "1e"; js "0x10"]
  = [true; true; true; true; true;
     false; false; false; false; false; false].
Proof. reflexivity. Qed.

Example encodeString_escapes :
  encodeString [LOWER_N; LF; DQUOTE; BACKSLASH; TAB] [COMMA]
  = quoted [LOWER_N; BACKSLASH; LOWER_N; BACKSLASH; DQUOTE;
            BACKSLASH; BACKSLASH; BACKSLASH; LOWER_T].
Proof. reflexivity. Qed.

Example encodeNumber_samples :
  map encodeNumberCanonical
    [Finite true [1%N; 2%N; 5%N] 2;      (* -12.5 *)
     Finite false [5%N] (-22);           (* 5e-23 *)
     Finite false [1%N; 2%N; 3%N] 25;    (* 1.23e24 *)
     Zero false; NaN; Infinity true]
  = [js "-12.5"; js "0.00000000000000000000005";
     js "1230000000000000000000000"; js "0"; js "null"; js "null"].
Proof. reflexivity. Qed.


(* ================================================================= *)
(** * Further properties of the normaliser *)

Lemma positiveZero_finite (n : number) :
  isFinite n = true ->
  isFinite (positiveZero n) && negb (isNegativeZero (positiveZero n)) = true.
Proof. now destruct n as [|neg|[|]|neg ds p]. Qed.

(** What holds of the values without nesting, and is kept by arrays and by
    the assignments that build an object, holds of every value [normalize]
    returns. *)
Lemma normalize_results (Q : Norm -> Prop) :
  (forall v mode r,
     depth v = 0 -> normalize 0 v mode = Return r -> Q r) ->
  Q (NPrim PNull) ->
  (forall out,
     Forall (fun slot => match slot with
                         | Some y => Q y
                         | None => True
                         end) out ->
     Q (NArray out)) ->
  (forall pairs, Forall (fun kv => Q (snd kv)) pairs -> Q (objectOf pairs)) ->
  forall stack v mode r, normalize stack v mode = Return r -> Q r.
Proof.
  intros Leaf Null Arr Obj.
  assert (Step : forall stack,
            (forall x m y, call stack x m = Return y -> Q y) ->
            forall v mode r, normalize stack v mode = Return r -> Q r).
  { intros stack C v mode r.
    destruct v as [| |b|n|s|z| | |iso|items|props|str];
      try (rewrite normalize_leaf by reflexivity; now apply Leaf).
    - rewrite normalize_array.
      destruct (mapM (element stack mode) items) as [out|e] eqn:M;
        [|discriminate].
      intros H. injection H as <-. apply Arr. apply mapM_Return in M.
      induction M as [|slot o xs os Fx _ IH]; constructor; [|exact IH].
      destruct slot as [x|]; cbn [element] in Fx.
      + destruct (mode && isUndefined x); [now injection Fx as <-|].
        destruct (call stack x mode) as [y|e] eqn:E; [|discriminate].
        injection Fx as <-. now apply (C x mode).
      + now injection Fx as <-.
    - rewrite normalize_object.
      destruct (filterMapM (property stack mode) props) as [pairs|e] eqn:M;
        [|discriminate].
      intros H. injection H as <-. apply Obj.
      apply filterMapM_Return in M as (os & M & ->).
      induction M as [|kv o xs os Fx _ IH]; [constructor|].
      unfold property in Fx.
      destruct (mode && isUndefined (snd kv)).
      + injection Fx as <-. exact IH.
      + destruct (call stack (snd kv) mode) as [y|e] eqn:E; [|discriminate].
        injection Fx as <-. cbn [present flat_map app].
        constructor; [now apply (C (snd kv) mode) | exact IH]. }
  induction stack as [|room IH]; apply Step; intros x m y; cbn [call];
    [discriminate | apply IH].
Qed.

Lemma forallb_filter (A : Type) (f g : A -> bool) (l : list A) :
  forallb f l = true -> forallb f (filter g l) = true.
Proof.
  induction l as [|x l IH]; [reflexivity|]. cbn [forallb filter].
  rewrite andb_true_iff. intros [Hx Hl].
  destruct (g x); cbn [forallb]; [rewrite Hx|]; now apply IH.
Qed.

Lemma normalize_numbers (stack : nat) (v : Host) (mode : bool) (r : Norm) :
  normalize stack v mode = Return r -> finiteNumbers r = true.
Proof.
  revert stack v mode r.
  apply (@normalize_results (fun r => finiteNumbers r = true)).
  - intros v mode r D.
    destruct v as [| |b|n|s|z| | |[iso|]|items|props|[str|e]], mode;
      try discriminate; cbn;
      try (intros H; injection H as <-; reflexivity).
    + destruct (isFinite n) eqn:F; cbn; intros H; injection H as <-;
        [now apply positiveZero_finite | reflexivity].
    + destruct (isFinite n) eqn:F; cbn; [|discriminate].
      intros H; injection H as <-. now apply positiveZero_finite.
  - reflexivity.
  - intros out H. cbn [finiteNumbers]. apply forallb_forall.
    rewrite Forall_forall in H. intros slot Hin. specialize (H slot Hin).
    now destruct slot.
  - intros pairs H. destruct (objectOf_fields pairs) as [plain ->].
    cbn [finiteNumbers]. apply forallb_filter. apply forallb_forall.
    rewrite Forall_forall in H. exact H.
Qed.

(** No object [normalize] returns has a field named [__proto__]. *)
Lemma normalize_no_proto (stack : nat) (v : Host) (mode : bool) (j : Json) :
  normalize stack v mode = Return (ofJson j) -> noProtoKey j = true.
Proof.
  intros H.
  assert (G : forall r, normalize stack v mode = Return r ->
              forall j, r = ofJson j -> noProtoKey j = true);
    [|now apply (G _ H)].
  clear j H. revert stack v mode.
  apply (@normalize_results
           (fun r => forall j, r = ofJson j -> noProtoKey j = true)).
  - intros v mode r D H [p|items|fields] E; [reflexivity | |];
      exfalso; subst r;
      destruct v as [| |b|n|s|z| | |[iso|]|xs|props|[str|e]], mode;
      try discriminate; cbn in H; try destruct (isFinite n);
      discriminate.
  - intros [p|items|fields] E; [reflexivity | discriminate..].
  - intros out H [p|items|fields] E; try discriminate.
    cbn [ofJson] in E. injection E as ->. cbn [noProtoKey].
    apply forallb_forall. intros x Hin. rewrite Forall_forall in H.
    apply (H (Some (ofJson x))); [|reflexivity].
    apply in_map_iff. now exists x.
  - intros pairs H [p|items|fields] E.
    + reflexivity.
    + destruct (objectOf_fields pairs) as [plain P]. cbn [ofJson] in E.
      congruence.
    + destruct (objectOf_fields pairs) as [plain P]. rewrite P in E.
      cbn [ofJson] in E. injection E as -> E. cbn [noProtoKey].
      apply forallb_forall. intros kv Hin.
      assert (Hin' : In (fst kv, ofJson (snd kv))
                       (filter (fun kv => negb (isProtoKey (fst kv))) pairs)).
      { rewrite E. apply in_map_iff. now exists kv. }
      apply filter_In in Hin' as [Hp Hk]. cbn [fst] in Hk.
      rewrite Hk. cbn [andb]. rewrite Forall_forall in H.
      now apply (H _ Hp).
Qed.

Lemma toHost_defined (j : Json) : isUndefined (toHost j) = false.
Proof. now destruct j as [[]| |]. Qed.

(** A canonical value without a field named [__proto__], on a stack with
    room for its nesting, is returned as it is. *)
Lemma normalize_toHost (j : Json) :
  finiteNumbers (ofJson j) = true -> noProtoKey j = true ->
  forall stack mode,
    height j <= stack -> normalize stack (toHost j) mode = Return (ofJson j).
Proof.
  induction j as [p|items IH|fields IH] using Json_induction;
    intros F P stack mode L.
  - destruct p as [|b|n|s]; cbn [toHost];
      rewrite normalize_leaf by reflexivity; destruct mode; try reflexivity;
      cbn in *; apply andb_true_iff in F as [F Z]; rewrite F; cbn;
      unfold positiveZero; apply negb_true_iff in Z; now rewrite Z.
  - cbn [toHost]. rewrite normalize_array.
    assert (M : mapM (element stack mode)
                  (map (fun x => Some (toHost x)) items)
                = Return (map (fun x => Some (ofJson x)) items)).
    { apply mapM_Return. cbn [height] in L. cbn [ofJson finiteNumbers] in F.
      cbn [noProtoKey] in P.
      induction items as [|y items IHitems]; [constructor|].
      apply Forall_cons_iff in IH as [IHy IHrest].
      cbn [map forallb] in F. apply andb_true_iff in F as [Fy Frest].
      cbn [forallb] in P. apply andb_true_iff in P as [Py Prest].
      cbn [fold_right] in L.
      cbn [map]. constructor; [|apply IHitems; trivial; lia].
      cbn [element]. rewrite toHost_defined, andb_false_r.
      destruct stack as [|room]; [lia|]. cbn [call].
      rewrite (IHy Fy Py room mode) by lia. reflexivity. }
    rewrite M. reflexivity.
  - cbn [toHost]. rewrite normalize_object.
    assert (M : filterMapM (property stack mode)
                  (map (fun kv => (fst kv, toHost (snd kv))) fields)
                = Return (map (fun kv => (fst kv, ofJson (snd kv))) fields)).
    { apply filterMapM_Return.
      exists (map (fun kv => Some (fst kv, ofJson (snd kv))) fields). split.
      - cbn [height] in L. cbn [ofJson finiteNumbers] in F.
        cbn [noProtoKey] in P.
        induction fields as [|[k y] fields IHfields]; [constructor|].
        apply Forall_cons_iff in IH as [IHy IHrest].
        cbn [map forallb fst snd] in F.
        apply andb_true_iff in F as [Fy Frest].
        cbn [forallb fst snd] in P. apply andb_true_iff in P as [Py Prest].
        apply andb_true_iff in Py as [_ Py].
        cbn [fold_right snd] in L.
        cbn [map]. constructor; [|apply IHfields; trivial; lia].
        unfold property. cbn [fst snd].
        rewrite toHost_defined, andb_false_r.
        destruct stack as [|room]; [lia|]. cbn [call].
        cbn [snd] in IHy. rewrite (IHy Fy Py room mode) by lia. reflexivity.
      - clear. induction fields as [|kv fields IHf]; [reflexivity|].
        cbn [map present flat_map app]. now rewrite IHf. }
    rewrite M. cbn [bind ofJson]. f_equal. apply objectOf_plain.
    cbn [noProtoKey] in P. rewrite forallb_forall in P.
    apply Forall_forall. intros kv Hin.
    apply in_map_iff in Hin as (kv' & <- & Hin). cbn [fst].
    specialize (P kv' Hin). apply andb_true_iff in P as [P _].
    now apply negb_true_iff in P.
Qed.

Lemma strict_defined (stack : nat) (x : Host) (y : Norm) :
  normalize stack x false = Return y -> isUndefined x = false.
Proof.
  destruct x; trivial. rewrite normalize_leaf by reflexivity. discriminate.
Qed.

Lemma strict_then_sanitize (stack : nat) :
  forall v r, normalize stack v false = Return r ->
              normalize stack v true = Return r.
Proof.
  assert (Step : forall stack,
            (forall x y, call stack x false = Return y ->
                         call stack x true = Return y) ->
            forall v r, normalize stack v false = Return r ->
                        normalize stack v true = Return r).
  { clear stack. intros stack C v r.
    destruct v as [| |b|n|s|z| | |iso|items|props|str];
      try (intros H; rewrite normalize_leaf in H by reflexivity;
           rewrite normalize_leaf by reflexivity; revert H; cbn;
           try destruct (isFinite n); cbn;
           first [discriminate | trivial]).
    - rewrite !normalize_array.
      destruct (mapM (element stack false) items) as [out|e] eqn:M;
        cbn [bind]; [|discriminate].
      intros H; injection H as <-. apply mapM_Return in M.
      assert (M' : mapM (element stack true) items = Return out).
      { apply mapM_Return.
        induction M as [|slot o xs os Fx _ IHM]; constructor; [|exact IHM].
        destruct slot as [x|]; [|exact Fx]. cbn [element andb] in *.
        destruct (call stack x false) as [y|e] eqn:E; [|discriminate].
        assert (U : isUndefined x = false).
        { destruct stack as [|room]; [discriminate|].
          now apply strict_defined in E. }
        rewrite U, (C x y E). exact Fx. }
      now rewrite M'.
    - rewrite !normalize_object.
      destruct (filterMapM (property stack false) props) as [out|e] eqn:M;
        cbn [bind]; [|discriminate].
      intros H; injection H as <-.
      apply filterMapM_Return in M as (os & M & ->).
      assert (M' : filterMapM (property stack true) props
                   = Return (present os)).
      { apply filterMapM_Return. exists os. split; [|reflexivity].
        induction M as [|kv o xs os' Fx _ IHM]; constructor; [|exact IHM].
        unfold property in *. cbn [andb] in *.
        destruct (call stack (snd kv) false) as [y|e] eqn:E; [|discriminate].
        assert (U : isUndefined (snd kv) = false).
        { destruct stack as [|room]; [discriminate|].
          now apply strict_defined in E. }
        rewrite U, (C (snd kv) y E). exact Fx. }
      now rewrite M'. }
  induction stack as [|room IH]; apply Step; intros x y; cbn [call];
    [discriminate | apply IH].
Qed.

Lemma present_keys (stack : nat) (mode : bool)
  (props : list (jsstring * Host)) (os : list (option (jsstring * Norm))) :
  Forall2 (fun kv o => property stack mode kv = Return o) props os ->
  map fst (present os) = map fst (keptFields mode props).
Proof.
  induction 1 as [|kv o xs os' Fx _ IH]; [reflexivity|].
  unfold keptFields in *. cbn [filter present flat_map].
  unfold property in Fx.
  destruct (mode && isUndefined (snd kv)); cbn [negb].
  - injection Fx as <-. exact IH.
  - destruct (call stack (snd kv) mode) as [v|e]; [|discriminate].
    cbn [bind] in Fx. injection Fx as <-. cbn. now rewrite <- IH.
Qed.

Lemma NoDup_filter_keys (f : jsstring -> bool) (keys : list jsstring) :
  NoDup keys -> NoDup (filter f keys).
Proof.
  induction keys as [|k keys IH]; cbn [filter]; [trivial|].
  intros H. apply NoDup_cons_iff in H as [Hin H].
  destruct (f k); [|now apply IH].
  apply NoDup_cons; [|now apply IH].
  intros Hk. apply filter_In in Hk as [Hk _]. now apply Hin.
Qed.

Lemma NoDup_kept (mode : bool) (props : list (jsstring * Host)) :
  NoDup (map fst props) -> NoDup (map fst (keptFields mode props)).
Proof.
  unfold keptFields. induction props as [|kv props IH]; simpl; [trivial|].
  intros H. apply NoDup_cons_iff in H as [Hin H].
  destruct (negb _); [|now apply IH]. simpl.
  apply NoDup_cons; [|now apply IH].
  intros Hk. apply Hin. apply in_map_iff in Hk as (kv' & E & Hf).
  apply filter_In in Hf as [Hf _]. apply in_map_iff. now exists kv'.
Qed.

Lemma map_fst_filter (B : Type) (f : jsstring -> bool)
  (pairs : list (jsstring * B)) :
  map fst (filter (fun kv => f (fst kv)) pairs) = filter f (map fst pairs).
Proof.
  induction pairs as [|kv pairs IH]; [reflexivity|].
  cbn [filter map]. destruct (f (fst kv)); cbn [map]; now rewrite IH.
Qed.

(** X1: whatever [normalize] returns, in either mode and on any stack,
    holds only finite numbers and no negative zero. *)
Theorem normalize_yields_finite_numbers (stack : nat) (v : Host)
  (mode : bool) (r : Norm) (H : normalize stack v mode = Return r) :
  finiteNumbers r = true.
Proof. revert H. apply normalize_numbers. Qed.

Lemma normalize_yields_finite_numbers_witness :
  finiteNumbers
    (NArray [Some (NPrim PNull); Some (NPrim (PNumber (Zero false))); None;
             Some (NObject true
                     [(js "x", NPrim (PNumber (Finite true [5%N] 1)))])])
  = true.
Proof.
  apply (@normalize_yields_finite_numbers 4
           (HArray [Some (HNumber (Infinity false));
                    Some (HNumber (Zero true)); None;
                    Some (HPlainObject
                            [(js "x", HNumber (Finite true [5%N] 1));
                             (js "y", HUndefined)])])
           true).
  reflexivity.
Defined.

(** X2: normalisation is idempotent on canonical values: when [normalize]
    returns a value without holes whose objects all kept their prototype,
    that value, handed to [normalize] again in either mode on a stack with
    room for its nesting, is returned unchanged. *)
Theorem normalize_idempotent (stack : nat) (v : Host) (mode : bool)
  (j : Json) (H : normalize stack v mode = Return (ofJson j)) :
  forall stack' mode',
    height j <= stack' ->
    normalize stack' (toHost j) mode' = Return (ofJson j).
Proof.
  intros stack' mode' L. apply normalize_toHost; [| |exact L].
  - revert H. apply normalize_numbers.
  - revert H. apply normalize_no_proto.
Qed.

Lemma normalize_idempotent_witness :
  normalize 1
    (toHost (JArray [JPrim PNull; JPrim (PString (js "2020"))])) false
  = Return (ofJson (JArray [JPrim PNull; JPrim (PString (js "2020"))])).
Proof.
  apply (@normalize_idempotent 1
           (HArray [Some HUndefined; Some (HDate (Some (js "2020")))]) true
           (JArray [JPrim PNull; JPrim (PString (js "2020"))])).
  - reflexivity.
  - cbn. lia.
Defined.

(** X3: on an input strict mode accepts, sanitize mode returns the same
    value, so [encodeToon] gives the same outcome in both modes. *)
Theorem strict_and_sanitize_agree (stack : nat) (v : Host) (r : Norm)
  (H : normalize stack v false = Return r) :
  normalize stack v true = Return r
  /\ (forall size,
        encodeToon stack v {| sanitizeJs := Some true; indentSize := size |}
        = encodeToon stack v
            {| sanitizeJs := Some false; indentSize := size |})
  /\ (forall size,
        encodeToon stack v {| sanitizeJs := Some true; indentSize := size |}
        = encodeToon stack v {| sanitizeJs := None; indentSize := size |}).
Proof.
  pose proof (@strict_then_sanitize stack v r H) as S.
  split; [exact S|].
  split; intros size; rewrite !encodeToon_cases; unfold modeOf, indentOf;
    cbn [sanitizeJs indentSize]; now rewrite H, S.
Qed.

Lemma strict_and_sanitize_agree_witness :
  normalize 1
    (HArray [Some (HNumber (Zero true)); None; Some (HString (js "a"))]) true
  = Return (NArray [Some (NPrim (PNumber (Zero false))); None;
                    Some (NPrim (PString (js "a")))]).
Proof.
  apply (@strict_and_sanitize_agree 1
           (HArray [Some (HNumber (Zero true)); None;
                    Some (HString (js "a"))])).
  reflexivity.
Defined.

(** X4: in sanitize mode [normalize] throws on every input that holds, at
    the top or inside arrays and plain objects, a [Date] whose
    [toISOString] throws or an object whose [String] conversion throws;
    what it throws is the exception of such a conversion inside the input,
    or the stack error of the host when the input is nested deeper than the
    stack has room; with that room, it throws on those inputs only. *)
Theorem sanitize_throws_exactly (stack : nat) (v : Host) :
  (Unprintable v -> exists e, normalize stack v true = Throw e)
  /\ (forall e, normalize stack v true = Throw e ->
        Raises v e \/ (e = StackExhausted /\ stack < depth v))
  /\ (depth v <= stack ->
      ((exists e, normalize stack v true = Throw e) <-> Unprintable v)
      /\ (forall e, normalize stack v true = Throw e -> Raises v e)).
Proof.
  pose proof (sanitize_outcome stack v) as O. unfold sanitizeOutcome in O.
  split; [|split].
  - intros U. destruct (normalize stack v true) as [r|e]; [easy | eauto].
  - intros e E. now rewrite E in O.
  - intros D.
    assert (T : forall e, normalize stack v true = Throw e -> Raises v e).
    { intros e E. rewrite E in O. destruct O as [R | [_ L]]; [exact R | lia]. }
    split; [split|exact T].
    + intros [e E]. apply T in E. now apply Raises_Unprintable in E.
    + intros U. destruct (normalize stack v true) as [r|e]; [easy | eauto].
Qed.

(** X5: an array is normalised to an array of the same length, slot by
    slot: a hole stays a hole at its index, an element is normalised by a
    call one frame further down, and in sanitize mode an [undefined]
    element becomes null at the same index, without a call. *)
Theorem normalize_array_alignment (stack : nat) (items : list (option Host))
  (mode : bool) (r : Norm)
  (H : normalize stack (HArray items) mode = Return r) :
  exists out,
    r = NArray out
    /\ length out = length items
    /\ (forall i slot o,
          nth_error items i = Some slot -> nth_error out i = Some o ->
          match slot, o with
          | None, None => True
          | Some x, Some y =>
              if mode && isUndefined x then y = NPrim PNull
              else exists room,
                     stack = S room /\ normalize room x mode = Return y
          | _, _ => False
          end).
Proof.
  rewrite normalize_array in H.
  destruct (mapM (element stack mode) items) as [out|e] eqn:M;
    [|discriminate].
  injection H as <-. exists out. apply mapM_Return in M.
  split; [reflexivity|]. split.
  - symmetry. exact (Forall2_length M).
  - induction M as [|x0 y0 xs ys Fx _ IH]; intros [|i] slot o Hx Hy;
      try discriminate.
    + cbn in Hx, Hy. injection Hx as <-. injection Hy as <-.
      destruct x0 as [x|]; cbn [element] in Fx.
      * destruct (mode && isUndefined x); [now injection Fx as <-|].
        destruct stack as [|room]; [discriminate|]. cbn [call] in Fx.
        destruct (normalize room x mode) as [y|e] eqn:E; [|discriminate].
        injection Fx as <-. now exists room.
      * now injection Fx as <-.
    + now apply (IH i).
Qed.

Lemma normalize_array_alignment_witness :
  exists out,
    NArray [Some (NPrim (PBoolean true)); None; Some (NPrim PNull)]
    = NArray out
    /\ length out = 3
    /\ (forall i slot o,
          nth_error [Some (HBoolean true); None; Some HUndefined] i
          = Some slot ->
          nth_error out i = Some o ->
          match slot, o with
          | None, None => True
          | Some x, Some y =>
              if true && isUndefined x then y = NPrim PNull
              else exists room,
                     1 = S room /\ normalize room x true = Return y
          | _, _ => False
          end).
Proof.
  apply (@normalize_array_alignment 1
           [Some (HBoolean true); None; Some HUndefined] true).
  reflexivity.
Defined.

(** X6: a plain object is normalised to an object whose keys are, in the
    same order, the keys of the input other than [__proto__] (in sanitize
    mode: those whose value is not [undefined]); no key of the result is
    [__proto__]; the result keeps its prototype when the input has no key
    [__proto__]; distinct keys stay distinct. *)
Theorem normalize_object_keys (stack : nat) (props : list (jsstring * Host))
  (mode : bool) (r : Norm)
  (H : normalize stack (HPlainObject props) mode = Return r) :
  exists plain fields,
    r = NObject plain fields
    /\ map fst fields
       = filter (fun k => negb (isProtoKey k))
           (map fst (keptFields mode props))
    /\ (forall k, In k (map fst fields) -> isProtoKey k = false)
    /\ (existsb isProtoKey (map fst props) = false -> plain = true)
    /\ (NoDup (map fst props) -> NoDup (map fst fields)).
Proof.
  rewrite normalize_object in H.
  destruct (filterMapM (property stack mode) props) as [pairs|e] eqn:M;
    [|discriminate].
  injection H as <-.
  apply filterMapM_Return in M as (os & M & ->).
  pose proof (@present_keys stack mode props os M) as K.
  destruct (objectOf_fields (present os)) as [plain P].
  assert (Keys : map fst (filter (fun kv => negb (isProtoKey (fst kv)))
                            (present os))
                 = filter (fun k => negb (isProtoKey k))
                     (map fst (keptFields mode props))).
  { rewrite <- K.
    apply (@map_fst_filter Norm (fun k => negb (isProtoKey k))). }
  assert (Plain : existsb isProtoKey (map fst props) = false ->
                  objectOf (present os) = NObject true (present os)).
  { intros E. apply objectOf_plain. apply Forall_forall. intros kv Hin.
    assert (Hk : In (fst kv) (map fst props)).
    { assert (Hk : In (fst kv) (map fst (keptFields mode props))).
      { rewrite <- K. now apply in_map. }
      apply in_map_iff in Hk as (kv' & E' & Hf).
      apply filter_In in Hf as [Hf _]. apply in_map_iff. now exists kv'. }
    destruct (isProtoKey (fst kv)) eqn:Pk; [|reflexivity].
    assert (T : existsb isProtoKey (map fst props) = true).
    { apply existsb_exists. now exists (fst kv). }
    congruence. }
  exists plain, (filter (fun kv => negb (isProtoKey (fst kv))) (present os)).
  split; [exact P|]. split; [exact Keys|]. split; [|split].
  - intros k Hin. rewrite Keys in Hin. apply filter_In in Hin as [_ Hk].
    now apply negb_true_iff in Hk.
  - intros E. specialize (Plain E). rewrite P in Plain.
    now injection Plain as ->.
  - intros U. rewrite Keys. apply NoDup_filter_keys. now apply NoDup_kept.
Qed.

Lemma normalize_object_keys_witness :
  exists plain fields,
    NObject true [(js "b", NPrim PNull)] = NObject plain fields
    /\ map fst fields
       = filter (fun k => negb (isProtoKey k))
           (map fst (keptFields true [(js "a", HUndefined); (js "b", HNull)]))
    /\ (forall k, In k (map fst fields) -> isProtoKey k = false)
    /\ (existsb isProtoKey
          (map fst [(js "a", HUndefined); (js "b", HNull)]) = false ->
        plain = true)
    /\ (NoDup (map fst [(js "a", HUndefined); (js "b", HNull)]) ->
        NoDup (map fst fields)).
Proof.
  apply (@normalize_object_keys 1 [(js "a", HUndefined); (js "b", HNull)]
           true).
  reflexivity.
Defined.

(** ** Canonical inputs *)

Lemma encodeToon_canonical (j : Json) (stack : nat) (mode : option bool)
  (n : nat) :
  finiteNumbers (ofJson j) = true -> noProtoKey j = true ->
  2 * height j <= stack ->
  encodeToon stack (toHost j)
    {| sanitizeJs := mode; indentSize := Some (Z.of_nat n) |}
  = Return (stripLineEnds (render j n) ++ [LF]).
Proof.
  intros F P L. rewrite encodeToon_cases.
  rewrite (@normalize_toHost j F P stack) by lia. cbn [bind].
  destruct (rendering_canonical j stack n) as [_ R].
  change (indentOf {| sanitizeJs := mode; indentSize := Some (Z.of_nat n) |})
    with (Z.of_nat n).
  rewrite (R L). reflexivity.
Qed.

(** X19: on a canonical value (finite numbers, no negative zero, no field
    named [__proto__]), with a natural indent size and a stack that has
    room for two calls at each level of nesting, [encodeToon] returns, in
    either mode, the rendering of the value with the blanks at the end of
    its lines removed and a newline appended; whatever the stack, the text
    the run builds is that rendering unless the stack is exhausted. *)
Theorem encodeToon_on_canonical_values (j : Json) (stack : nat)
  (mode : option bool) (n : nat)
  (F : finiteNumbers (ofJson j) = true) (P : noProtoKey j = true) :
  (2 * height j <= stack ->
   encodeToon stack (toHost j)
     {| sanitizeJs := mode; indentSize := Some (Z.of_nat n) |}
   = Return (stripLineEnds (render j n) ++ [LF]))
  /\ (rendering stack (ofJson j) (Z.of_nat n) = Return (render j n)
      \/ rendering stack (ofJson j) (Z.of_nat n) = Throw StackExhausted).
Proof.
  split.
  - now apply encodeToon_canonical.
  - apply rendering_canonical.
Qed.

Lemma encodeToon_on_canonical_values_witness :
  encodeToon 6 (toHost (JObject [(js "users", JArray users)]))
    {| sanitizeJs := None; indentSize := Some 2%Z |}
  = Return (stripLineEnds (render (JObject [(js "users", JArray users)]) 2)
            ++ [LF]).
Proof.
  refine (proj1 (@encodeToon_on_canonical_values
                   (JObject [(js "users", JArray users)]) 6 None 2 _ _) _);
    first [reflexivity | cbn; lia].
Defined.


(** * Further properties of the tokens *)

Lemma unescape_escapeChar (c : code_unit) (r : jsstring) :
  unescape (escapeChar c ++ r) = c :: unescape r.
Proof.
  unfold escapeChar.
  destruct (N.eqb_spec c BACKSLASH) as [->|Hb]; [reflexivity|].
  destruct (N.eqb_spec c DQUOTE) as [->|Hq]; [reflexivity|].
  destruct (N.eqb_spec c LF) as [->|Hn]; [reflexivity|].
  destruct (N.eqb_spec c CR) as [->|Hr]; [reflexivity|].
  destruct (N.eqb_spec c TAB) as [->|Ht]; [reflexivity|].
  cbn [app unescape]. apply N.eqb_neq in Hb. now rewrite Hb.
Qed.

Lemma unescape_escaped (s : jsstring) : unescape (flat_map escapeChar s) = s.
Proof.
  induction s as [|c s IH]; [reflexivity|].
  cbn [flat_map]. now rewrite unescape_escapeChar, IH.
Qed.

Lemma removelast_last (A : Type) (l : list A) (x : A) :
  removelast (l ++ [x]) = l.
Proof. now rewrite removelast_app, app_nil_r. Qed.

Lemma unquote_quoted (s : jsstring) :
  unquote (quoted (flat_map escapeChar s)) = s.
Proof.
  unfold unquote, quoted. change ((DQUOTE =? DQUOTE)%N) with true. cbv iota.
  now rewrite removelast_last, unescape_escaped.
Qed.

(** The tests of [needsQuotes] that a string returned as it is has passed. *)
Lemma unquoted_string (s delimiter : jsstring) :
  needsQuotes s delimiter = false ->
  s <> []
  /\ (forall c, In c s -> isStructural c = false /\ c <> TAB)
  /\ (forall t, s <> MINUS :: t)
  /\ looksLikeNumber s = false
  /\ s <> js "true" /\ s <> js "false" /\ s <> js "null".
Proof.
  rewrite needsQuotes_tests. rewrite !orb_false_iff.
  intros (E & _ & ((T & F) & Nl) & Num & (_ & Min) & Ctl & (Q & B) & Col & _
          & Com & Tab).
  split; [|split; [|split; [|split; [exact Num|]]]].
  - intros ->. discriminate.
  - intros c Hin. split.
    + unfold isStructural. rewrite !orb_false_iff.
      assert (Ctl' : (c <? 32)%N = false).
      { destruct (c <? 32)%N eqn:L; [|reflexivity].
        rewrite <- Ctl. symmetry. apply existsb_exists. now exists c. }
      repeat split; trivial; apply N.eqb_neq; intros ->;
        [apply includes_char_false in Q | apply includes_char_false in B
        | apply includes_char_false in Col
        | apply includes_char_false in Com]; contradiction.
    + intros ->. apply includes_char_false in Tab. contradiction.
  - intros t ->. discriminate.
  - repeat split; intros ->; discriminate.
Qed.

Lemma unquote_encodeString (s delimiter : jsstring) :
  unquote (encodeString s delimiter) = s.
Proof.
  unfold encodeString. destruct (needsQuotes s delimiter) eqn:Q.
  - rewrite escapeQuoted_chars. apply unquote_quoted.
  - apply unquoted_string in Q as (Ne & Safe & _).
    destruct s as [|c s]; [easy|]. unfold unquote.
    destruct (Safe c (or_introl eq_refl)) as [S _].
    unfold isStructural in S. rewrite !orb_false_iff in S.
    destruct S as ((((_ & Dq) & _) & _) & _). now rewrite Dq.
Qed.

(** X7: a string token can be read back: unescaping between the quotes, or
    taking an unquoted token as it is, returns the string that was encoded;
    so two different strings never have the same token. *)
Theorem encodeString_round_trip (s delimiter : jsstring) :
  unquote (encodeString s delimiter) = s
  /\ unescape (escapeQuoted s) = s
  /\ (forall t, encodeString s delimiter = encodeString t delimiter
                <-> s = t)
  /\ (forall t, escapeQuoted s = escapeQuoted t <-> s = t).
Proof.
  split; [apply unquote_encodeString|].
  split; [rewrite escapeQuoted_chars; apply unescape_escaped|].
  split; intros t; (split; [|now intros ->]); intros E.
  - rewrite <- (unquote_encodeString s delimiter), E.
    apply unquote_encodeString.
  - rewrite !escapeQuoted_chars in E.
    rewrite <- (unescape_escaped s), E. apply unescape_escaped.
Qed.

(** *** The text of a number *)

Lemma Matches_digits (ds : jsstring) :
  forallb isDigit ds = true -> Matches (Star Digit) ds.
Proof.
  induction ds as [|c ds IH]; simpl; [constructor|].
  intros H. apply andb_true_iff in H as [Hc H].
  apply (MStarCons (s := [c])); [now constructor | now apply IH].
Qed.

Lemma Matches_digits_plus (ds : jsstring) :
  forallb isDigit ds = true -> ds <> [] -> Matches (Plus Digit) ds.
Proof.
  destruct ds as [|c ds]; [easy|]. simpl. intros H _.
  apply andb_true_iff in H as [Hc H].
  apply (MCat (s := [c])); [now constructor | now apply Matches_digits].
Qed.

(** An integer part without leading zero, followed by nothing or by a
    fraction, matches the number pattern. *)
Lemma Matches_plain_number (int frac : jsstring) :
  (int = [ZERO]
   \/ exists c rest, int = c :: rest /\ isDigit c = true
                     /\ isZeroChar c = false /\ forallb isDigit rest = true) ->
  (frac = []
   \/ exists ds, frac = DOT :: ds /\ ds <> [] /\ forallb isDigit ds = true) ->
  Matches numberPattern (int ++ frac).
Proof.
  intros Hint Hfrac. unfold numberPattern.
  apply (MCat (s := [])); [apply MAltR; constructor|].
  apply MCat.
  - destruct Hint as [-> | (c & rest & -> & Dc & Zc & Dr)].
    + apply MAltL. now constructor.
    + apply MAltR. apply (MCat (s := [c])).
      * constructor. chars.
      * now apply Matches_digits.
  - rewrite <- (app_nil_r frac). apply MCat; [|apply MAltR; constructor].
    destruct Hfrac as [-> | (ds & -> & Ne & Dd)].
    + apply MAltR. constructor.
    + apply MAltL. apply (MCat (s := [DOT])); [now constructor|].
      now apply Matches_digits_plus.
Qed.

Lemma shiftText_looksLikeNumber (s : jsstring) (n : Z) :
  cleanDigits s -> looksLikeNumber (shiftText s n) = true.
Proof.
  intros C. pose proof (cleanDigits_length C) as Len.
  destruct C as (D & (c & rest & -> & Hc) & _).
  pose proof D as D'. cbn [forallb] in D'.
  apply andb_true_iff in D' as [Dc Drest].
  apply test_Matches. unfold shiftText.
  destruct (Z.leb_spec n 0) as [N0|N0];
    [|destruct (Z.leb_spec (Z.of_nat (length (c :: rest))) n) as [Nk|Nk]].
  - change (js "0." ++ repeat ZERO (Z.to_nat (- n)) ++ c :: rest)
      with ([ZERO] ++ DOT :: repeat ZERO (Z.to_nat (- n)) ++ c :: rest).
    apply Matches_plain_number; [now left|]. right. eexists.
    split; [reflexivity|]. split.
    + intros E. apply app_eq_nil in E as [_ E]. discriminate.
    + rewrite forallb_app, D. now rewrite forallb_repeat.
  - rewrite <- (app_nil_r (_ ++ _)).
    apply Matches_plain_number; [|now left]. right.
    exists c, (rest ++ repeat ZERO (Z.to_nat (n - Z.of_nat (length (c :: rest))))).
    repeat split; trivial.
    rewrite forallb_app, Drest. now rewrite forallb_repeat.
  - assert (P : exists m, Z.to_nat n = S m /\ S m < length (c :: rest)).
    { exists (Nat.pred (Z.to_nat n)). lia. }
    destruct P as (m & -> & Hm).
    apply Matches_plain_number.
    + right. exists c, (firstn m rest). repeat split; trivial.
      now apply forallb_firstn.
    + right. eexists. split; [reflexivity|]. split.
      * now apply skipn_nonempty.
      * now apply forallb_skipn.
Qed.

(** The text of a number, taken as a string, would be quoted. *)
Lemma number_text_needs_quotes (x : number) (delimiter : jsstring) :
  wf x -> needsQuotes (encodeNumberCanonical x) delimiter = true.
Proof.
  intros W. destruct x as [|neg|neg|neg digits n]; try reflexivity.
  { now destruct neg. }
  rewrite (encodeNumberCanonical_plain _ W eq_refl).
  apply cleanDigits_of_wf in W as C. cbn [plainDecimal].
  rewrite shiftPoint_text, needsQuotes_tests.
  destruct neg; cbn [app].
  - change (startsWith (MINUS :: ?t) (js "-")) with true.
    now rewrite !orb_true_r.
  - rewrite (shiftText_looksLikeNumber n C). now rewrite !orb_true_r.
Qed.

Lemma shiftText_chars (s : jsstring) (n : Z) (c : code_unit) :
  forallb isDigit s = true -> In c (shiftText s n) ->
  isDigit c = true \/ c = DOT.
Proof.
  intros D. rewrite forallb_forall in D. unfold shiftText.
  assert (Zs : forall m, In c (repeat ZERO m) -> isDigit c = true).
  { intros m H. apply repeat_spec in H. now subst. }
  destruct (n <=? 0)%Z; [|destruct (_ <=? n)%Z]; intros H.
  - change (js "0.") with [ZERO; DOT] in H. cbn [app] in H.
    destruct H as [<- | [<- | H]]; [now left | now right |].
    apply in_app_iff in H as [H | H]; left; eauto.
  - apply in_app_iff in H as [H | H]; left; eauto.
  - apply in_app_iff in H as [H | [<- | H]]; auto; left; apply D;
      rewrite <- (firstn_skipn (Z.to_nat n) s); apply in_or_app; auto.
Qed.

Lemma number_text_chars (x : number) (c : code_unit) :
  wf x -> isFinite x = true -> In c (plainDecimal x) ->
  isDigit c = true \/ c = DOT \/ c = MINUS.
Proof.
  destruct x as [|neg|neg|neg digits n]; try discriminate.
  { intros _ _ [<- | []]. now left. }
  intros W _ H. apply cleanDigits_of_wf in W as (D & _).
  cbn [plainDecimal] in H. rewrite shiftPoint_text in H.
  apply in_app_iff in H as [H | H].
  - destruct neg; [|easy]. destruct H as [<- | []]. auto.
  - destruct (@shiftText_chars _ _ _ D H); auto.
Qed.

(** *** The digits and the exponent can be read back *)

Lemma takeWhile_zeros (z : nat) (s : jsstring) (c : code_unit) :
  isZeroChar c = false ->
  takeWhile isZeroChar (repeat ZERO z ++ c :: s) = repeat ZERO z
  /\ dropWhile isZeroChar (repeat ZERO z ++ c :: s) = c :: s.
Proof.
  intros Hc. apply takeWhile_stop; [|exact Hc]. now apply forallb_repeat.
Qed.

Lemma rev_zeros (c : code_unit) (z : nat) : rev (repeat c z) = repeat c z.
Proof. unfold repeat. apply List.rev_repeat. Qed.

Lemma dropZerosEnd_zeros (s : jsstring) (z : nat) :
  endsInNonZeroDigit s = true -> dropZerosEnd (s ++ repeat ZERO z) = s.
Proof.
  intros E. unfold dropZerosEnd, endsInNonZeroDigit in *.
  rewrite rev_app_distr, rev_zeros.
  destruct (rev s) as [|l r] eqn:R; [discriminate|].
  apply andb_true_iff in E as [_ E]. apply negb_true_iff in E.
  destruct (takeWhile_zeros z r l E) as [_ ->].
  rewrite <- R. apply rev_involutive.
Qed.

Lemma readShift_nonzero (c : code_unit) (t : jsstring) :
  isDigit c = true -> isZeroChar c = false ->
  readShift (c :: t)
  = if includes (c :: t) [DOT] then
      (takeWhile isDigit (c :: t) ++ tl (dropWhile isDigit (c :: t)),
       Z.of_nat (length (takeWhile isDigit (c :: t))))
    else (dropZerosEnd (c :: t), Z.of_nat (length (c :: t))).
Proof.
  intros Dc Zc. destruct t as [|d t].
  - unfold readShift. cbn [includes startsWith].
    now rewrite (digit_not_dot _ Dc).
  - unfold readShift. now rewrite Zc.
Qed.

Lemma readShift_shiftText (s : jsstring) (n : Z) :
  cleanDigits s -> readShift (shiftText s n) = (s, n).
Proof.
  intros C. pose proof (cleanDigits_length C) as Len.
  destruct C as (D & (c & rest & -> & Hc) & E).
  pose proof D as D'. cbn [forallb] in D'.
  apply andb_true_iff in D' as [Dc Drest].
  unfold shiftText.
  destruct (Z.leb_spec n 0) as [N0|N0];
    [|destruct (Z.leb_spec (Z.of_nat (length (c :: rest))) n) as [Nk|Nk]].
  - change (js "0." ++ repeat ZERO (Z.to_nat (- n)) ++ c :: rest)
      with (ZERO :: DOT :: repeat ZERO (Z.to_nat (- n)) ++ c :: rest).
    unfold readShift. change (isZeroChar ZERO && (DOT =? DOT)%N) with true.
    cbv iota.
    destruct (takeWhile_zeros (Z.to_nat (- n)) rest c Hc) as [-> ->].
    rewrite repeat_length. f_equal. lia.
  - set (z := Z.to_nat (n - Z.of_nat (length (c :: rest)))).
    assert (Nd : includes ((c :: rest) ++ repeat ZERO z) [DOT] = false).
    { apply includes_char_false. intros H.
      apply in_app_iff in H as [H | H].
      - now apply (digits_no_dot _ D).
      - apply repeat_spec in H. discriminate. }
    cbn [app] in *. rewrite (@readShift_nonzero c _ Dc Hc), Nd.
    change (c :: rest ++ repeat ZERO z) with ((c :: rest) ++ repeat ZERO z).
    rewrite (@dropZerosEnd_zeros _ z E), length_app, repeat_length.
    f_equal. subst z. lia.
  - assert (P : exists m, Z.to_nat n = S m /\ S m < length (c :: rest)).
    { exists (Nat.pred (Z.to_nat n)). lia. }
    destruct P as (m & Em & Hm). rewrite Em.
    assert (Da : forallb isDigit (firstn (S m) (c :: rest)) = true)
      by now apply forallb_firstn.
    destruct (takeWhile_stop isDigit _ (skipn (S m) (c :: rest)) DOT Da
                eq_refl) as [T Dr].
    assert (Id : includes (firstn (S m) (c :: rest)
                           ++ DOT :: skipn (S m) (c :: rest)) [DOT] = true).
    { apply includes_char, in_app_iff. right. now left. }
    change (firstn (S m) (c :: rest) ++ [DOT] ++ skipn (S m) (c :: rest))
      with (firstn (S m) (c :: rest) ++ DOT :: skipn (S m) (c :: rest)).
    revert T Dr Id. cbn [firstn app]. intros T Dr Id.
    rewrite (@readShift_nonzero c _ Dc Hc), Id, T, Dr. cbn [tl].
    change (c :: firstn m rest) with (firstn (S m) (c :: rest)).
    rewrite firstn_skipn, length_firstn. f_equal. lia.
Qed.

Lemma digitChar_injective (ds ds' : list N) :
  map digitChar ds = map digitChar ds' -> ds = ds'.
Proof.
  revert ds'; induction ds as [|d ds IH]; intros [|d' ds']; simpl;
    try discriminate; trivial.
  intros H. injection H as Hd H. unfold digitChar in Hd.
  apply N.add_cancel_l in Hd. subst. f_equal. now apply IH.
Qed.

Lemma canonical_number_text (n : number) :
  canonicalPrimitive (PNumber n) ->
  encodeNumberCanonical n = plainDecimal n
  /\ (n = Zero false \/ exists neg ds e, n = Finite neg ds e /\ wfDigits ds).
Proof.
  intros (F & Z & W). split; [now apply encodeNumberCanonical_plain|].
  destruct n as [|neg|[|]|neg ds e]; try discriminate; [now left|].
  right. now exists neg, ds, e.
Qed.

Lemma plainDecimal_finite_head (neg : bool) (ds : list N) (e : Z) :
  wfDigits ds ->
  exists c r, shiftText (map digitChar ds) e = c :: r /\ isDigit c = true
              /\ (isZeroChar c = true -> r <> []).
Proof.
  intros W. apply cleanDigits_of_wf in W as C.
  destruct (shiftText_head e C) as (c & r & E & Dc & Hz).
  exists c, r. repeat split; trivial.
  intros Zc ->. destruct (Hz Zc) as [r' Hr]. discriminate.
Qed.

(** Two finite numbers with the same text are the same number. *)
Lemma number_text_injective (x y : number) :
  canonicalPrimitive (PNumber x) -> canonicalPrimitive (PNumber y) ->
  encodeNumberCanonical x = encodeNumberCanonical y -> x = y.
Proof.
  intros Cx Cy.
  destruct (canonical_number_text Cx) as [-> Sx].
  destruct (canonical_number_text Cy) as [-> Sy].
  destruct Sx as [-> | (neg & ds & e & -> & W)];
    destruct Sy as [-> | (neg' & ds' & e' & -> & W')]; trivial;
    cbn [plainDecimal]; rewrite ?shiftPoint_text.
  - destruct (plainDecimal_finite_head neg' e' W') as (c & r & -> & Dc & Hz).
    destruct neg'; cbn [app]; intros H; [discriminate|].
    injection H as <- <-. now contradiction (Hz eq_refl).
  - destruct (plainDecimal_finite_head neg e W) as (c & r & -> & Dc & Hz).
    destruct neg; cbn [app]; intros H; [discriminate|].
    injection H as -> ->. now contradiction (Hz eq_refl).
  - pose proof (readShift_shiftText e (cleanDigits_of_wf W)) as R.
    pose proof (readShift_shiftText e' (cleanDigits_of_wf W')) as R'.
    destruct (plainDecimal_finite_head neg e W) as (c & r & E & Dc & _).
    destruct (plainDecimal_finite_head neg' e' W') as (c' & r' & E' & Dc' & _).
    assert (Same : shiftText (map digitChar ds) e
                   = shiftText (map digitChar ds') e' ->
                   ds = ds' /\ e = e').
    { intros H. rewrite H, R' in R. injection R as Hs He.
      split; [now apply digitChar_injective | now symmetry]. }
    destruct neg, neg'; cbn [app]; intros H.
    + injection H as H. destruct (Same H) as [-> ->]. reflexivity.
    + rewrite E' in H. injection H as <- _. discriminate.
    + rewrite E in H. injection H as -> _. discriminate.
    + destruct (Same H) as [-> ->]. reflexivity.
Qed.

(** The text of null, of a boolean or of a number would be quoted if it
    were a string, and does not begin with a double quote. *)
Lemma literal_text (p : Primitive) (delimiter : jsstring) :
  canonicalPrimitive p ->
  (forall s, p <> PString s) ->
  needsQuotes (encodePrimitive p delimiter) delimiter = true
  /\ exists c r, encodePrimitive p delimiter = c :: r /\ c <> DQUOTE.
Proof.
  intros C NS. destruct p as [|[|]|n|s].
  - split; [reflexivity|]. now exists LOWER_N, (js "ull").
  - split; [reflexivity|]. now exists LOWER_T, (js "rue").
  - split; [reflexivity|]. now exists 102%N, (js "alse").
  - cbn [encodePrimitive]. split.
    + apply number_text_needs_quotes. apply C.
    + destruct (canonical_number_text C) as [-> S].
      destruct S as [-> | (neg & ds & e & -> & W)].
      * now exists ZERO, [].
      * cbn [plainDecimal]. rewrite shiftPoint_text.
        destruct (plainDecimal_finite_head neg e W) as (c & r & -> & Dc & _).
        destruct neg; cbn [app]; eexists; eexists;
          (split; [reflexivity|]); [discriminate|].
        intros ->. discriminate.
  - now contradiction (NS s).
Qed.

Lemma string_token_differs (s : jsstring) (p : Primitive)
  (delimiter : jsstring) :
  canonicalPrimitive p -> (forall t, p <> PString t) ->
  encodeString s delimiter <> encodePrimitive p delimiter.
Proof.
  intros C NS E.
  destruct (literal_text delimiter C NS) as (Q & c & r & T & Hc).
  unfold encodeString in E. destruct (needsQuotes s delimiter) eqn:Qs.
  - rewrite T in E. unfold quoted in E. injection E as E _. now symmetry in E.
  - rewrite <- E in Q. congruence.
Qed.

Lemma number_text_not_literal (n : number) :
  canonicalPrimitive (PNumber n) ->
  ~ In (encodeNumberCanonical n) [js "null"; js "true"; js "false"].
Proof.
  intros C. destruct (canonical_number_text C) as [E _]. rewrite E.
  destruct C as (F & _ & W).
  assert (Chars : forall c r, plainDecimal n = c :: r ->
                    isDigit c = true \/ c = DOT \/ c = MINUS).
  { intros c r H. apply (@number_text_chars n c W F). rewrite H. now left. }
  intros [H | [H | [H | []]]]; symmetry in H;
    destruct (Chars _ _ H) as [D | [D | D]]; discriminate.
Qed.

(** X8: the tokens of canonical primitives are unambiguous: null, the
    booleans, the finite numbers and the strings all have different tokens,
    whatever the delimiter. *)
Theorem encodePrimitive_injective (p q : Primitive) (delimiter : jsstring)
  (Cp : canonicalPrimitive p) (Cq : canonicalPrimitive q) :
  encodePrimitive p delimiter = encodePrimitive q delimiter <-> p = q.
Proof.
  split; [|now intros ->].
  assert (NS : forall r : Primitive,
            match r with PString _ => False | _ => True end ->
            forall t, r <> PString t).
  { intros r Hr t ->. exact Hr. }
  assert (SL : forall s r, canonicalPrimitive r ->
            match r with PString _ => False | _ => True end ->
            encodePrimitive (PString s) delimiter
            = encodePrimitive r delimiter -> PString s = r).
  { intros s r Cr Hr E. exfalso.
    exact (@string_token_differs s r delimiter Cr (NS r Hr) E). }
  assert (NL : forall n r, canonicalPrimitive (PNumber n) ->
            match r with PNull | PBoolean _ => True | _ => False end ->
            encodePrimitive (PNumber n) delimiter
            = encodePrimitive r delimiter -> PNumber n = r).
  { intros n r Cn Hr E. exfalso. apply (number_text_not_literal Cn).
    cbn [encodePrimitive] in E. rewrite E.
    destruct r as [|[|]| |]; simpl; tauto. }
  destruct p as [|b|n|s], q as [|b'|n'|s']; intros E.
  - reflexivity.
  - now destruct b'.
  - symmetry. symmetry in E. now apply NL.
  - symmetry. symmetry in E. now apply SL.
  - now destruct b.
  - destruct b, b'; trivial; discriminate.
  - symmetry. symmetry in E. now apply NL.
  - symmetry. symmetry in E. now apply SL.
  - now apply NL.
  - now apply NL.
  - cbn [encodePrimitive] in E. f_equal. now apply number_text_injective.
  - symmetry. symmetry in E. now apply SL.
  - now apply SL.
  - now apply SL.
  - now apply SL.
  - cbn [encodePrimitive] in E. f_equal.
    rewrite <- (unquote_encodeString s delimiter), E.
    apply unquote_encodeString.
Qed.

Lemma encodePrimitive_injective_witness :
  encodePrimitive (PString (js "12")) [COMMA]
  = encodePrimitive (PNumber (Finite false [1%N; 2%N] 2)) [COMMA]
  <-> PString (js "12") = PNumber (Finite false [1%N; 2%N] 2).
Proof.
  apply encodePrimitive_injective; [exact I|].
  repeat split; try discriminate. repeat constructor.
Defined.

Lemma escapeChar_chars (x c : code_unit) :
  In c (escapeChar x) -> c <> LF /\ c <> CR /\ c <> TAB.
Proof.
  unfold escapeChar.
  destruct (N.eqb_spec x BACKSLASH); [|destruct (N.eqb_spec x DQUOTE);
    [|destruct (N.eqb_spec x LF); [|destruct (N.eqb_spec x CR);
      [|destruct (N.eqb_spec x TAB)]]]]; simpl;
    intros H; repeat (destruct H as [<- | H]; [repeat split; easy|]);
    try easy.
Qed.

Lemma escaped_chars (s : jsstring) (c : code_unit) :
  In c (flat_map escapeChar s) -> c <> LF /\ c <> CR /\ c <> TAB.
Proof.
  intros H. apply in_flat_map in H as (x & _ & H).
  now apply (escapeChar_chars x).
Qed.

Lemma digitlike_not_structural (c : code_unit) :
  isDigit c = true \/ c = DOT \/ c = MINUS -> isStructural c = false.
Proof.
  intros [D | [-> | ->]]; [|reflexivity..].
  unfold isStructural, isDigit, DQUOTE, BACKSLASH, COLON, COMMA in *.
  apply andb_true_iff in D as [Lo Hi]. apply N.leb_le in Lo, Hi.
  rewrite !orb_false_iff. repeat split;
    first [apply N.ltb_ge | apply N.eqb_neq]; lia.
Qed.

Lemma structural_controls (c : code_unit) :
  isStructural c = false -> c <> LF /\ c <> CR /\ c <> TAB.
Proof.
  unfold isStructural. rewrite !orb_false_iff.
  intros ((((L & _) & _) & _) & _). apply N.ltb_ge in L.
  unfold LF, CR, TAB. repeat split; lia.
Qed.

(** The characters of the token of a primitive other than a string. *)
Lemma literal_chars (p : Primitive) (delimiter : jsstring) (c : code_unit) :
  canonicalPrimitive p -> (forall s, p <> PString s) ->
  In c (encodePrimitive p delimiter) -> isStructural c = false.
Proof.
  intros C NS. destruct p as [|[|]|n|s]; cbn [encodePrimitive].
  - intros H. repeat (destruct H as [<- | H]; [reflexivity|]). easy.
  - intros H. repeat (destruct H as [<- | H]; [reflexivity|]). easy.
  - intros H. repeat (destruct H as [<- | H]; [reflexivity|]). easy.
  - destruct (canonical_number_text C) as [-> _]. destruct C as (F & _ & W).
    intros H. apply digitlike_not_structural.
    now apply (@number_text_chars n c W F).
  - now contradiction (NS s).
Qed.

(** X9: the token of a canonical primitive is never empty and holds no raw
    newline, carriage return or tab; a token that does not begin with a
    double quote holds no control character, double quote, backslash, colon
    or comma at all. *)
Theorem token_characters (p : Primitive) (delimiter : jsstring)
  (C : canonicalPrimitive p) :
  encodePrimitive p delimiter <> []
  /\ (forall c, In c (encodePrimitive p delimiter) ->
        c <> LF /\ c <> CR /\ c <> TAB)
  /\ (startsWith (encodePrimitive p delimiter) [DQUOTE] = false ->
      forall c, In c (encodePrimitive p delimiter) ->
        isStructural c = false).
Proof.
  assert (NS : forall r : Primitive,
            match r with PString _ => False | _ => True end ->
            forall t, r <> PString t).
  { intros r Hr t ->. exact Hr. }
  assert (Lit : match p with PString _ => False | _ => True end ->
            encodePrimitive p delimiter <> []
            /\ (forall c, In c (encodePrimitive p delimiter) ->
                  isStructural c = false)).
  { intros Hp. split.
    - destruct (literal_text delimiter C (NS p Hp)) as (_ & c & r & -> & _).
      discriminate.
    - intros c. now apply literal_chars, NS. }
  destruct p as [|b|n|s];
    try (destruct (Lit I) as [Ne Ch]; split; [exact Ne|];
         split; [intros c Hc; now apply structural_controls, Ch|];
         intros _; exact Ch).
  clear Lit. cbn [encodePrimitive]. unfold encodeString.
  destruct (needsQuotes s delimiter) eqn:Q.
  - rewrite escapeQuoted_chars. split; [discriminate|]. split.
    + unfold quoted. intros c [<- | H]; [repeat split; discriminate|].
      apply in_app_iff in H as [H | [<- | []]];
        [now apply (escaped_chars s) | repeat split; discriminate].
    + discriminate.
  - apply unquoted_string in Q as (Ne & Safe & _).
    split; [exact Ne|]. split.
    + intros c Hc. now apply structural_controls, Safe.
    + intros _ c Hc. now apply Safe.
Qed.

Lemma token_characters_witness :
  encodePrimitive (PString [LOWER_N; LF; LOWER_T]) [COMMA] <> []
  /\ (forall c,
        In c (encodePrimitive (PString [LOWER_N; LF; LOWER_T]) [COMMA]) ->
        c <> LF /\ c <> CR /\ c <> TAB)
  /\ (startsWith (encodePrimitive (PString [LOWER_N; LF; LOWER_T]) [COMMA])
        [DQUOTE] = false ->
      forall c,
        In c (encodePrimitive (PString [LOWER_N; LF; LOWER_T]) [COMMA]) ->
        isStructural c = false).
Proof.
  exact (@token_characters (PString [LOWER_N; LF; LOWER_T]) [COMMA] I).
Defined.

(* ================================================================= *)
(** * Further properties of the renderer *)

(** ** Lines *)

Lemma splitLines_nonempty (s : jsstring) : splitLines s <> [].
Proof.
  induction s as [|c s IH]; simpl; [discriminate|].
  destruct (c =? LF)%N; [discriminate|].
  destruct (splitLines s); discriminate.
Qed.

Lemma splitLines_cons (c : code_unit) (s : jsstring) :
  (c =? LF)%N = false ->
  splitLines (c :: s) = (c :: hd [] (splitLines s)) :: tl (splitLines s).
Proof.
  intros H. simpl. rewrite H.
  pose proof (splitLines_nonempty s). now destruct (splitLines s).
Qed.

Lemma splitLines_app (a b : jsstring) :
  splitLines (a ++ LF :: b) = splitLines a ++ splitLines b.
Proof.
  induction a as [|c a IH]; [reflexivity|].
  destruct (c =? LF)%N eqn:E.
  - simpl. rewrite E. now rewrite IH.
  - cbn [app]. rewrite !splitLines_cons, IH by exact E.
    pose proof (splitLines_nonempty a). now destruct (splitLines a).
Qed.

Lemma splitLines_single (s : jsstring) : ~ In LF s -> splitLines s = [s].
Proof.
  induction s as [|c s IH]; [reflexivity|].
  intros H. assert (E : (c =? LF)%N = false).
  { apply N.eqb_neq. intros ->. apply H. now left. }
  rewrite splitLines_cons, IH by (trivial; intros Hin; apply H; now right).
  reflexivity.
Qed.

Lemma splitLines_no_LF (s ln : jsstring) : In ln (splitLines s) -> ~ In LF ln.
Proof.
  revert ln; induction s as [|c s IH]; intros ln.
  - intros [<- | []]. easy.
  - destruct (N.eqb_spec c LF) as [->|Hc].
    + simpl. intros [<- | H]; [easy | now apply IH].
    + rewrite splitLines_cons by now apply N.eqb_neq.
      pose proof (splitLines_nonempty s) as Ne.
      destruct (splitLines s) as [|l ls]; [easy|]. cbn [hd tl].
      intros [<- | H].
      * intros [E | Hin]; [contradiction|].
        apply (IH l); [now left | exact Hin].
      * apply IH. now right.
Qed.

Lemma join_cons (sep p : jsstring) (rest : list jsstring) :
  rest <> [] -> join sep (p :: rest) = p ++ sep ++ join sep rest.
Proof. now destruct rest. Qed.

Lemma join_splitLines (s : jsstring) : join [LF] (splitLines s) = s.
Proof.
  induction s as [|c s IH]; [reflexivity|].
  pose proof (splitLines_nonempty s) as Ne.
  destruct (c =? LF)%N eqn:E.
  - simpl splitLines. rewrite E, join_cons, IH by exact Ne.
    apply N.eqb_eq in E. now subst.
  - rewrite splitLines_cons by exact E.
    destruct (splitLines s) as [|l [|l' ls]]; [easy| |];
      cbn [hd tl]; cbn [join] in *; now rewrite <- IH.
Qed.

Lemma splitLines_join (lines : list jsstring) :
  lines <> [] -> Forall (fun ln => ~ In LF ln) lines ->
  splitLines (join [LF] lines) = lines.
Proof.
  induction lines as [|p rest IH]; [easy|]. intros _ H.
  apply Forall_cons_iff in H as [Hp Hrest].
  destruct rest as [|q rest].
  - now apply splitLines_single.
  - rewrite join_cons by discriminate. cbn [app].
    rewrite splitLines_app, (@splitLines_single p Hp), IH; trivial.
    discriminate.
Qed.

Lemma join_nil (lines : list jsstring) :
  lines <> [] -> join [LF] lines = [] -> lines = [[]].
Proof.
  destruct lines as [|p [|q rest]]; [easy | simpl; now intros _ -> |].
  intros _ H. rewrite join_cons in H by discriminate.
  apply app_eq_nil in H as [_ H]. discriminate.
Qed.

Lemma indentStr_add (j k n : nat) :
  indentStr k n ++ indentStr j n = indentStr (j + k) n.
Proof.
  unfold indentStr, repeat. rewrite <- repeat_app. f_equal. lia.
Qed.

Lemma indentStr_no_LF (k n : nat) : ~ In LF (indentStr k n).
Proof. intros H. apply repeat_spec in H. discriminate. Qed.

Lemma reindentLine_no_LF (prefix ln : jsstring) :
  ~ In LF prefix -> ~ In LF ln -> ~ In LF (reindentLine prefix ln).
Proof.
  unfold reindentLine. destruct (0 <? length ln)%nat; trivial.
  intros Hp Hl H. apply in_app_iff in H as [H | H]; contradiction.
Qed.

Lemma reindentBlock_cases (block : jsstring) (k n : nat) :
  block <> [] ->
  reindentBlock block k n
  = join [LF] (map (reindentLine (indentStr k n)) (splitLines block)).
Proof. destruct block; [easy | reflexivity]. Qed.

Lemma reindentBlock_split (block : jsstring) (k n : nat) :
  block <> [] ->
  splitLines (reindentBlock block k n)
  = map (reindentLine (indentStr k n)) (splitLines block).
Proof.
  intros Ne. rewrite reindentBlock_cases by exact Ne.
  apply splitLines_join.
  - pose proof (splitLines_nonempty block). now destruct (splitLines block).
  - apply Forall_forall. intros ln H.
    apply in_map_iff in H as (l & <- & Hl).
    apply reindentLine_no_LF; [apply indentStr_no_LF|].
    now apply (splitLines_no_LF block).
Qed.

Lemma reindentBlock_nonempty (block : jsstring) (k n : nat) :
  block <> [] -> reindentBlock block k n <> [].
Proof.
  intros Ne E. pose proof (reindentBlock_split k n Ne) as S.
  rewrite E in S. simpl in S.
  destruct (splitLines block) as [|l [|l' ls]] eqn:L; try discriminate.
  injection S as S. unfold reindentLine in S.
  assert (l = []).
  { destruct l; [reflexivity|]. simpl in S.
    symmetry in S. apply app_eq_nil in S as [_ S]. discriminate. }
  subst l. apply Ne. rewrite <- (join_splitLines block), L. reflexivity.
Qed.

(** X10: [reindentBlock] prefixes every non-empty line of a block with the
    indentation and leaves empty lines alone; it keeps the number of lines,
    does nothing at zero levels or zero indent size, and two passes add
    up. *)
Theorem reindentBlock_lines (block : jsstring) (j k n : nat) :
  (block <> [] ->
   splitLines (reindentBlock block k n)
   = map (fun ln => if (0 <? length ln)%nat then indentStr k n ++ ln else ln)
         (splitLines block))
  /\ length (splitLines (reindentBlock block k n))
     = length (splitLines block)
  /\ reindentBlock block 0 n = block
  /\ reindentBlock block k 0 = block
  /\ reindentBlock (reindentBlock block j n) k n
     = reindentBlock block (j + k) n.
Proof.
  assert (Id : forall m, m = 0 ->
            join [LF] (map (reindentLine (repeat SPACE m)) (splitLines block))
            = block).
  { intros m ->. rewrite <- (join_splitLines block) at 2. f_equal.
    rewrite <- (map_id (splitLines block)) at 2. apply map_ext.
    intros ln. unfold reindentLine. now destruct (0 <? length ln)%nat. }
  destruct block as [|c block]; [repeat split; try reflexivity; easy|].
  set (b := c :: block) in *.
  assert (Ne : b <> []) by discriminate.
  split; [intros _; now apply reindentBlock_split|].
  split; [rewrite reindentBlock_split, length_map by exact Ne; reflexivity|].
  split; [rewrite reindentBlock_cases by exact Ne; apply Id; reflexivity|].
  split; [rewrite reindentBlock_cases by exact Ne; apply Id;
          apply Nat.mul_0_r|].
  rewrite (reindentBlock_cases k n (reindentBlock_nonempty j n Ne)).
  rewrite (reindentBlock_split j n Ne), map_map.
  rewrite (reindentBlock_cases (j + k) n Ne). f_equal. apply map_ext.
  intros ln. unfold reindentLine.
  destruct ln as [|x ln]; [reflexivity|]. cbn [length Nat.ltb Nat.leb].
  rewrite length_app. simpl length. rewrite Nat.add_succ_r.
  now rewrite app_assoc, indentStr_add.
Qed.

(** ** The final clean-up *)

Lemma noTrailingBlanks_tail (c : code_unit) (t : jsstring) :
  noTrailingBlanks (c :: t) -> noTrailingBlanks t.
Proof. intros H a x b E. apply (H (c :: a) x b). now rewrite E. Qed.

(** In a text without trailing blanks, a run of blanks never reaches the
    end of a line. *)
Lemma blanks_before_line_end (t : jsstring) :
  noTrailingBlanks t ->
  atLineEnd (dropWhile isBlank t) = true -> atLineEnd t = true.
Proof.
  induction t as [|c t IH]; [easy|]. intros H. cbn [dropWhile].
  destruct (isBlank c) eqn:Bc; [|easy].
  intros E. apply IH in E; [|now apply noTrailingBlanks_tail in H].
  now rewrite (H [] c t eq_refl Bc) in E.
Qed.

Lemma stripLineEnds_fixed (t : jsstring) :
  noTrailingBlanks t -> stripLineEnds t = t.
Proof.
  induction t as [|c t IH]; [easy|]. intros H. cbn [stripLineEnds].
  rewrite IH by now apply noTrailingBlanks_tail in H.
  destruct (isBlank c) eqn:Bc; [|reflexivity]. cbn [andb].
  destruct (atLineEnd (dropWhile isBlank t)) eqn:E; [|reflexivity].
  apply blanks_before_line_end in E; [|now apply noTrailingBlanks_tail in H].
  now rewrite (H [] c t eq_refl Bc) in E.
Qed.

Lemma stripLineEnds_clean (s : jsstring) : noTrailingBlanks (stripLineEnds s).
Proof. intros a c b E. now apply (@stripLineEnds_no_trailing s a b c). Qed.

Lemma stripLineEnds_filter (s : jsstring) :
  filter (fun c => negb (isBlank c)) (stripLineEnds s)
  = filter (fun c => negb (isBlank c)) s.
Proof.
  induction s as [|c s IH]; [reflexivity|]. cbn [stripLineEnds filter].
  destruct (isBlank c) eqn:Bc; cbn [andb negb].
  - destruct (atLineEnd (dropWhile isBlank s)); [exact IH|].
    cbn [filter]. now rewrite Bc.
  - cbn [filter]. rewrite Bc. cbn [negb]. now rewrite IH.
Qed.

Lemma stripLineEnds_length (s : jsstring) :
  length (stripLineEnds s) <= length s.
Proof.
  induction s as [|c s IH]; [reflexivity|]. cbn [stripLineEnds].
  destruct (isBlank c && atLineEnd (dropWhile isBlank s)); simpl; lia.
Qed.

(** X11: the final clean-up of [encodeToon] is idempotent; the texts it
    leaves unchanged are exactly those in which no space or tab stands
    before a line terminator or at the end; it removes spaces and tabs
    only, so every other character is kept, in order. *)
Theorem stripLineEnds_removes_blanks_only (s : jsstring) :
  stripLineEnds (stripLineEnds s) = stripLineEnds s
  /\ (stripLineEnds s = s <-> noTrailingBlanks s)
  /\ filter (fun c => negb (isBlank c)) (stripLineEnds s)
     = filter (fun c => negb (isBlank c)) s
  /\ length (stripLineEnds s) <= length s.
Proof.
  split; [apply stripLineEnds_fixed, stripLineEnds_clean|].
  split; [|split; [apply stripLineEnds_filter | apply stripLineEnds_length]].
  split; [intros <-; apply stripLineEnds_clean | apply stripLineEnds_fixed].
Qed.

(** ** A space before a line or paragraph separator *)

Lemma Matches_alphabet (r : regex) (s : jsstring) :
  Matches r s -> forall c, In c s -> alphabet r c = true.
Proof.
  induction 1 as [|p c Hp|a b s t _ IHs _ IHt|a b s _ IH|a b s _ IH| 
                  |a s t _ IHs _ IHt]; intros x Hx.
  - destruct Hx.
  - destruct Hx as [<- | []]. exact Hp.
  - cbn [alphabet]. apply orb_true_iff.
    apply in_app_or in Hx as [Hx | Hx]; auto.
  - cbn [alphabet]. apply orb_true_iff. auto.
  - cbn [alphabet]. apply orb_true_iff. auto.
  - destruct Hx.
  - apply in_app_or in Hx as [Hx | Hx]; [|now apply IHt].
    cbn [alphabet]. now apply IHs.
Qed.

Lemma separator_facts (t : code_unit) :
  isSeparator t = true ->
  isTrimSpace t = true /\ isLineTerminator t = true
  /\ alphabet numberPattern t = false /\ escapeChar t = [t]
  /\ ~ In t (js "true") /\ ~ In t (js "false") /\ ~ In t (js "null")
  /\ t <> MINUS.
Proof.
  unfold isSeparator. rewrite orb_true_iff, !N.eqb_eq.
  intros [-> | ->]; repeat split; try reflexivity;
    try (intros H; simpl in H; intuition discriminate); discriminate.
Qed.

Lemma last_middle (s r : jsstring) (x t d : code_unit) :
  last (s ++ x :: t :: r) d = last (s ++ t :: r) d.
Proof.
  induction s as [|c s IH]; [reflexivity|]. cbn [app].
  assert (C : forall l : jsstring, l <> [] -> last (c :: l) d = last l d)
    by (intros [|y l]; easy).
  rewrite !C, IH by now destruct s. reflexivity.
Qed.

Lemma space_keeps_quoting (s r : jsstring) (t : code_unit) :
  isSeparator t = true ->
  needsQuotes (s ++ SPACE :: t :: r) [COMMA]
  = needsQuotes (s ++ t :: r) [COMMA].
Proof.
  intros T. destruct (@separator_facts t T)
    as (Tw & _ & Ta & _ & T1 & T2 & T3 & Tm).
  assert (Num : forall x, In t x -> ~ Matches numberPattern x).
  { intros x Hx M. now rewrite (@Matches_alphabet _ _ M t Hx) in Ta. }
  assert (Lit : forall x (lit : jsstring), In t x -> ~ In t lit -> x <> lit).
  { intros x lit Hx Hl ->. contradiction. }
  assert (Hx : In t (s ++ SPACE :: t :: r)).
  { apply in_or_app. right. right. now left. }
  assert (Hy : In t (s ++ t :: r)).
  { apply in_or_app. right. now left. }
  assert (In_eq : forall c, c <> SPACE ->
            (In c (s ++ SPACE :: t :: r) <-> In c (s ++ t :: r))).
  { intros c Hc. rewrite !in_app_iff. simpl. intuition congruence. }
  apply eq_true_iff_eq. rewrite !needsQuotes_condition.
  unfold quotingCondition.
  assert (Edge : hasEdgeSpace (s ++ SPACE :: t :: r)
                 = hasEdgeSpace (s ++ t :: r)).
  { destruct s as [|c s].
    - simpl app. unfold hasEdgeSpace. now rewrite Tw.
    - cbn [app hasEdgeSpace].
      change (c :: s ++ SPACE :: t :: r) with ((c :: s) ++ SPACE :: t :: r).
      change (c :: s ++ t :: r) with ((c :: s) ++ t :: r).
      now rewrite last_middle. }
  assert (Minus : (exists u, s ++ SPACE :: t :: r = MINUS :: u)
                  <-> (exists u, s ++ t :: r = MINUS :: u)).
  { destruct s as [|c s]; simpl.
    - split; intros [u E]; injection E as E _; [discriminate|].
      now contradiction Tm.
    - split; intros [u E]; injection E as -> _; eauto. }
  assert (Ctl : (exists c, In c (s ++ SPACE :: t :: r) /\ (c < 32)%N)
                <-> (exists c, In c (s ++ t :: r) /\ (c < 32)%N)).
  { split; intros [c [Hc Lt]]; exists c; (split; [|exact Lt]);
      apply (In_eq c); trivial; intros ->; discriminate. }
  rewrite Edge, Minus, Ctl.
  rewrite (In_eq DQUOTE), (In_eq BACKSLASH), (In_eq COLON), (In_eq COMMA),
    (In_eq TAB) by discriminate.
  pose proof (Num _ Hx). pose proof (Num _ Hy).
  pose proof (Lit _ _ Hx T1). pose proof (Lit _ _ Hx T2).
  pose proof (Lit _ _ Hx T3). pose proof (Lit _ _ Hy T1).
  pose proof (Lit _ _ Hy T2). pose proof (Lit _ _ Hy T3).
  assert (s ++ SPACE :: t :: r <> []) by now destruct s.
  assert (s ++ t :: r <> []) by now destruct s.
  tauto.
Qed.

Lemma blanks_middle (a b : jsstring) :
  atLineEnd (dropWhile isBlank (a ++ SPACE :: b))
  = atLineEnd (dropWhile isBlank (a ++ b)).
Proof.
  induction a as [|c a IH]; [reflexivity|]. cbn [app dropWhile].
  destruct (isBlank c); [exact IH | reflexivity].
Qed.

(** A space whose run of blanks reaches a line end is removed, wherever it
    stands. *)
Lemma stripLineEnds_space (a b : jsstring) :
  atLineEnd (dropWhile isBlank b) = true ->
  stripLineEnds (a ++ SPACE :: b) = stripLineEnds (a ++ b).
Proof.
  intros H. induction a as [|c a IH].
  - cbn [app stripLineEnds]. now rewrite H.
  - cbn [app stripLineEnds]. now rewrite blanks_middle, IH.
Qed.

Lemma encodeToon_string (stack : nat) (s : jsstring) (opts : EncodeOpts) :
  encodeToon stack (HString s) opts
  = Return (stripLineEnds (encodeString s [COMMA]) ++ [LF]).
Proof.
  rewrite encodeToon_cases, normalize_leaf by reflexivity.
  now destruct (modeOf opts).
Qed.

(** X12: a space that stands before a line separator (U+2028) or a
    paragraph separator (U+2029) inside a string is lost: the string with
    the space and the string without it have the same encoding, in either
    mode and on any stack. *)
Theorem space_before_separator_is_lost (stack : nat) (s r : jsstring)
  (t : code_unit) (opts : EncodeOpts) (T : isSeparator t = true) :
  s ++ SPACE :: t :: r <> s ++ t :: r
  /\ encodeToon stack (HString (s ++ SPACE :: t :: r)) opts
     = encodeToon stack (HString (s ++ t :: r)) opts.
Proof.
  split.
  { intros E. apply (f_equal (@length code_unit)) in E.
    rewrite !length_app in E. simpl in E. lia. }
  rewrite !encodeToon_string. do 2 f_equal. unfold encodeString.
  rewrite (@space_keeps_quoting s r t T).
  destruct (@separator_facts t T) as (_ & Tl & _ & Te & _).
  assert (L : forall b, atLineEnd (dropWhile isBlank (t :: b)) = true).
  { intros b. cbn [dropWhile].
    destruct (isBlank t) eqn:B; [|exact Tl].
    apply blank_not_terminator in B. congruence. }
  destruct (needsQuotes (s ++ t :: r) [COMMA]).
  - unfold quoted. rewrite !escapeQuoted_chars, !flat_map_app.
    cbn [flat_map]. rewrite Te.
    change (escapeChar SPACE) with [SPACE]. cbn [app].
    rewrite <- !app_assoc. cbn [app].
    apply (stripLineEnds_space (DQUOTE :: flat_map escapeChar s)), L.
  - apply stripLineEnds_space, L.
Qed.

Lemma space_before_separator_is_lost_witness :
  js "a" ++ SPACE :: 8232%N :: js "b" <> js "a" ++ 8232%N :: js "b"
  /\ encodeToon 0 (HString (js "a" ++ SPACE :: 8232%N :: js "b")) defaultOpts
     = encodeToon 0 (HString (js "a" ++ 8232%N :: js "b")) defaultOpts.
Proof.
  apply (@space_before_separator_is_lost 0 (js "a") (js "b") 8232%N
           defaultOpts).
  reflexivity.
Defined.

(** ** Indentation *)

Lemma startsWith_app (p s : jsstring) : startsWith (p ++ s) p = true.
Proof.
  induction p as [|c p IH]; [reflexivity|]. simpl. now rewrite N.eqb_refl.
Qed.

Lemma startsWith_prefix (ln p : jsstring) :
  startsWith ln p = true <-> exists rest, ln = p ++ rest.
Proof.
  revert ln; induction p as [|c p IH]; intros ln.
  - split; [intros _; now exists ln | reflexivity].
  - destruct ln as [|x ln]; simpl.
    + split; [discriminate | intros [rest E]; discriminate].
    + rewrite andb_true_iff, N.eqb_eq, IH. split.
      * intros [-> [rest ->]]. now exists rest.
      * intros [rest E]. injection E as -> ->.
        split; [reflexivity | now exists rest].
Qed.

Lemma startsWith_fewer (ln : jsstring) (k m : nat) :
  k <= m ->
  startsWith ln (repeat SPACE m) = true ->
  startsWith ln (repeat SPACE k) = true.
Proof.
  intros L. rewrite !startsWith_prefix. intros [rest ->].
  exists (repeat SPACE (m - k) ++ rest). rewrite app_assoc. f_equal.
  unfold repeat. rewrite <- repeat_app. f_equal. lia.
Qed.

Lemma indented_fewer (k m : nat) (text : jsstring) :
  k <= m -> indented m text -> indented k text.
Proof.
  intros L. unfold indented. apply Forall_impl.
  intros ln. now apply startsWith_fewer.
Qed.

Lemma splitLines_blocks (blocks : list jsstring) :
  blocks <> [] ->
  splitLines (join [LF] blocks) = flat_map splitLines blocks.
Proof.
  induction blocks as [|b rest IH]; [easy|]. intros _.
  destruct rest as [|b' rest].
  - simpl. now rewrite app_nil_r.
  - rewrite join_cons by discriminate. cbn [app flat_map].
    rewrite splitLines_app, IH by discriminate. reflexivity.
Qed.

Lemma indented_join (k : nat) (blocks : list jsstring) :
  blocks <> [] -> Forall (indented k) blocks ->
  indented k (join [LF] blocks).
Proof.
  intros Ne H. unfold indented. rewrite splitLines_blocks by exact Ne.
  apply Forall_flat_map. exact H.
Qed.

Lemma hanging_line (first : jsstring) (k : nat) (line : jsstring) :
  ~ In LF line -> startsWith line first = true -> hanging first k line.
Proof.
  intros H S. exists line, []. rewrite (@splitLines_single line H).
  repeat split; [exact S | constructor].
Qed.

Lemma hanging_block (first : jsstring) (k : nat) (line body : jsstring) :
  ~ In LF line -> startsWith line first = true -> indented k body ->
  hanging first k (line ++ LF :: body).
Proof.
  intros H S B. exists line, (splitLines body).
  rewrite splitLines_app, (@splitLines_single line H).
  repeat split; [exact S | exact B].
Qed.

Lemma hanging_indented (first : jsstring) (i n : nat) (text : jsstring) :
  hanging (indentStr i n ++ first) ((i + 1) * n) text ->
  indented (i * n) text.
Proof.
  intros (line & rest & E & S & R). unfold indented. rewrite E.
  constructor.
  - apply startsWith_prefix in S as [more ->]. rewrite <- app_assoc.
    apply startsWith_app.
  - eapply Forall_impl; [|exact R]. intros ln. apply startsWith_fewer. lia.
Qed.

Lemma reindentBlock_indented (k j n : nat) (block : jsstring) :
  block <> [] -> indented k block -> indented k (reindentBlock block j n).
Proof.
  intros Ne H. unfold indented in *.
  rewrite (@reindentBlock_split block j n Ne). apply Forall_map.
  eapply Forall_impl; [|exact H]. intros ln S. unfold reindentLine.
  destruct (0 <? length ln)%nat; [|exact S].
  apply startsWith_prefix in S as [more ->]. apply startsWith_prefix.
  exists (indentStr j n ++ more). unfold indentStr, repeat.
  rewrite !app_assoc. f_equal. rewrite <- !repeat_app. f_equal. lia.
Qed.

(** *** Tokens and headers hold no line break *)

Lemma uintChars_chars (u : Decimal.uint) (c : code_unit) :
  In c (uintChars u) -> isDigit c = true.
Proof.
  pose proof (uintChars_digits u) as H. rewrite forallb_forall in H.
  apply H.
Qed.

Lemma bracketed_no_LF (N : nat) : ~ In LF (bracketed N).
Proof.
  unfold bracketed. intros H. simpl in H. destruct H as [H | H]; [easy|].
  apply in_app_iff in H as [H | [H | []]]; [|easy].
  now apply uintChars_chars in H.
Qed.

Lemma encodeString_no_LF (s d : jsstring) : ~ In LF (encodeString s d).
Proof.
  unfold encodeString. destruct (needsQuotes s d) eqn:Q.
  - rewrite escapeQuoted_chars. unfold quoted. intros [E | H]; [easy|].
    apply in_app_iff in H as [H | [E | []]]; [|easy].
    apply escaped_chars in H. now destruct H.
  - apply unquoted_string in Q as (_ & Safe & _). intros H.
    apply Safe in H as [S _]. discriminate.
Qed.

Lemma token_no_LF (p : Primitive) (d : jsstring) :
  canonicalPrimitive p -> ~ In LF (encodePrimitive p d).
Proof.
  intros C.
  assert (L : (forall s, p <> PString s) -> ~ In LF (encodePrimitive p d)).
  { intros NS H. apply (@literal_chars p d LF C NS) in H. discriminate. }
  destruct p as [|b|x|s]; try (apply L; intros s; discriminate).
  apply encodeString_no_LF.
Qed.

Lemma join_chars (sep : jsstring) (parts : list jsstring) (c : code_unit) :
  In c (join sep parts) ->
  In c sep \/ exists p, In p parts /\ In c p.
Proof.
  induction parts as [|p rest IH]; [easy|]. destruct rest as [|q rest].
  - simpl. intros H. right. exists p. split; [now left | exact H].
  - rewrite join_cons by discriminate. rewrite !in_app_iff.
    intros [H | [H | H]].
    + right. exists p. split; [now left | exact H].
    + now left.
    + apply IH in H as [H | [p' [Hp Hc]]]; [now left|].
      right. exists p'. split; [now right | exact Hc].
Qed.

Lemma lookup_In (k : jsstring) (fields : list (jsstring * Json)) (v : Json) :
  lookup k fields = Some v -> exists k', In (k', v) fields.
Proof.
  induction fields as [|[k' x] fields IH]; [easy|]. simpl.
  destruct (Str.eqb k' k).
  - intros H. injection H as ->. exists k'. now left.
  - intros H. apply IH in H as [k'' H]. exists k''. now right.
Qed.

Lemma delimiter_no_LF (values : list Json) :
  ~ In LF (chooseDelimiterForValues values).
Proof.
  destruct (chooseDelimiter_either values) as [-> | ->];
    intros [H | []]; discriminate.
Qed.

Lemma row_no_LF (o : Json) (keys : list jsstring) (d : jsstring) :
  WellFormed o -> ~ In LF d -> ~ In LF (join d (rowCells o keys d)).
Proof.
  intros W Hd H. apply join_chars in H as [H | (cell & Hcell & H)];
    [contradiction|].
  unfold rowCells in Hcell. apply in_map_iff in Hcell as (k & <- & _).
  destruct (getProp o k) as [[p|?|?]|] eqn:G; try easy.
  revert H. apply token_no_LF.
  destruct o as [?|?|fields]; try discriminate. simpl in G.
  apply lookup_In in G as [k' G]. inversion W as [| |? F]; subst.
  rewrite Forall_forall in F. specialize (F _ G). simpl in F.
  now inversion F.
Qed.

Lemma inline_no_LF (arr : list Json) (d : jsstring) :
  Forall WellFormed arr -> ~ In LF d ->
  ~ In LF (join d (map (fun x => encodePrimitive x d) (asPrimitives arr))).
Proof.
  intros W Hd H. apply join_chars in H as [H | (cell & Hcell & H)];
    [contradiction|].
  apply in_map_iff in Hcell as (p & <- & Hp). revert H. apply token_no_LF.
  unfold asPrimitives in Hp. apply in_flat_map in Hp as (x & Hx & Hp).
  rewrite Forall_forall in W. specialize (W x Hx).
  destruct x as [q| |]; try easy. destruct Hp as [<- | []].
  now inversion W.
Qed.

(** *** The lines of arrays and objects *)

Lemma array_lines (arr : list Json) (ctx : Ctx) (n : nat) :
  Forall WellFormed arr ->
  Forall (fun v => forall c, indented (indent c * n) (encodeListItem v c n))
    arr ->
  arrayLines (encodeArray arr ctx n) ((indent ctx + 1) * n).
Proof.
  intros W Items. unfold arrayLines.
  rewrite encodeArray_cases, encodeTabular_cases.
  destruct (forallb isPrimitive arr) eqn:P; cbn [header kind body].
  - split; [apply bracketed_no_LF|]. split; [|easy]. intros _.
    apply (@inline_no_LF arr _ W), delimiter_no_LF.
  - destruct (tabularTest arr) eqn:T; cbn [header kind body tabularResult].
    + split; [|split; [discriminate|]].
      * intros H. simpl in H. destruct H as [H | H]; [easy|].
        apply in_app_iff in H as [H | H];
          [now apply uintChars_chars in H|].
        simpl in H. destruct H as [H | [H | H]]; try easy.
        apply in_app_iff in H as [H | [H | []]]; [|easy].
        apply join_chars in H as [[H | []] | (tok & Htok & H)]; [easy|].
        apply in_map_iff in Htok as (k & <- & _).
        now apply encodeString_no_LF in H.
      * intros _. unfold indented.
        assert (Ne : arr <> []) by (destruct arr; [discriminate | easy]).
        rewrite splitLines_join.
        -- apply Forall_map, Forall_forall. intros o _.
           apply startsWith_app.
        -- destruct arr; [easy | discriminate].
        -- apply Forall_map. eapply Forall_impl; [|exact W].
           intros o Wo H. apply in_app_iff in H as [H | H];
             [now apply indentStr_no_LF in H|].
           revert H. apply (@row_no_LF o _ _ Wo), delimiter_no_LF.
    + split; [apply bracketed_no_LF|]. split; [discriminate|]. intros _.
      apply indented_join; [destruct arr; [discriminate | easy]|].
      apply Forall_map. eapply Forall_impl; [|exact Items].
      intros v H. apply (H {| indent := indent ctx + 1 |}).
Qed.

Lemma object_lines (obj : list (jsstring * Json)) (ctx : Ctx) (n : nat) :
  obj <> [] ->
  Forall (fun kv => forall key c,
            indented (indent c * n) (encodeObjectField key (snd kv) c n))
    obj ->
  indented (indent ctx * n) (encodeObject obj ctx n).
Proof.
  intros Ne H. unfold encodeObject, encodeObjectWith.
  apply indented_join; [now destruct obj|].
  apply Forall_map. eapply Forall_impl; [|exact H].
  intros kv Hkv. apply Hkv.
Qed.

(** *** Fields and list items *)

Ltac no_LF :=
  let H := fresh "H" in
  intros H;
  repeat match type of H with
         | In _ (_ ++ _) => apply in_app_or in H; destruct H as [H | H]
         end;
  first [ contradiction
        | now apply indentStr_no_LF in H
        | now apply encodeString_no_LF in H
        | now apply bracketed_no_LF in H
        | (apply token_no_LF in H; [exact H | assumption])
        | (simpl in H; intuition discriminate) ].

Ltac prefix :=
  apply startsWith_prefix;
  first [ exists []; now rewrite app_nil_r
        | eexists; rewrite <- ?app_assoc; reflexivity ].

Lemma hanging_array (first lead : jsstring) (enc : EncodedArray) (k : nat) :
  ~ In LF lead -> startsWith lead first = true -> arrayLines enc k ->
  hanging first k
    match kind enc with
    | KInline => lead ++ header enc ++ js ": " ++ body enc
    | _ => if truthy (body enc)
           then lead ++ header enc ++ [COLON; LF] ++ body enc
           else lead ++ header enc ++ [COLON]
    end.
Proof.
  intros L S (Hh & Hi & Hb).
  assert (P : forall more, startsWith (lead ++ more) first = true).
  { intros more. apply startsWith_prefix in S as [r ->].
    apply startsWith_prefix. eexists. rewrite <- app_assoc. reflexivity. }
  assert (Block :
    (kind enc <> KInline) ->
    hanging first k
      (if truthy (body enc)
       then lead ++ header enc ++ [COLON; LF] ++ body enc
       else lead ++ header enc ++ [COLON])).
  { intros K. specialize (Hb K). destruct (truthy (body enc)).
    - replace (lead ++ header enc ++ [COLON; LF] ++ body enc)
        with ((lead ++ header enc ++ [COLON]) ++ LF :: body enc)
        by (rewrite <- !app_assoc; reflexivity).
      apply hanging_block; [no_LF | apply P | exact Hb].
    - apply hanging_line; [no_LF | apply P]. }
  destruct (kind enc) eqn:K.
  - specialize (Hi eq_refl). apply hanging_line; [no_LF | apply P].
  - apply Block. discriminate.
  - apply Block. discriminate.
Qed.

Lemma hanging_item (first : jsstring) (k : nat) (firstLine : jsstring)
  (tailLines : list jsstring) :
  ~ In LF firstLine -> startsWith firstLine first = true ->
  Forall (fun b => b <> [] -> indented k b) tailLines ->
  hanging first k
    (let rest :=
       join [LF] (filter (fun x => (0 <? length x)%nat) tailLines) in
     if truthy rest then firstLine ++ [LF] ++ rest else firstLine).
Proof.
  intros H S T. cbv zeta.
  set (blocks := filter (fun x => (0 <? length x)%nat) tailLines).
  assert (B : Forall (indented k) blocks).
  { apply Forall_forall. intros b Hb. apply filter_In in Hb as [Hb Nb].
    rewrite Forall_forall in T. apply (T b Hb). now destruct b. }
  destruct (truthy (join [LF] blocks)) eqn:R.
  - apply (@hanging_block first k firstLine (join [LF] blocks) H S).
    apply indented_join; [|exact B]. intros E. rewrite E in R. discriminate.
  - now apply hanging_line.
Qed.

(** The induction over a value: the lines of its renderings as a field, as
    a list item, as an array and as an object. *)
Lemma renderer_lines (v : Json) :
  WellFormed v ->
  forall ctx n,
    (forall key,
       hanging (indentStr (indent ctx) n ++ encodeKey key [COMMA])
         ((indent ctx + 1) * n) (encodeObjectField key v ctx n))
    /\ hanging (indentStr (indent ctx) n ++ js "-") ((indent ctx + 1) * n)
         (encodeListItem v ctx n)
    /\ (forall arr, v = JArray arr ->
          arrayLines (encodeArray arr ctx n) ((indent ctx + 1) * n))
    /\ (forall obj, v = JObject obj -> obj <> [] ->
          indented (indent ctx * n) (encodeObject obj ctx n)).
Proof.
  induction v as [p|arr IH|obj IH] using Json_induction;
    intros W [i] n; cbn [indent].
  - inversion W as [? C| |]; subst.
    split; [|split; [|split; [intros ? E | intros ? E]; discriminate]].
    + intros key. cbn [encodeObjectField indent].
      apply hanging_line; [no_LF | prefix].
    + cbn [encodeListItem indent]. apply hanging_line; [no_LF | prefix].
  - inversion W as [|? Wf|]; subst.
    assert (Items : Forall (fun v => forall c,
              indented (indent c * n) (encodeListItem v c n)) arr).
    { rewrite Forall_forall in *. intros x Hx c.
      destruct (IH x Hx (Wf x Hx) c n) as (_ & Hitem & _).
      now apply hanging_indented in Hitem. }
    pose proof (@array_lines arr {| indent := i |} n Wf Items) as A.
    cbn [indent] in A.
    split; [|split; [|split; [|intros ? E; discriminate]]].
    + intros key. cbn [encodeObjectField indent].
      change (encodeArrayWith encodeListItem) with encodeArray.
      rewrite !(app_assoc (indentStr i n) (encodeKey key [COMMA])).
      apply hanging_array; [no_LF | prefix | exact A].
    + cbn [encodeListItem indent].
      change (encodeArrayWith encodeListItem) with encodeArray.
      rewrite !(app_assoc (indentStr i n) (js "- ")).
      apply hanging_array; [no_LF | prefix | exact A].
    + intros arr' E. injection E as <-. exact A.
  - inversion W as [| |? Wf]; subst.
    assert (Fields : Forall (fun kv => forall key c,
              indented (indent c * n)
                (encodeObjectField key (snd kv) c n)) obj).
    { rewrite Forall_forall in *. intros kv Hkv key c.
      destruct (IH kv Hkv (Wf kv Hkv) c n) as (Hfield & _).
      specialize (Hfield key). now apply hanging_indented in Hfield. }
    assert (Body : forall fields c,
              fields <> [] ->
              Forall (fun kv => forall key c,
                        indented (indent c * n)
                          (encodeObjectField key (snd kv) c n)) fields ->
              indented (indent c * n) (encodeObject fields c n)).
    { intros fields c Ne H. now apply object_lines. }
    split; [|split; [|split; [intros ? E; discriminate|]]].
    + intros key. cbn [encodeObjectField indent].
      change (encodeObjectWith encodeObjectField) with encodeObject.
      destruct obj as [|kv others]; cbn [map length Nat.eqb].
      * apply hanging_line; [no_LF | prefix].
      * pose proof (@Body (kv :: others) {| indent := i + 1 |}
                      ltac:(discriminate) Fields) as B.
        cbn [indent] in B.
        destruct (truthy _).
        -- replace (indentStr i n ++ encodeKey key [COMMA] ++ [COLON; LF]
                    ++ encodeObject (kv :: others) {| indent := i + 1 |} n)
             with ((indentStr i n ++ encodeKey key [COMMA] ++ [COLON])
                   ++ LF :: encodeObject (kv :: others)
                              {| indent := i + 1 |} n)
             by (rewrite <- !app_assoc; reflexivity).
           apply hanging_block; [no_LF | prefix | exact B].
        -- apply hanging_line; [no_LF | prefix].
    + destruct obj as [|[fk fv] others].
      * cbn [encodeListItem indent]. apply hanging_line; [no_LF|].
        apply startsWith_prefix. exists []. now rewrite app_nil_r.
      * apply Forall_cons_iff in Fields as [_ Others].
        apply Forall_cons_iff in IH as [IHfirst _].
        apply Forall_cons_iff in Wf as [Wfirst _].
        cbn [fst snd] in IHfirst, Wfirst.
        specialize (IHfirst Wfirst).
        assert (Harr : forall arr, fv = JArray arr ->
                  arrayLines (encodeArray arr {| indent := i |} n)
                    ((i + 1) * n)).
        { intros arr E.
          destruct (IHfirst {| indent := i |} n) as (_ & _ & H & _).
          now apply H. }
        assert (Hobj : forall fo, fv = JObject fo -> fo <> [] ->
                  indented ((i + 1) * n)
                    (encodeObject fo {| indent := i + 1 |} n)).
        { intros fo E Ne.
          destruct (IHfirst {| indent := i + 1 |} n) as (_ & _ & _ & H).
          now apply H. }
        assert (Tail : Forall (fun b => b <> [] ->
                         indented ((i + 1) * n) b)
                  (map (fun kv => encodeObjectField (fst kv) (snd kv)
                                    {| indent := i + 1 |} n) others)).
        { apply Forall_map. eapply Forall_impl; [|exact Others].
          intros kv H _. apply (H (fst kv) {| indent := i + 1 |}). }
        cbn [encodeListItem indent].
        change (encodeArrayWith encodeListItem) with encodeArray.
        change (encodeObjectWith encodeObjectField) with encodeObject.
        destruct fv as [p|arr|fo].
        -- inversion Wfirst as [? C| |]; subst.
           apply hanging_item; [no_LF | prefix | exact Tail].
        -- specialize (Harr arr eq_refl).
           destruct Harr as (Hh & Hi & Hb).
           destruct (kind (encodeArray arr {| indent := i |} n)) eqn:K.
           ++ specialize (Hi eq_refl).
              apply hanging_item; [no_LF | prefix | exact Tail].
           ++ specialize (Hb ltac:(discriminate)).
              apply hanging_item; [no_LF | prefix |].
              apply Forall_app. split; [|exact Tail].
              destruct (truthy _) eqn:T; constructor; [|constructor].
              intros _. apply reindentBlock_indented; [|exact Hb].
              intros E. rewrite E in T. discriminate.
           ++ specialize (Hb ltac:(discriminate)).
              apply hanging_item; [no_LF | prefix |].
              apply Forall_app. split; [|exact Tail].
              destruct (truthy _) eqn:T; constructor; [|constructor].
              intros _. exact Hb.
        -- apply hanging_item; [no_LF | prefix |].
           apply Forall_app. split; [|exact Tail].
           destruct (truthy _) eqn:T; constructor; [|constructor].
           intros _.
           assert (Ne : fo <> []) by (intros ->; discriminate).
           exact (Hobj fo eq_refl Ne).
    + intros obj' E Ne. injection E as <-.
      exact (Body obj {| indent := i |} Ne Fields).
Qed.

(** X13: in the rendering of a canonical value as an object field or as a
    list item, the first line begins with the indentation of its level
    followed by the key token (or by the dash), and every further line
    begins with the indentation of the next level; every line of a
    non-empty object begins with the indentation of its level. *)
Theorem renderer_indentation (v : Json) (W : WellFormed v) (key : jsstring)
  (ctx : Ctx) (n : nat) :
  hanging (indentStr (indent ctx) n ++ encodeKey key [COMMA])
    ((indent ctx + 1) * n) (encodeObjectField key v ctx n)
  /\ hanging (indentStr (indent ctx) n ++ js "-") ((indent ctx + 1) * n)
       (encodeListItem v ctx n)
  /\ (forall obj, v = JObject obj -> obj <> [] ->
        indented (indent ctx * n) (encodeObject obj ctx n)).
Proof.
  destruct (@renderer_lines v W ctx n) as (F & I & _ & O).
  split; [apply F | split; [exact I | exact O]].
Qed.

Lemma renderer_indentation_witness :
  hanging (indentStr 1 2 ++ encodeKey (js "tags") [COMMA]) ((1 + 1) * 2)
    (encodeObjectField (js "tags")
       (JObject [(js "a", JArray [JPrim PNull; JArray []])])
       {| indent := 1 |} 2)
  /\ hanging (indentStr 1 2 ++ js "-") ((1 + 1) * 2)
       (encodeListItem
          (JObject [(js "a", JArray [JPrim PNull; JArray []])])
          {| indent := 1 |} 2)
  /\ (forall obj,
        JObject [(js "a", JArray [JPrim PNull; JArray []])]
        = JObject obj ->
        obj <> [] ->
        indented (1 * 2) (encodeObject obj {| indent := 1 |} 2)).
Proof.
  apply (@renderer_indentation
           (JObject [(js "a", JArray [JPrim PNull; JArray []])])).
  repeat constructor.
Defined.

Lemma tabular_rows (arr : list Json) (ctx : Ctx) (n : nat) :
  arr <> [] -> Forall WellFormed arr ->
  splitLines (body (tabularResult arr ctx n))
  = map (fun o =>
           indentStr (indent ctx + 1) n
           ++ join (delimiter (tabularResult arr ctx n))
                (rowCells o (snd (sameKeySet arr))
                   (delimiter (tabularResult arr ctx n)))) arr.
Proof.
  intros Ne W. cbn [tabularResult body delimiter].
  apply splitLines_join; [now destruct arr|].
  apply Forall_map. eapply Forall_impl; [|exact W].
  intros o Wo H. apply in_app_iff in H as [H | H];
    [now apply indentStr_no_LF in H|].
  revert H. apply (@row_no_LF o _ _ Wo), delimiter_no_LF.
Qed.

Lemma lines_of_blocks (blocks : list jsstring) :
  length blocks <= length (flat_map splitLines blocks).
Proof.
  induction blocks as [|b blocks IH]; [reflexivity|]. cbn [flat_map length].
  rewrite length_app. pose proof (splitLines_nonempty b).
  destruct (splitLines b); [easy | simpl; lia].
Qed.

(** X14: in the encoding of an array of canonical values, the header and an
    inline body hold no line break; a tabular body has exactly one line per
    element; a list body has at least one line per element; and every line
    of a tabular or list body begins with the indentation of the next
    level. *)
Theorem array_body_lines (arr : list Json) (ctx : Ctx) (n : nat)
  (W : Forall WellFormed arr) :
  ~ In LF (header (encodeArray arr ctx n))
  /\ (kind (encodeArray arr ctx n) = KInline ->
      ~ In LF (body (encodeArray arr ctx n)))
  /\ (kind (encodeArray arr ctx n) = KTabular ->
      length (splitLines (body (encodeArray arr ctx n))) = length arr)
  /\ (kind (encodeArray arr ctx n) = KList ->
      length arr <= length (splitLines (body (encodeArray arr ctx n))))
  /\ (kind (encodeArray arr ctx n) <> KInline ->
      indented ((indent ctx + 1) * n) (body (encodeArray arr ctx n))).
Proof.
  assert (Items : Forall (fun v => forall c,
            indented (indent c * n) (encodeListItem v c n)) arr).
  { eapply Forall_impl; [|exact W]. intros v Wv c.
    destruct (@renderer_lines v Wv c n) as (_ & I & _).
    now apply hanging_indented in I. }
  destruct (@array_lines arr ctx n W Items) as (Hh & Hi & Hb).
  split; [exact Hh|]. split; [exact Hi|].
  split; [|split; [|exact Hb]].
  - intros K. rewrite (tabular_encoding _ _ _ K).
    apply kind_tabular in K. unfold tabularTest in K.
    rewrite !andb_true_iff in K. destruct K as [[[Ne _] _] _].
    rewrite tabular_rows, length_map; trivial.
    destruct arr; [discriminate | easy].
  - rewrite encodeArray_cases, encodeTabular_cases.
    destruct (forallb isPrimitive arr) eqn:P; [discriminate|].
    destruct (tabularTest arr); [discriminate|]. cbn [kind body]. intros _.
    rewrite splitLines_blocks by (destruct arr; [discriminate | easy]).
    rewrite <- (length_map (fun item =>
      encodeListItem item {| indent := indent ctx + 1 |} n) arr) at 1.
    apply lines_of_blocks.
Qed.

Lemma array_body_lines_witness :
  ~ In LF (header (encodeArray users topLevel 2))
  /\ (kind (encodeArray users topLevel 2) = KInline ->
      ~ In LF (body (encodeArray users topLevel 2)))
  /\ (kind (encodeArray users topLevel 2) = KTabular ->
      length (splitLines (body (encodeArray users topLevel 2)))
      = length users)
  /\ (kind (encodeArray users topLevel 2) = KList ->
      length users
      <= length (splitLines (body (encodeArray users topLevel 2))))
  /\ (kind (encodeArray users topLevel 2) <> KInline ->
      indented ((indent topLevel + 1) * 2)
        (body (encodeArray users topLevel 2))).
Proof.
  apply (@array_body_lines users topLevel 2).
  repeat constructor; discriminate.
Defined.

(** ** An indent size of zero *)

Lemma indentStr_zero (k : nat) : indentStr k 0 = [].
Proof. unfold indentStr. now rewrite Nat.mul_0_r. Qed.

Lemma reindentBlock_zero (block : jsstring) (k : nat) :
  reindentBlock block k 0 = block.
Proof.
  destruct block as [|c block]; [reflexivity|].
  rewrite reindentBlock_cases by discriminate. rewrite indentStr_zero.
  rewrite <- (join_splitLines (c :: block)) at 2. f_equal.
  rewrite <- (map_id (splitLines (c :: block))) at 2. apply map_ext.
  intros ln. unfold reindentLine. now destruct (0 <? length ln)%nat.
Qed.









(* ================================================================= *)
(* ================================================================= *)
(** * Further properties of rows *)

Lemma scanQuoted_escaped (s rest : jsstring) :
  scanQuoted (flat_map escapeChar s ++ DQUOTE :: rest)
  = (flat_map escapeChar s, rest).
Proof.
  induction s as [|c s IH]; [reflexivity|].
  cbn [flat_map]. rewrite <- app_assoc. unfold escapeChar at 1 3.
  destruct (N.eqb_spec c BACKSLASH) as [->|Nb];
    [cbn [app scanQuoted]; now rewrite IH|].
  destruct (N.eqb_spec c DQUOTE) as [->|Nq];
    [cbn [app scanQuoted]; now rewrite IH|].
  destruct (N.eqb_spec c LF) as [->|Nl];
    [cbn [app scanQuoted]; now rewrite IH|].
  destruct (N.eqb_spec c CR) as [->|Nr];
    [cbn [app scanQuoted]; now rewrite IH|].
  destruct (N.eqb_spec c TAB) as [->|Nt];
    [cbn [app scanQuoted]; now rewrite IH|].
  cbn [app scanQuoted].
  apply N.eqb_neq in Nb, Nq. now rewrite Nq, Nb, IH.
Qed.

Lemma token_shape (p : Primitive) (d : jsstring) :
  canonicalPrimitive p -> isToken (encodePrimitive p d).
Proof.
  intros C.
  assert (L : (forall s, p <> PString s) -> isToken (encodePrimitive p d)).
  { intros NS. right. split.
    - destruct (literal_text d C NS) as (_ & c & r & -> & _). discriminate.
    - intros c. now apply literal_chars. }
  destruct p as [|b|x|s]; try (apply L; intros s; discriminate).
  cbn [encodePrimitive]. unfold encodeString.
  destruct (needsQuotes s d) eqn:Q.
  - left. exists s. now rewrite escapeQuoted_chars.
  - right. apply unquoted_string in Q as (Ne & Safe & _).
    split; [exact Ne|]. intros c Hc. now apply Safe.
Qed.

Lemma isToken_nonempty (t : jsstring) : isToken t -> t <> [].
Proof. intros [[s ->] | [Ne _]]; [discriminate | exact Ne]. Qed.

Lemma scanToken_token (d : code_unit) (t rest : jsstring) :
  d = COMMA \/ d = TAB -> isToken t -> afterCell d rest ->
  scanToken d (t ++ rest) = (t, rest).
Proof.
  intros D [[s ->] | [Ne Safe]] After.
  - unfold quoted, scanToken. cbn [app]. rewrite N.eqb_refl.
    rewrite <- app_assoc. cbn [app]. now rewrite scanQuoted_escaped.
  - destruct t as [|c t]; [easy|]. cbn [app scanToken].
    assert (Q : (c =? DQUOTE)%N = false).
    { pose proof (Safe c (or_introl eq_refl)) as S.
      unfold isStructural in S. rewrite !orb_false_iff in S. tauto. }
    rewrite Q.
    assert (F : forallb (fun x => negb (x =? d)%N) (c :: t) = true).
    { apply forallb_forall. intros x Hx. apply Safe in Hx.
      apply negb_true_iff, N.eqb_neq. intros ->.
      destruct D as [-> | ->]; discriminate. }
    change (c :: t ++ rest) with ((c :: t) ++ rest).
    destruct After as [-> | [more ->]].
    + rewrite app_nil_r. now rewrite takeWhile_all, dropWhile_all.
    + destruct (@takeWhile_stop (fun x => negb (x =? d)%N) (c :: t) more d F)
        as [-> ->]; [now rewrite N.eqb_refl | reflexivity].
Qed.

Lemma join_first (d : code_unit) (t : jsstring) (ts : list jsstring) :
  exists rest, join [d] (t :: ts) = t ++ rest /\ afterCell d rest
               /\ (ts = [] -> rest = [])
               /\ (ts <> [] -> rest = d :: join [d] ts).
Proof.
  destruct ts as [|u ts].
  - exists []. simpl. rewrite app_nil_r. repeat split; [now left | easy].
  - exists (d :: join [d] (u :: ts)). rewrite join_cons by discriminate.
    repeat split; [right; now eexists | discriminate].
Qed.

(** A row determines its cells. *)
Lemma join_tokens (d : code_unit) (ts us : list jsstring) :
  d = COMMA \/ d = TAB -> Forall isToken ts -> Forall isToken us ->
  join [d] ts = join [d] us -> ts = us.
Proof.
  intros D. revert us. induction ts as [|t ts IH]; intros us Ts Us E.
  - destruct us as [|u us]; [reflexivity|]. exfalso.
    apply Forall_cons_iff in Us as [Hu _].
    destruct (join_first d u us) as (rest & R & _). rewrite R in E.
    simpl in E. symmetry in E. apply app_eq_nil in E as [E _].
    now apply isToken_nonempty in Hu.
  - apply Forall_cons_iff in Ts as [Ht Ts].
    destruct (join_first d t ts) as (rest & R & A & Rn & Rc).
    destruct us as [|u us].
    + exfalso. rewrite R in E. simpl in E. apply app_eq_nil in E as [E _].
      now apply isToken_nonempty in Ht.
    + apply Forall_cons_iff in Us as [Hu Us].
      destruct (join_first d u us) as (rest' & R' & A' & Rn' & Rc').
      rewrite R, R' in E.
      pose proof (f_equal (scanToken d) E) as S.
      rewrite !scanToken_token in S by assumption.
      injection S as <- <-. f_equal.
      destruct ts as [|t' ts], us as [|u' us]; trivial.
      * rewrite (Rn eq_refl) in Rc'. now specialize (Rc' ltac:(discriminate)).
      * rewrite (Rn' eq_refl) in Rc. now specialize (Rc ltac:(discriminate)).
      * apply IH; trivial.
        specialize (Rc ltac:(discriminate)).
        specialize (Rc' ltac:(discriminate)). congruence.
Qed.

Lemma token_injective (p q : Primitive) (d : jsstring) :
  canonicalPrimitive p -> canonicalPrimitive q ->
  encodePrimitive p d = encodePrimitive q d -> p = q.
Proof.
  intros Cp Cq.
  assert (NS : forall r : Primitive,
            match r with PString _ => False | _ => True end ->
            forall t, r <> PString t).
  { intros r Hr t ->. exact Hr. }
  assert (SL : forall s r, canonicalPrimitive r ->
            match r with PString _ => False | _ => True end ->
            encodePrimitive (PString s) d = encodePrimitive r d ->
            PString s = r).
  { intros s r Cr Hr E. exfalso.
    exact (@string_token_differs s r d Cr (NS r Hr) E). }
  assert (NL : forall n r, canonicalPrimitive (PNumber n) ->
            match r with PNull | PBoolean _ => True | _ => False end ->
            encodePrimitive (PNumber n) d = encodePrimitive r d ->
            PNumber n = r).
  { intros n r Cn Hr E. exfalso. apply (number_text_not_literal Cn).
    cbn [encodePrimitive] in E. rewrite E.
    destruct r as [|[|]| |]; simpl; tauto. }
  destruct p as [|b|n|s], q as [|b'|n'|s']; intros E;
    try reflexivity;
    try (now apply NL); try (now apply SL);
    try (symmetry; symmetry in E; now apply NL);
    try (symmetry; symmetry in E; now apply SL).
  - now destruct b'.
  - now destruct b.
  - destruct b, b'; trivial; discriminate.
  - cbn [encodePrimitive] in E. f_equal. now apply number_text_injective.
  - cbn [encodePrimitive] in E. f_equal.
    rewrite <- (unquote_encodeString s d), E. apply unquote_encodeString.
Qed.

Lemma tokens_injective (ps qs : list Primitive) (d : jsstring) :
  Forall canonicalPrimitive ps -> Forall canonicalPrimitive qs ->
  map (fun p => encodePrimitive p d) ps
  = map (fun q => encodePrimitive q d) qs ->
  ps = qs.
Proof.
  revert qs. induction ps as [|p ps IH]; intros [|q qs] Cp Cq E;
    try discriminate; [reflexivity|].
  apply Forall_cons_iff in Cp as [Hp Cp].
  apply Forall_cons_iff in Cq as [Hq Cq].
  injection E as E1 E2. f_equal; [now apply (@token_injective p q d) | now apply IH].
Qed.

Lemma row_cells (ps qs : list Primitive) (d : code_unit) :
  d = COMMA \/ d = TAB ->
  Forall canonicalPrimitive ps -> Forall canonicalPrimitive qs ->
  join [d] (map (fun p => encodePrimitive p [d]) ps)
  = join [d] (map (fun q => encodePrimitive q [d]) qs) ->
  ps = qs.
Proof.
  intros D Cp Cq E. apply (@tokens_injective ps qs [d] Cp Cq).
  apply (@join_tokens d _ _ D); trivial; apply Forall_map.
  - eapply Forall_impl; [|exact Cp]. intros p. apply token_shape.
  - eapply Forall_impl; [|exact Cq]. intros q. apply token_shape.
Qed.

(** X16: a row determines its cells: two lists of canonical primitives
    whose tokens, joined by the comma or by the tab, give the same text are
    the same list; so no delimiter inside a quoted cell and no quote inside
    a cell is ever taken for the end of a cell. *)
Theorem row_determines_cells (ps qs : list Primitive) (d : code_unit)
  (D : d = COMMA \/ d = TAB)
  (Cp : Forall canonicalPrimitive ps) (Cq : Forall canonicalPrimitive qs) :
  join [d] (map (fun p => encodePrimitive p [d]) ps)
  = join [d] (map (fun q => encodePrimitive q [d]) qs)
  <-> ps = qs.
Proof.
  split; [now apply row_cells | now intros ->].
Qed.

Lemma row_determines_cells_witness :
  join [COMMA]
    (map (fun p => encodePrimitive p [COMMA])
       [PString (js "a,b"); PString [DQUOTE]; PNull])
  = join [COMMA]
      (map (fun q => encodePrimitive q [COMMA])
         [PString (js "a"); PString (js "b"); PString [DQUOTE]; PNull])
  <-> [PString (js "a,b"); PString [DQUOTE]; PNull]
      = [PString (js "a"); PString (js "b"); PString [DQUOTE]; PNull].
Proof.
  apply row_determines_cells; [now left | repeat constructor..].
Defined.

(** ** Inline arrays *)

Lemma natToString_injective (n m : nat) :
  natToString n = natToString m -> n = m.
Proof.
  unfold natToString. intros E. apply (f_equal charsUint) in E.
  rewrite !charsUint_uintChars in E. apply (f_equal Nat.of_uint) in E.
  now rewrite !DecimalNat.Unsigned.of_to in E.
Qed.

Lemma bracketed_injective (n m : nat) : bracketed n = bracketed m -> n = m.
Proof.
  unfold bracketed. intros E. simpl in E. injection E as E.
  apply app_inv_tail in E. now apply natToString_injective.
Qed.

Lemma needsQuotes_delimiter (s : jsstring) :
  needsQuotes s [COMMA] = needsQuotes s [TAB].
Proof.
  rewrite !needsQuotes_tests.
  destruct (includes s [COMMA]), (includes s [TAB]);
    rewrite ?orb_true_r; reflexivity.
Qed.

Lemma encodePrimitive_delimiter (p : Primitive) :
  encodePrimitive p [COMMA] = encodePrimitive p [TAB].
Proof.
  destruct p as [|b|x|s]; try reflexivity.
  cbn [encodePrimitive]. unfold encodeString.
  now rewrite needsQuotes_delimiter.
Qed.

Lemma token_no_TAB (p : Primitive) (d : jsstring) :
  canonicalPrimitive p -> ~ In TAB (encodePrimitive p d).
Proof.
  intros C H. destruct (@token_shape p d C) as [[s E] | [_ Safe]].
  - rewrite E in H. unfold quoted in H. destruct H as [H | H]; [easy|].
    apply in_app_iff in H as [H | [H | []]]; [|easy].
    apply escaped_chars in H. now destruct H as (_ & _ & H).
  - apply Safe in H. discriminate.
Qed.

Lemma asPrimitives_all (arr : list Json) :
  Forall isPrim arr -> arr = map JPrim (asPrimitives arr).
Proof.
  induction 1 as [|v arr [p ->] _ IH]; [reflexivity|].
  cbn [asPrimitives flat_map app map]. f_equal. exact IH.
Qed.

Lemma asPrimitives_canonical (arr : list Json) :
  Forall WellFormed arr -> Forall canonicalPrimitive (asPrimitives arr).
Proof.
  induction 1 as [|v arr W _ IH]; [constructor|].
  destruct v as [p| |]; cbn [asPrimitives flat_map app]; try exact IH.
  constructor; [now inversion W | exact IH].
Qed.

Lemma inline_encoding (arr : list Json) (ctx : Ctx) (n : nat) :
  Forall isPrim arr ->
  header (encodeArray arr ctx n) = bracketed (length arr)
  /\ body (encodeArray arr ctx n)
     = join (chooseDelimiterForValues arr)
         (map (fun p => encodePrimitive p (chooseDelimiterForValues arr))
            (asPrimitives arr)).
Proof.
  intros P. apply forallb_isPrimitive in P.
  rewrite encodeArray_cases, P. split; reflexivity.
Qed.

(** Rows with different delimiters: equal only when they hold one and the
    same cell, or none. *)
Lemma mixed_rows (ps qs : list Primitive) :
  Forall canonicalPrimitive ps -> Forall canonicalPrimitive qs ->
  length ps = length qs ->
  join [COMMA] (map (fun p => encodePrimitive p [COMMA]) ps)
  = join [TAB] (map (fun q => encodePrimitive q [TAB]) qs) ->
  ps = qs.
Proof.
  intros Cp Cq L E.
  destruct ps as [|p [|p2 ps]], qs as [|q [|q2 qs]]; try discriminate.
  - reflexivity.
  - simpl in E. rewrite <- encodePrimitive_delimiter in E. f_equal.
    apply Forall_cons_iff in Cp as [Hp _].
    apply Forall_cons_iff in Cq as [Hq _].
    now apply (@token_injective p q [COMMA]).
  - exfalso.
    assert (T : In TAB (join [TAB]
                  (map (fun q => encodePrimitive q [TAB]) (q :: q2 :: qs)))).
    { cbn [map]. rewrite join_cons by discriminate.
      apply in_or_app. right. now left. }
    rewrite <- E in T. apply join_chars in T as [[T | []] | (t & Ht & T)];
      [discriminate|].
    apply in_map_iff in Ht as (x & <- & Hx). revert T. apply token_no_TAB.
    rewrite Forall_forall in Cp. now apply Cp.
Qed.

(** X17: an inline array can be read back from its header and body: two
    arrays of canonical primitives with the same header and the same body
    are the same array, although the header does not tell which delimiter
    the body uses. *)
Theorem inline_array_determined (arr arr' : list Json) (ctx ctx' : Ctx)
  (n n' : nat)
  (P : Forall isPrim arr) (P' : Forall isPrim arr')
  (W : Forall WellFormed arr) (W' : Forall WellFormed arr') :
  (header (encodeArray arr ctx n) = header (encodeArray arr' ctx' n')
   /\ body (encodeArray arr ctx n) = body (encodeArray arr' ctx' n'))
  <-> arr = arr'.
Proof.
  destruct (@inline_encoding arr ctx n P) as [Hh Hb].
  destruct (@inline_encoding arr' ctx' n' P') as [Hh' Hb'].
  rewrite Hh, Hh', Hb, Hb'. split; [|now intros ->].
  intros [Eh Eb]. apply bracketed_injective in Eh.
  rewrite (asPrimitives_all P), (asPrimitives_all P'). f_equal.
  assert (L : length (asPrimitives arr) = length (asPrimitives arr')).
  { rewrite (asPrimitives_all P), (asPrimitives_all P'), !length_map in Eh.
    exact Eh. }
  apply asPrimitives_canonical in W, W'. revert Eb.
  destruct (chooseDelimiter_either arr) as [-> | ->],
    (chooseDelimiter_either arr') as [-> | ->]; intros Eb.
  - apply (@row_cells _ _ TAB); auto.
  - symmetry. symmetry in Eb, L. now apply mixed_rows.
  - now apply mixed_rows.
  - apply (@row_cells _ _ COMMA); auto.
Qed.

Lemma inline_array_determined_witness :
  (header (encodeArray [JPrim (PString (js "a,b")); JPrim PNull] topLevel 2)
   = header (encodeArray [JPrim (PString (js "a")); JPrim (PString (js "b"))]
               topLevel 2)
   /\ body (encodeArray [JPrim (PString (js "a,b")); JPrim PNull] topLevel 2)
      = body (encodeArray
                [JPrim (PString (js "a")); JPrim (PString (js "b"))]
                topLevel 2))
  <-> [JPrim (PString (js "a,b")); JPrim PNull]
      = [JPrim (PString (js "a")); JPrim (PString (js "b"))].
Proof.
  apply inline_array_determined;
    repeat constructor; eexists; reflexivity.
Defined.

(** ** Tables *)

(** The parts of what [tabularTest] checks that the rows need. *)
Lemma tabular_facts (arr : list Json) (ctx : Ctx) (n : nat) :
  kind (encodeArray arr ctx n) = KTabular ->
  arr <> []
  /\ encodeArray arr ctx n = tabularResult arr ctx n
  /\ snd (sameKeySet arr) = keysOf (hd (JObject []) arr)
  /\ Forall (fun o =>
               forallb (isPrimitiveProp o) (keysOf (hd (JObject []) arr))
               = true) arr.
Proof.
  intros K. pose proof (tabular_encoding _ _ _ K) as E.
  apply kind_tabular in K. unfold tabularTest in K.
  rewrite !andb_true_iff in K. destruct K as [[[Ne _] S] C].
  assert (Ne' : arr <> []) by (destruct arr; [discriminate | easy]).
  pose proof (sameKeySet_keys S Ne') as Keys. rewrite Keys in C.
  repeat split; trivial. apply Forall_forall. rewrite forallb_forall in C.
  exact C.
Qed.

(** The primitives of a row. *)
Lemma row_primitives (o : Json) (keys : list jsstring) :
  WellFormed o -> forallb (isPrimitiveProp o) keys = true ->
  exists ps,
    Forall canonicalPrimitive ps
    /\ length ps = length keys
    /\ map (getProp o) keys = map (fun p => Some (JPrim p)) ps
    /\ (forall d, rowCells o keys d
                  = map (fun p => encodePrimitive p d) ps).
Proof.
  intros W. induction keys as [|k keys IH]; intros H.
  - exists []. repeat split. constructor.
  - cbn [forallb] in H. apply andb_true_iff in H as [Hk H].
    destruct (IH H) as (ps & C & L & G & R).
    apply isPrimitiveProp_Some in Hk as [p Hp].
    exists (p :: ps). split; [|split; [|split]].
    + constructor; [|exact C].
      destruct o as [?|?|fields]; try discriminate. simpl in Hp.
      apply lookup_In in Hp as [k' Hp]. inversion W as [| |? F]; subst.
      rewrite Forall_forall in F. specialize (F _ Hp). simpl in F.
      now inversion F.
    + simpl. now rewrite L.
    + cbn [map]. now rewrite Hp, G.
    + intros d. unfold rowCells in *. cbn [map]. now rewrite Hp, R.
Qed.

Lemma map_Forall2 (A B C : Type) (f : A -> C) (g : B -> C)
  (Q : A -> Prop) (Q' : B -> Prop) (R : A -> B -> Prop)
  (l : list A) (l' : list B) :
  (forall x y, Q x -> Q' y -> f x = g y -> R x y) ->
  Forall Q l -> Forall Q' l' -> map f l = map g l' -> Forall2 R l l'.
Proof.
  intros H. revert l'. induction l as [|x l IH]; intros [|y l'] F F' E;
    try discriminate; constructor.
  - apply Forall_cons_iff in F as [Hx _].
    apply Forall_cons_iff in F' as [Hy _].
    injection E as E _. now apply H.
  - apply Forall_cons_iff in F as [_ F].
    apply Forall_cons_iff in F' as [_ F'].
    injection E as _ E. now apply IH.
Qed.

Lemma header_parts (n m : nat) (a b : jsstring) :
  js "[" ++ natToString n ++ js "]{" ++ a ++ js "}"
  = js "[" ++ natToString m ++ js "]{" ++ b ++ js "}" ->
  n = m /\ a = b.
Proof.
  intros E. simpl in E. injection E as E.
  pose proof (uintChars_digits (Nat.to_uint n)) as Dn.
  pose proof (uintChars_digits (Nat.to_uint m)) as Dm.
  fold (natToString n) in Dn. fold (natToString m) in Dm.
  destruct (@takeWhile_stop isDigit (natToString n)
              (123%N :: a ++ js "}") 93%N Dn eq_refl) as [Tn Rn].
  destruct (@takeWhile_stop isDigit (natToString m)
              (123%N :: b ++ js "}") 93%N Dm eq_refl) as [Tm Rm].
  pose proof (f_equal (takeWhile isDigit) E) as T.
  pose proof (f_equal (dropWhile isDigit) E) as R.
  pose proof (eq_trans (eq_sym Tn) (eq_trans T Tm)) as T'.
  pose proof (eq_trans (eq_sym Rn) (eq_trans R Rm)) as R'.
  split; [now apply natToString_injective|].
  injection R' as R'. now apply app_inv_tail in R'.
Qed.

Lemma key_tokens (keys keys' : list jsstring) :
  join [COMMA] (map (fun k => encodeKey k [COMMA]) keys)
  = join [COMMA] (map (fun k => encodeKey k [COMMA]) keys') ->
  keys = keys'.
Proof.
  intros E.
  assert (T : forall ks : list jsstring,
            Forall isToken (map (fun k => encodeKey k [COMMA]) ks)).
  { intros ks. apply Forall_map, Forall_forall. intros k _.
    apply (@token_shape (PString k) [COMMA] I). }
  apply (@join_tokens COMMA _ _ (or_introl eq_refl) (T keys) (T keys')) in E.
  revert keys' E. induction keys as [|k keys IH]; intros [|k' keys'] E;
    try discriminate; [reflexivity|].
  injection E as E1 E2. f_equal; [|now apply IH].
  assert (P : PString k = PString k').
  { now apply (@token_injective (PString k) (PString k') [COMMA] I I). }
  now injection P.
Qed.

Lemma rows_cells (ps qs : list Primitive) (d d' : jsstring) :
  d = [TAB] \/ d = [COMMA] -> d' = [TAB] \/ d' = [COMMA] ->
  Forall canonicalPrimitive ps -> Forall canonicalPrimitive qs ->
  length ps = length qs ->
  join d (map (fun p => encodePrimitive p d) ps)
  = join d' (map (fun q => encodePrimitive q d') qs) ->
  ps = qs.
Proof.
  intros [-> | ->] [-> | ->] Cp Cq L E.
  - apply (@row_cells _ _ TAB); auto.
  - symmetry. symmetry in E, L. now apply mixed_rows.
  - now apply mixed_rows.
  - apply (@row_cells _ _ COMMA); auto.
Qed.

(** X18: a table can be read back from its header and body: two arrays of
    canonical values that are both encoded as tables, at the same level,
    with the same header and the same body have the same key list in their
    first rows, the same number of rows and, row by row, the same value
    under every key (the order of the keys in the later rows is not
    recorded). *)
Theorem table_determined (arr arr' : list Json) (ctx : Ctx) (n : nat)
  (K : kind (encodeArray arr ctx n) = KTabular)
  (K' : kind (encodeArray arr' ctx n) = KTabular)
  (W : Forall WellFormed arr) (W' : Forall WellFormed arr')
  (Eh : header (encodeArray arr ctx n) = header (encodeArray arr' ctx n))
  (Eb : body (encodeArray arr ctx n) = body (encodeArray arr' ctx n)) :
  keysOf (hd (JObject []) arr') = keysOf (hd (JObject []) arr)
  /\ length arr' = length arr
  /\ Forall2 (fun o o' =>
                map (getProp o) (keysOf (hd (JObject []) arr))
                = map (getProp o') (keysOf (hd (JObject []) arr)))
       arr arr'.
Proof.
  destruct (tabular_facts _ _ _ K) as (Ne & E & Keys & Cells).
  destruct (tabular_facts _ _ _ K') as (Ne' & E' & Keys' & Cells').
  rewrite E, E' in Eh, Eb.
  pose proof (f_equal splitLines Eb) as Rows.
  rewrite !tabular_rows in Rows by assumption.
  cbn [tabularResult header delimiter] in Eh, Rows.
  rewrite Keys, Keys' in Eh, Rows.
  apply header_parts in Eh as [Len Eh]. apply key_tokens in Eh.
  rewrite <- Eh in *. split; [reflexivity|]. split; [now symmetry|].
  set (keys := keysOf (hd (JObject []) arr)) in *.
  revert Rows.
  apply (@map_Forall2 _ _ _ _ _
           (fun o => WellFormed o /\ forallb (isPrimitiveProp o) keys = true)
           (fun o => WellFormed o /\ forallb (isPrimitiveProp o) keys = true)).
  - intros o o' [Wo Co] [Wo' Co'] Row. apply app_inv_head in Row.
    destruct (@row_primitives o keys Wo Co) as (ps & Cp & Lp & Gp & Rp).
    destruct (@row_primitives o' keys Wo' Co') as (qs & Cq & Lq & Gq & Rq).
    rewrite Rp, Rq in Row. rewrite Gp, Gq. f_equal.
    revert Row. apply rows_cells; trivial;
      try apply chooseDelimiter_either. congruence.
  - apply Forall_forall. intros o Ho. rewrite Forall_forall in W, Cells.
    split; [now apply W | now apply Cells].
  - apply Forall_forall. intros o Ho. rewrite Forall_forall in W', Cells'.
    split; [now apply W' | now apply Cells'].
Qed.

Lemma table_determined_witness :
  keysOf (hd (JObject []) reordered) = keysOf (hd (JObject []) users)
  /\ length reordered = length users
  /\ Forall2 (fun o o' =>
                map (getProp o) (keysOf (hd (JObject []) users))
                = map (getProp o') (keysOf (hd (JObject []) users)))
       users reordered.
Proof.
  apply (@table_determined users reordered topLevel 2);
    try reflexivity; repeat constructor; discriminate.
Defined.
